(** * mystl::vector — a shallow embedding of [MySTL/vector.hpp]

    The container is three pointers ([elem_], [free_], [last_]) into storage
    obtained from an allocator.  Pointers are addresses counted in element
    slots; the storage is a map from addresses to slots that are unallocated,
    allocated but raw, or holding a live element.  Every member function is a
    state transformer over the object and the storage, which returns
    normally, throws, or has undefined behaviour. *)

From Stdlib Require Import ZArith List Bool Lia.
Import ListNotations.
Local Open Scope Z_scope.

(** ** Element types *)

(** What the container needs to know about [value_type]: whether copy
    construction of a given value throws, and the compile-time answer of
    [std::is_nothrow_move_constructible].  A copy that succeeds is equal to its
    source; moves and assignments of elements do not throw, and a moved-from
    element keeps its value (as scalar types do; every moved-from element is
    assigned to or destroyed before the container is looked at again). *)
Class Element (T : Type) : Type := {
  copy_throws : T -> bool;
  nothrow_move_constructible : bool
}.

(** [int]: nothing ever throws. *)
#[export] Instance int_element : Element Z := {|
  copy_throws := fun _ => false;
  nothrow_move_constructible := true
|}.

(** An element type whose copy constructor throws for some values and whose
    move constructor is not declared [noexcept]. *)
Inductive fragile : Type :=
| Sound (z : Z)
| Faulty (z : Z).

#[export] Instance fragile_element : Element fragile := {|
  copy_throws := fun x => match x with Sound _ => false | Faulty _ => true end;
  nothrow_move_constructible := false
|}.

(** ** [size_type] *)

(** [std::size_t] is 64 bits wide; arithmetic on it wraps. *)
Definition size_max : Z := 2 ^ 64.
Definition wrap (z : Z) : Z := z mod size_max.

Definition FIRST_EXPAND_CAPACITY : Z := 10.
Definition EXPAND_RATE : Z := 2.

(** ** The object *)

Record vector : Type := mkvector {
  elem_ : Z;   (* first element of the allocated space; 0 is nullptr *)
  free_ : Z;   (* first free slot of the allocated space *)
  last_ : Z    (* one past the end of the allocated space *)
}.

(** [vector() noexcept = default] *)
Definition null_vector : vector := mkvector 0 0 0.

Definition set_free (p : Z) (v : vector) : vector :=
  mkvector (elem_ v) p (last_ v).

Definition begin_ (v : vector) : Z := elem_ v.
Definition end_ (v : vector) : Z := free_ v.
Definition cbegin (v : vector) : Z := begin_ v.
Definition cend (v : vector) : Z := end_ v.

Definition size (v : vector) : Z := wrap (free_ v - elem_ v).
Definition capacity (v : vector) : Z := wrap (last_ v - elem_ v).
Definition empty (v : vector) : bool := elem_ v =? free_ v.

Inductive exn : Type :=
| OutOfRange     (* std::out_of_range *)
| LengthError    (* std::length_error *)
| CopyFailure.   (* whatever value_type's copy constructor throws *)

Ltac zbool :=
  repeat match goal with
  | |- context [?a =? ?b] => destruct (Z.eqb_spec a b)
  | |- context [?a <=? ?b] => destruct (Z.leb_spec a b)
  | |- context [?a <? ?b] => destruct (Z.ltb_spec a b)
  | |- context [?a >? ?b] => rewrite (Z.gtb_ltb a b)
  | |- context [?a >=? ?b] => rewrite (Z.geb_leb a b)
  end; simpl; try lia; try congruence.

Section Vector.

Context {T : Type} `{Element T}.

(** ** Storage *)

Inductive cell : Type :=
| Unalloc
| Uninit
| Live (x : T).

(** [blocks] records what [allocate] handed out (base address and element
    count), so that [deallocate] can be checked; [brk] is the next address the
    allocator will use. *)
Record heap : Type := mkheap {
  cells : Z -> cell;
  blocks : Z -> option Z;
  brk : Z
}.

Definition empty_heap : heap :=
  mkheap (fun _ => Unalloc) (fun _ => None) 1.

Definition in_range (p n q : Z) : bool := (p <=? q) && (q <? p + n).

Definition store (p : Z) (c : cell) (h : heap) : heap :=
  mkheap (fun q => if q =? p then c else cells h q) (blocks h) (brk h).

(** [alloc_.allocate(n)]: a fresh block of [n] raw slots.  The allocator
    always has room, never hands out an address twice, and leaves one slot of
    padding after each block, so that blocks are disjoint and a
    one-past-the-end pointer is never the base of another block. *)
Definition allocate (n : Z) (h : heap) : Z * heap :=
  (brk h,
   mkheap (fun q => if in_range (brk h) n q then Uninit else cells h q)
          (fun q => if q =? brk h then Some n else blocks h q)
          (brk h + n + 1)).

(** [alloc_.deallocate(p, n)]: undefined unless [p] came from [allocate(n)]
    and has not been released yet. *)
Definition deallocate (p n : Z) (h : heap) : option heap :=
  match blocks h p with
  | Some m =>
      if m =? n then
        Some (mkheap (fun q => if in_range p n q then Unalloc else cells h q)
                     (fun q => if q =? p then None else blocks h q)
                     (brk h))
      else None
  | None => None
  end.

(** Placement construction into a raw slot. *)
Definition construct (p : Z) (x : T) (h : heap) : option heap :=
  match cells h p with
  | Uninit => Some (store p (Live x) h)
  | _ => None
  end.

(** [alloc_.destroy(p)] *)
Definition destroy (p : Z) (h : heap) : option heap :=
  match cells h p with
  | Live _ => Some (store p Uninit h)
  | _ => None
  end.

(** Reading [*p]. *)
Definition load (p : Z) (h : heap) : option T :=
  match cells h p with
  | Live x => Some x
  | _ => None
  end.

(** [*p = std::move(x)] *)
Definition assign (p : Z) (x : T) (h : heap) : option heap :=
  match cells h p with
  | Live _ => Some (store p (Live x) h)
  | _ => None
  end.

(** ** Arguments passed by reference

    A [const value_type &] or [value_type &&] parameter designates an object
    that is read when the callee uses it, not when the call is made.  The
    object is either outside the storage (a local variable or a temporary),
    or the object at some address of the storage, possibly an element of the
    very container the call is made on. *)
Inductive ref : Type :=
| Outside (x : T)
| Inside (p : Z).

(** Reading through a reference; undefined when no object lives there. *)
Definition fetch (r : ref) (h : heap) : option T :=
  match r with
  | Outside x => Some x
  | Inside p => load p h
  end.

(** The arguments [args...] of [emplace] and [emplace_back], for the two
    constructors every element type has here: from an lvalue of the element
    type (the copy constructor, which may throw) and from an rvalue (the move
    constructor). *)
Inductive ctor_args : Type :=
| CopyOf (r : ref)
| MoveOf (r : ref).

(** ** Pointer loops

    A loop [for (it = first; it != last; ++it)] makes [last - first] rounds
    when [first <= last]; otherwise the pointer walks off the allocated
    storage, which is undefined. *)

Fixpoint destroy_run (n : nat) (p : Z) (h : heap) : option heap :=
  match n with
  | O => Some h
  | S n' =>
      match destroy p h with
      | Some h' => destroy_run n' (p + 1) h'
      | None => None
      end
  end.

Definition destruct_elements (first last : Z) (h : heap) : option heap :=
  if first <=? last then destroy_run (Z.to_nat (last - first)) first h
  else None.

Fixpoint load_run (n : nat) (p : Z) (h : heap) : option (list T) :=
  match n with
  | O => Some []
  | S n' =>
      match load p h with
      | Some x =>
          match load_run n' (p + 1) h with
          | Some l => Some (x :: l)
          | None => None
          end
      | None => None
      end
  end.

(** The values of the pointer range [[first, last)]. *)
Definition read_range (first last : Z) (h : heap) : option (list T) :=
  if first <=? last then load_run (Z.to_nat (last - first)) first h
  else None.

(** Result of building objects in raw storage: the end of the built range, or
    an exception of the element type after the objects built so far have been
    destroyed again. *)
Inductive built : Type :=
| Built (new_free : Z) (h : heap)
| Failed (h : heap)
| BuiltUndefined.

(** [std::uninitialized_copy(first, last, d_first)], the source range given by
    the values it yields; [cur] is the slot to construct next. *)
Fixpoint uninitialized_copy_from (d_first : Z) (src : list T) (cur : Z)
    (h : heap) : built :=
  match src with
  | [] => Built cur h
  | x :: rest =>
      if copy_throws x then
        match destruct_elements d_first cur h with
        | Some h' => Failed h'
        | None => BuiltUndefined
        end
      else
        match construct cur x h with
        | Some h' => uninitialized_copy_from d_first rest (cur + 1) h'
        | None => BuiltUndefined
        end
  end.

Definition uninitialized_copy (src : list T) (d_first : Z) (h : heap) : built :=
  uninitialized_copy_from d_first src d_first h.

(** [std::uninitialized_fill(first, first + n, value)]: every round copies
    from the reference. *)
Fixpoint uninitialized_fill_from (d_first : Z) (k : nat) (value : ref)
    (cur : Z) (h : heap) : built :=
  match k with
  | O => Built cur h
  | S k' =>
      match fetch value h with
      | None => BuiltUndefined
      | Some x =>
          if copy_throws x then
            match destruct_elements d_first cur h with
            | Some h' => Failed h'
            | None => BuiltUndefined
            end
          else
            match construct cur x h with
            | Some h' => uninitialized_fill_from d_first k' value (cur + 1) h'
            | None => BuiltUndefined
            end
      end
  end.

Definition uninitialized_fill (d_first : Z) (n : Z) (value : ref) (h : heap)
    : built :=
  uninitialized_fill_from d_first (Z.to_nat n) value d_first h.

(** The relocation loop of [expand_capacity] for nothrow-movable elements:
    each element is move-constructed into the slot at [new_free], which then
    advances. *)
Fixpoint move_construct_run (src : list T) (new_free : Z) (h : heap) : built :=
  match src with
  | [] => Built new_free h
  | x :: rest =>
      match construct new_free x h with
      | Some h' => move_construct_run rest (new_free + 1) h'
      | None => BuiltUndefined
      end
  end.

(** [std::move(first, last, d_first)]: move-assign forward. *)
Fixpoint move_run (n : nat) (src dst : Z) (h : heap) : option heap :=
  match n with
  | O => Some h
  | S n' =>
      match load src h with
      | Some x =>
          match assign dst x h with
          | Some h' => move_run n' (src + 1) (dst + 1) h'
          | None => None
          end
      | None => None
      end
  end.

Definition std_move (first last d_first : Z) (h : heap) : option (Z * heap) :=
  if first <=? last then
    match move_run (Z.to_nat (last - first)) first d_first h with
    | Some h' => Some (d_first + (last - first), h')
    | None => None
    end
  else None.

(** The shifting loop of [emplace]:
    [iter] runs from [start] down to [pos], each round move-assigning the left
    neighbour of [iter] into [iter]. *)
Fixpoint shift_run (n : nat) (iter : Z) (h : heap) : option heap :=
  match n with
  | O => Some h
  | S n' =>
      match load (iter - 1) h with
      | Some x =>
          match assign iter x h with
          | Some h' => shift_run n' (iter - 1) h'
          | None => None
          end
      | None => None
      end
  end.

Definition shift_right (start pos : Z) (h : heap) : option heap :=
  if pos <=? start then shift_run (Z.to_nat (start - pos)) start h
  else None.

(** ** Member functions *)

Inductive outcome (A : Type) : Type :=
| Ok (a : A) (v : vector) (h : heap)
| Throw (e : exn) (v : vector) (h : heap)
| Undefined.

Arguments Ok {A} a v h.
Arguments Throw {A} e v h.
Arguments Undefined {A}.

(** A member function: the object [*this] and the storage go in, an outcome
    comes out. *)
Definition method (A : Type) : Type := vector -> heap -> outcome A.

Definition ret {A} (a : A) : method A := fun v h => Ok a v h.

Definition bind {A B} (m : method A) (k : A -> method B) : method B :=
  fun v h =>
    match m v h with
    | Ok a v' h' => k a v' h'
    | Throw e v' h' => Throw e v' h'
    | Undefined => Undefined
    end.

Definition throw {A} (e : exn) : method A := fun v h => Throw e v h.
Definition this : method vector := fun v h => Ok v v h.
Definition put (v' : vector) : method unit := fun _ h => Ok tt v' h.

Definition on_heap (f : heap -> option heap) : method unit :=
  fun v h =>
    match f h with
    | Some h' => Ok tt v h'
    | None => Undefined
    end.

Definition deref (p : Z) : method T :=
  fun v h =>
    match load p h with
    | Some x => Ok x v h
    | None => Undefined
    end.

Notation "x <- m ;; k" := (bind m (fun x => k))
  (at level 61, m at next level, right associativity).
Notation "m ;;; k" := (bind m (fun _ => k))
  (at level 61, right associativity).

(** [clear()] *)
Definition clear : method unit :=
  v <- this ;;
  on_heap (destruct_elements (elem_ v) (free_ v)) ;;;
  put (set_free (elem_ v) v).

(** [clear_elements()], also the destructor. *)
Definition clear_elements : method unit :=
  v <- this ;;
  if elem_ v =? 0 then ret tt
  else
    on_heap (destruct_elements (elem_ v) (free_ v)) ;;;
    on_heap (deallocate (elem_ v) (capacity v)) ;;;
    put null_vector.

(** The common tail of both [create_elements]: the block at [new_elem] holds
    [n] slots and [b] is what filling it gave. *)
Definition adopt (new_elem n : Z) (b : built) : method unit :=
  fun v h =>
    match b with
    | Built new_free h' => Ok tt (mkvector new_elem new_free new_free) h'
    | Failed h' =>
        match deallocate new_elem n h' with
        | Some h'' => Throw CopyFailure v h''
        | None => Undefined
        end
    | BuiltUndefined => Undefined
    end.

(** [create_elements(n, value)] *)
Definition create_elements_fill (n : Z) (value : ref) : method unit :=
  fun v h =>
    let (new_elem, h1) := allocate n h in
    adopt new_elem n (uninitialized_fill new_elem n value h1) v h1.

(** [create_elements(first, last)] *)
Definition create_elements (src : list T) : method unit :=
  fun v h =>
    match src with
    | [] => Ok tt v h
    | _ =>
        let n := Z.of_nat (length src) in
        let (new_elem, h1) := allocate n h in
        adopt new_elem n (uninitialized_copy src new_elem h1) v h1
    end.

(** Constructors build a fresh object. *)
Definition vector_fill (n : Z) (value : ref) (h : heap) : outcome unit :=
  create_elements_fill n value null_vector h.

Definition vector_of (values : list T) (h : heap) : outcome unit :=
  create_elements values null_vector h.

Definition vector_copy (other : vector) (h : heap) : outcome unit :=
  match read_range (cbegin other) (cend other) h with
  | Some src => create_elements src null_vector h
  | None => Undefined
  end.

(** [operator=(const vector &other)]: [auto copy = other; swap(copy);], then
    the destructor of [copy] runs on what used to be [*this]. *)
Definition copy_assign (other : vector) : method unit :=
  fun v h =>
    match vector_copy other h with
    | Ok _ copy h1 =>
        match clear_elements v h1 with
        | Ok _ _ h2 => Ok tt copy h2
        | Throw e _ h2 => Throw e copy h2
        | Undefined => Undefined
        end
    | Throw e _ h1 => Throw e v h1
    | Undefined => Undefined
    end.

(** [expand_capacity(new_capacity)] *)
Definition expand_capacity (new_capacity : Z) : method unit :=
  v <- this ;;
  if new_capacity <=? capacity v then ret tt
  else
    fun _ h =>
      let (new_elem, h1) := allocate new_capacity h in
      match read_range (elem_ v) (free_ v) h1 with
      | None => Undefined
      | Some src =>
          let b := if nothrow_move_constructible
                   then move_construct_run src new_elem h1
                   else uninitialized_copy src new_elem h1 in
          match b with
          | Built new_free h2 =>
              (clear_elements ;;;
               put (mkvector new_elem new_free (new_elem + new_capacity))) v h2
          | Failed h2 =>
              match deallocate new_elem new_capacity h2 with
              | Some h3 => Throw CopyFailure v h3
              | None => Undefined
              end
          | BuiltUndefined => Undefined
          end
      end.

(** [reserve(n)] *)
Definition reserve (n : Z) : method unit := expand_capacity n.

(** [check_expand_capacity()] *)
Definition check_expand_capacity : method unit :=
  v <- this ;;
  if free_ v =? last_ v then
    expand_capacity (if empty v then FIRST_EXPAND_CAPACITY
                     else wrap (size v * EXPAND_RATE))
  else ret tt.

(** Reading an argument when the callee gets to it. *)
Definition deref_arg (r : ref) : method T :=
  fun v h =>
    match fetch r h with
    | Some x => Ok x v h
    | None => Undefined
    end.

(** [value_type(args...)]: the value the constructor produces from its
    arguments, read at this moment. *)
Definition make (a : ctor_args) : method T :=
  match a with
  | CopyOf r =>
      x <- deref_arg r ;;
      if copy_throws x then throw CopyFailure else ret x
  | MoveOf r => deref_arg r
  end.

(** [push_back(const value_type &)]: [free_++] is evaluated before the copy
    constructor reads [value] and runs. *)
Definition push_back (value : ref) : method unit :=
  check_expand_capacity ;;;
  v <- this ;;
  put (set_free (free_ v + 1) v) ;;;
  x <- make (CopyOf value) ;;
  on_heap (construct (free_ v) x).

(** [push_back(value_type &&)] *)
Definition push_back_move (value : ref) : method unit :=
  check_expand_capacity ;;;
  v <- this ;;
  x <- make (MoveOf value) ;;
  on_heap (construct (free_ v) x) ;;;
  put (set_free (free_ v + 1) v).

(** [operator[](n)] *)
Definition subscript (n : Z) : method T :=
  v <- this ;;
  if n <? size v then deref (elem_ v + n)
  else throw OutOfRange.

(** [operator[](n) const] *)
Definition subscript_const (n : Z) : method T := subscript n.

(** [at(n)] *)
Definition at_ (n : Z) : method T :=
  v <- this ;;
  if n <? size v then deref (elem_ v + n)
  else throw OutOfRange.

(** [front()] *)
Definition front : method T :=
  v <- this ;;
  if negb (elem_ v =? 0) then deref (begin_ v)
  else throw LengthError.

(** [back()]: [*rbegin()] is [*(free_ - 1)]. *)
Definition back : method T :=
  v <- this ;;
  if negb (elem_ v =? 0) then deref (free_ v - 1)
  else throw LengthError.

(** [pop_back()] *)
Definition pop_back : method unit :=
  v <- this ;;
  (if negb (empty v) then
     put (set_free (free_ v - 1) v) ;;;
     on_heap (destroy (free_ v - 1))
   else ret tt) ;;;
  throw LengthError.

(** [emplace(position, args...)].  The arguments are used last: in the
    appending branch when the element is constructed, otherwise after the
    elements from [pos] on have been shifted. *)
Definition emplace (position : Z) (args : ctor_args) : method Z :=
  v0 <- this ;;
  if (position <? cbegin v0) || (position >? cend v0) then throw OutOfRange
  else
    let diff := position - cbegin v0 in
    check_expand_capacity ;;;
    v <- this ;;
    let pos := elem_ v + diff in
    if pos =? cend v then
      put (set_free (free_ v + 1) v) ;;;
      x <- make args ;;
      on_heap (construct (free_ v) x) ;;;
      ret (free_ v + 1 - 1)
    else
      y <- deref (free_ v - 1) ;;
      on_heap (construct (free_ v) y) ;;;
      put (set_free (free_ v + 1) v) ;;;
      on_heap (shift_right (free_ v + 1 - 2) pos) ;;;
      x <- make args ;;
      on_heap (assign pos x) ;;;
      ret pos.

(** [insert(position, value_type &&)] *)
Definition insert_move (position : Z) (value : ref) : method Z :=
  emplace position (MoveOf value).

(** [insert(position, const value_type &)]: [auto copy = value] first, then
    the local [copy] is passed on as an rvalue. *)
Definition insert (position : Z) (value : ref) : method Z :=
  copy <- make (CopyOf value) ;;
  insert_move position (Outside copy).

(** The loop of [insert(position, n, value)]: every round passes the
    reference [value] to [insert] again. *)
Fixpoint insert_loop (k : nat) (pos : Z) (value : ref) : method Z :=
  match k with
  | O => ret pos
  | S k' => pos' <- insert pos value ;; insert_loop k' pos' value
  end.

(** [insert(position, n, value)] *)
Definition insert_n (position : Z) (n : Z) (value : ref) : method Z :=
  if n =? 0 then ret position
  else insert_loop (Z.to_nat n) position value.

(** [erase(position)] *)
Definition erase (position : Z) : method Z :=
  v <- this ;;
  if (position <? cbegin v) || (position >=? cend v) then throw OutOfRange
  else
    (if negb (position + 1 =? cend v) then
       on_heap (fun h => option_map snd (std_move (position + 1) (cend v) position h))
     else ret tt) ;;;
    put (set_free (free_ v - 1) v) ;;;
    on_heap (destroy (free_ v - 1)) ;;;
    ret position.

(** [erase(first, last)] *)
Definition erase_range (first last : Z) : method Z :=
  v <- this ;;
  if negb ((first >=? cbegin v) && (last <=? cend v)) then throw OutOfRange
  else
    fun _ h =>
      match std_move last (free_ v) first h with
      | Some (iter, h1) =>
          (on_heap (destruct_elements iter (free_ v)) ;;;
           put (set_free iter v) ;;;
           ret first) v h1
      | None => Undefined
      end.

(** [resize(new_size, value)] *)
Definition resize (new_size : Z) (value : ref) : method unit :=
  v <- this ;;
  if new_size <? size v then
    erase_range (begin_ v + new_size) (end_ v) ;;; ret tt
  else if new_size >? size v then
    insert_n (end_ v) (wrap (size v - new_size)) value ;;; ret tt
  else ret tt.

(** [emplace_back(args...)]: [free_++] is evaluated before the constructor
    reads its arguments and runs. *)
Definition emplace_back (args : ctor_args) : method unit :=
  check_expand_capacity ;;;
  v <- this ;;
  put (set_free (free_ v + 1) v) ;;;
  x <- make args ;;
  on_heap (construct (free_ v) x).

(** [assign(first, last)] and [assign(std::initializer_list)], the range given
    by the values it yields (a range outside the container). *)
Definition assign_range (src : list T) : method unit :=
  clear_elements ;;;
  create_elements src.

(** [assign(n, value)]: [value] is read while the new block is filled, after
    the old one has been released. *)
Definition assign_fill (n : Z) (value : ref) : method unit :=
  clear_elements ;;;
  create_elements_fill n value.

(** [swap(other)]: the three pointers change places.  The result is the pair
    of [*this] and [other] afterwards. *)
Definition swap (v other : vector) : vector * vector :=
  (mkvector (elem_ other) (free_ other) (last_ other),
   mkvector (elem_ v) (free_ v) (last_ v)).

(** [vector(vector &&other)]: a fresh object swapped with [other]; the
    result is the new object and [other] afterwards. *)
Definition vector_move (other : vector) : vector * vector :=
  swap null_vector other.

(** [operator=(vector &&other)].  [same_object] tells whether [other] is
    [*this]; the value returned is [other] afterwards. *)
Definition move_assign (same_object : bool) (other : vector) : method vector :=
  if same_object then this
  else
    clear_elements ;;;
    v <- this ;;
    put (fst (swap v other)) ;;;
    ret (snd (swap v other)).

(** [shrink_to_fit()]: [auto other = *this; swap(other);], then the destructor
    of [other] runs on what used to be [*this]. *)
Definition shrink_to_fit : method unit :=
  fun v h =>
    match vector_copy v h with
    | Ok _ other h1 =>
        match clear_elements (snd (swap v other)) h1 with
        | Ok _ _ h2 => Ok tt (fst (swap v other)) h2
        | Throw e _ h2 => Throw e (fst (swap v other)) h2
        | Undefined => Undefined
        end
    | Throw e _ h1 => Throw e v h1
    | Undefined => Undefined
    end.

(** The loop of [insert(position, first, last)]:
    [pos = insert(pos, *iter); ++pos;] for each value of the range, the range
    being outside the storage. *)
Fixpoint insert_each (src : list T) (pos : Z) : method Z :=
  match src with
  | [] => ret pos
  | x :: rest => p <- insert pos (Outside x) ;; insert_each rest (p + 1)
  end.

(** [insert(position, first, last)] and
    [insert(position, std::initializer_list)], the range given by the values
    it yields (a range outside the container). *)
Definition insert_range (position : Z) (src : list T) : method Z :=
  match src with
  | [] => ret position
  | _ =>
      p <- insert_each src position ;;
      ret (p - Z.of_nat (length src))
  end.

(** ** Observations *)

(** What a caller sees of a container: the values of [[begin(), end())]. *)
Definition contents (v : vector) (h : heap) : option (list T) :=
  read_range (begin_ v) (end_ v) h.

(** ** Vocabulary of the specifications *)

Local Abbreviation len l := (Z.of_nat (length l)).

(** The slots from [p] on hold the values of [l], in order. *)
Definition live_at (h : heap) (p : Z) (l : list T) : Prop :=
  forall i x, nth_error l i = Some x -> cells h (p + Z.of_nat i) = Live x.

(** The [n] slots from [p] on are allocated and hold no object. *)
Definition raw_at (h : heap) (p n : Z) : Prop :=
  forall q, p <= q < p + n -> cells h q = Uninit.

(** Copying never throws on the values of [l]. *)
Definition copyable (l : list T) : Prop :=
  Forall (fun x => copy_throws x = false) l.

(** Moving the values of [l] to a new block cannot fail: either the element
    type is nothrow-movable, or copying them does not throw. *)
Definition relocatable (l : list T) : Prop :=
  if nothrow_move_constructible then True else copyable l.

(** ** The representation invariant

    [repr v h l c]: in storage [h] the object [v] is a container holding the
    values [l], in order, in a block of [c] slots.  A container either owns no
    block (all three pointers null) or exactly one block handed out by the
    allocator, with [elem_ <= free_ <= last_], live elements in
    [[elem_, free_)] and raw slots in [[free_, last_)]. *)
Record repr (v : vector) (h : heap) (l : list T) (c : Z) : Prop := mkrepr {
  repr_fits : len l <= c;
  repr_bound : c < size_max;
  repr_elem : 0 <= elem_ v;
  repr_free : free_ v = elem_ v + len l;
  repr_last : last_ v = elem_ v + c;
  repr_null : elem_ v = 0 -> c = 0;
  repr_block : elem_ v <> 0 -> blocks h (elem_ v) = Some c;
  repr_brk : elem_ v + c < brk h;
  repr_live : live_at h (elem_ v) l;
  repr_raw : raw_at h (elem_ v + len l) (c - len l)
}.

(** The capacity an append leaves behind when it finds [s] elements in a
    block of [c] slots: the block is replaced only when it is full, by one of
    [FIRST_EXPAND_CAPACITY] slots if the container is empty and of
    [s * EXPAND_RATE] slots otherwise. *)
Definition grown (s c : Z) : Z :=
  if s =? c then (if s =? 0 then FIRST_EXPAND_CAPACITY else s * EXPAND_RATE)
  else c.

(** [push_back] for each value of [xs] in turn, the values being objects
    outside the storage. *)
Fixpoint push_all (xs : list T) : method unit :=
  match xs with
  | [] => ret tt
  | x :: rest => push_back (Outside x) ;;; push_all rest
  end.

(** The capacity after [k] more appends to a container of [s] elements in a
    block of [c] slots. *)
Fixpoint grow_n (k : nat) (s c : Z) : Z :=
  match k with
  | O => c
  | S k' => grow_n k' (s + 1) (grown s c)
  end.

(** The capacity after [n] appends to a default-constructed container. *)
Definition capacity_after (n : nat) : Z := grow_n n 0 0.

(** Storage consisting of a single block of [c] slots at [base] whose first
    slots hold the values [l]. *)
Definition block_heap (base : Z) (l : list T) (c : Z) : heap :=
  mkheap
    (fun q =>
       if in_range base c q then
         match nth_error l (Z.to_nat (q - base)) with
         | Some x => Live x
         | None => Uninit
         end
       else Unalloc)
    (fun q => if q =? base then Some c else None)
    (base + c + 1).

(** The container that owns the block of [block_heap]. *)
Definition block_vector (base : Z) (l : list T) (c : Z) : vector :=
  mkvector base (base + len l) (base + c).

(** Going from [h] to [h'] left alone everything that existed in [h] outside
    the block of [c] slots at [elem_ v]: the slots, and the allocator's record
    of the other blocks. *)
Definition untouched_outside (v : vector) (c : Z) (h h' : heap) : Prop :=
  (forall q, q < brk h -> ~ (elem_ v <= q < elem_ v + c) ->
             cells h' q = cells h q) /\
  (forall q, q < brk h -> q <> elem_ v -> blocks h' q = blocks h q) /\
  brk h <= brk h'.

(** The container [w] with [c'] slots owns no block or a block other than the
    one of [c] slots of [v]. *)
Definition apart (v : vector) (c : Z) (w : vector) (c' : Z) : Prop :=
  elem_ w = 0 \/ elem_ w + c' < elem_ v \/ elem_ v + c < elem_ w.

(** The reference [r] designates an object of value [x] that exists in [h]
    and is not in the block of [c] slots of [v]. *)
Definition reads_apart (v : vector) (c : Z) (r : ref) (h : heap) (x : T)
    : Prop :=
  match r with
  | Outside y => y = x
  | Inside p =>
      p < brk h /\ cells h p = Live x /\ ~ (elem_ v <= p < elem_ v + c)
  end.

(** The reference [r] designates an object of value [x] that an append to
    [v] can still read after making room: it is not in the block of [v], or
    the block has room and will not be replaced. *)
Definition reads_for_append (v : vector) (l : list T) (c : Z) (r : ref)
    (h : heap) (x : T) : Prop :=
  reads_apart v c r h x \/ (len l < c /\ fetch r h = Some x).

(** The reference an argument list holds. *)
Definition arg_ref (a : ctor_args) : ref :=
  match a with
  | CopyOf r => r
  | MoveOf r => r
  end.

(** Constructing from the value [x] with the arguments [a] does not throw. *)
Definition builds (a : ctor_args) (x : T) : Prop :=
  match a with
  | CopyOf _ => copy_throws x = false
  | MoveOf _ => True
  end.

(** The block of [c'] slots of [v'] is the block of [c] slots of [v], or
    storage that did not exist in [h]. *)
Definition same_or_fresh (v : vector) (c : Z) (h : heap) (v' : vector) (c' : Z)
    : Prop :=
  (elem_ v' = elem_ v /\ c' = c) \/ brk h <= elem_ v'.

(** ** Reasoning about storage *)

Lemma in_range_true p n q : in_range p n q = true <-> p <= q < p + n.
Proof. unfold in_range. rewrite andb_true_iff, Z.leb_le, Z.ltb_lt. tauto. Qed.

Lemma in_range_false p n q : in_range p n q = false <-> ~ (p <= q < p + n).
Proof. rewrite <- in_range_true. destruct (in_range p n q); intuition congruence. Qed.

Lemma live_at_nil h p : live_at h p [].
Proof. intros [|i] x E; discriminate. Qed.

Lemma live_at_cons h p x l :
  live_at h p (x :: l) <-> cells h p = Live x /\ live_at h (p + 1) l.
Proof.
  split.
  - intros L. split.
    + specialize (L O x eq_refl). now rewrite Z.add_0_r in L.
    + intros i y E. specialize (L (S i) y E).
      rewrite <- L. f_equal. lia.
  - intros [C L] [|i] y E; simpl in E.
    + injection E as <-. now rewrite Z.add_0_r.
    + rewrite <- (L i y E). f_equal. lia.
Qed.

Lemma live_at_app h p l1 l2 :
  live_at h p (l1 ++ l2) <-> live_at h p l1 /\ live_at h (p + len l1) l2.
Proof.
  revert p. induction l1 as [|x l1 IH]; intros p; simpl app.
  - simpl. rewrite Z.add_0_r. split; [intros L; split; [apply live_at_nil | exact L] | tauto].
  - rewrite !live_at_cons, IH.
    replace (p + 1 + len l1) with (p + len (x :: l1)) by (simpl length; lia).
    tauto.
Qed.

Lemma live_at_frame h h' p l :
  (forall q, p <= q < p + len l -> cells h' q = cells h q) ->
  live_at h p l -> live_at h' p l.
Proof.
  intros F L i x E. rewrite F; [now apply L|].
  assert (i < length l)%nat by (apply nth_error_Some; congruence). lia.
Qed.

Lemma raw_at_frame h h' p n :
  (forall q, p <= q < p + n -> cells h' q = cells h q) ->
  raw_at h p n -> raw_at h' p n.
Proof. intros F R q Hq. rewrite F by assumption. now apply R. Qed.

Lemma live_at_is_live h p l q :
  live_at h p l -> p <= q < p + len l -> exists y, cells h q = Live y.
Proof.
  intros L Hq.
  destruct (nth_error l (Z.to_nat (q - p))) as [y|] eqn:E.
  - exists y. rewrite <- (L _ _ E). f_equal. lia.
  - apply nth_error_None in E. lia.
Qed.

Lemma live_at_firstn h p l (n : nat) : live_at h p l -> live_at h p (firstn n l).
Proof.
  intros L. rewrite <- (firstn_skipn n l) in L.
  now apply live_at_app in L.
Qed.

Lemma live_at_skipn h p l (n : nat) :
  (n <= length l)%nat -> live_at h p l -> live_at h (p + Z.of_nat n) (skipn n l).
Proof.
  intros Hn L. rewrite <- (firstn_skipn n l) in L.
  apply live_at_app in L. destruct L as [_ L].
  now rewrite length_firstn, Nat.min_l in L by assumption.
Qed.

(** Reading a live range yields its values. *)
Lemma load_run_live h p l :
  live_at h p l -> load_run (length l) p h = Some l.
Proof.
  revert p. induction l as [|x l IH]; intros p L; simpl; [reflexivity|].
  apply live_at_cons in L. destruct L as [C L].
  unfold load. rewrite C, (IH _ L). reflexivity.
Qed.

Lemma load_run_sound h n p l :
  load_run n p h = Some l -> length l = n /\ live_at h p l.
Proof.
  revert p l. induction n as [|n IH]; intros p l; simpl.
  - intros [= <-]. split; [reflexivity | apply live_at_nil].
  - unfold load. destruct (cells h p) as [| |x] eqn:C; try discriminate.
    destruct (load_run n (p + 1) h) as [l'|] eqn:E; try discriminate.
    intros [= <-]. destruct (IH _ _ E) as [Hl L]. split; [simpl; congruence|].
    apply live_at_cons. auto.
Qed.

Lemma read_range_live h p q l :
  q = p + len l -> live_at h p l -> read_range p q h = Some l.
Proof.
  intros -> L. unfold read_range. zbool.
  replace (Z.to_nat (p + len l - p)) with (length l) by lia.
  now apply load_run_live.
Qed.

(** Destroying a live range leaves it raw and touches nothing else. *)
Lemma destroy_run_live h p l :
  live_at h p l ->
  exists h', destroy_run (length l) p h = Some h' /\
    (forall q, cells h' q = if in_range p (len l) q then Uninit else cells h q) /\
    blocks h' = blocks h /\ brk h' = brk h.
Proof.
  revert p h. induction l as [|x l IH]; intros p h L.
  - exists h. split; [reflexivity|]. split; [|auto].
    intros q. destruct (in_range p (len []) q) eqn:E; [|reflexivity].
    apply in_range_true in E. simpl in E. lia.
  - apply live_at_cons in L. destruct L as [C L].
    simpl destroy_run. unfold destroy. rewrite C.
    destruct (IH (p + 1) (store p Uninit h)) as (h' & E & Hc & Hb & Hk).
    { eapply live_at_frame; [|exact L]. intros q Hq. simpl. zbool. }
    exists h'. split; [exact E|]. split; [|auto].
    intros q. rewrite Hc. simpl cells.
    destruct (in_range (p + 1) (len l) q) eqn:E1;
      destruct (in_range p (len (x :: l)) q) eqn:E2; trivial;
      rewrite ?in_range_true, ?in_range_false in *; simpl length in *; zbool.
Qed.

Lemma destruct_elements_live h p q l :
  q = p + len l -> live_at h p l ->
  exists h', destruct_elements p q h = Some h' /\
    (forall r, cells h' r = if in_range p (len l) r then Uninit else cells h r) /\
    blocks h' = blocks h /\ brk h' = brk h.
Proof.
  intros -> L. unfold destruct_elements.
  destruct (Z.leb_spec p (p + len l)); [|lia].
  replace (Z.to_nat (p + len l - p)) with (length l) by lia.
  now apply destroy_run_live.
Qed.


(** Building objects in raw storage. *)
Lemma move_construct_run_raw src : forall cur h,
  raw_at h cur (len src) ->
  exists h', move_construct_run src cur h = Built (cur + len src) h' /\
    live_at h' cur src /\
    (forall q, ~ (cur <= q < cur + len src) -> cells h' q = cells h q) /\
    blocks h' = blocks h /\ brk h' = brk h.
Proof.
  induction src as [|x src IH]; intros cur h R.
  - exists h. simpl. rewrite Z.add_0_r. auto using live_at_nil.
  - simpl move_construct_run. unfold construct.
    rewrite (R cur) by (simpl length; lia).
    destruct (IH (cur + 1) (store cur (Live x) h)) as (h' & E & L & F & Hb & Hk).
    { intros q Hq. simpl. destruct (Z.eqb_spec q cur); [lia|].
      apply R. simpl length. lia. }
    exists h'. rewrite E. split; [f_equal; simpl length; lia|].
    split; [|split]; [| |auto].
    + apply live_at_cons. split; [|exact L].
      rewrite F by lia. simpl. now rewrite Z.eqb_refl.
    + intros q Hq. simpl length in Hq. rewrite F by lia. simpl.
      destruct (Z.eqb_spec q cur); [lia | reflexivity].
Qed.

Lemma uninitialized_copy_from_raw d_first src : forall cur h,
  copyable src -> raw_at h cur (len src) ->
  exists h', uninitialized_copy_from d_first src cur h = Built (cur + len src) h' /\
    live_at h' cur src /\
    (forall q, ~ (cur <= q < cur + len src) -> cells h' q = cells h q) /\
    blocks h' = blocks h /\ brk h' = brk h.
Proof.
  induction src as [|x src IH]; intros cur h C R.
  - exists h. simpl. rewrite Z.add_0_r. auto using live_at_nil.
  - inversion C as [|? ? Cx C']; subst.
    simpl uninitialized_copy_from. rewrite Cx. unfold construct.
    rewrite (R cur) by (simpl length; lia).
    destruct (IH (cur + 1) (store cur (Live x) h) C') as (h' & E & L & F & Hb & Hk).
    { intros q Hq. simpl. destruct (Z.eqb_spec q cur); [lia|].
      apply R. simpl length. lia. }
    exists h'. rewrite E. split; [f_equal; simpl length; lia|].
    split; [|split]; [| |auto].
    + apply live_at_cons. split; [|exact L].
      rewrite F by lia. simpl. now rewrite Z.eqb_refl.
    + intros q Hq. simpl length in Hq. rewrite F by lia. simpl.
      destruct (Z.eqb_spec q cur); [lia | reflexivity].
Qed.

(** A copy constructor that throws part-way: what was built is destroyed
    again, and every slot is as it was. *)
Lemma uninitialized_copy_from_throws d_first l1 x l2 : forall cur h l0,
  cur = d_first + len l0 -> live_at h d_first l0 ->
  raw_at h cur (len l1) -> copyable l1 -> copy_throws x = true ->
  exists h', uninitialized_copy_from d_first (l1 ++ x :: l2) cur h = Failed h' /\
    (forall q, cells h' q =
       if in_range d_first (len l0 + len l1) q then Uninit else cells h q) /\
    blocks h' = blocks h /\ brk h' = brk h.
Proof.
  induction l1 as [|y l1 IH]; intros cur h l0 -> L R C Cx.
  - simpl app. simpl uninitialized_copy_from. rewrite Cx.
    destruct (destruct_elements_live h d_first (d_first + len l0) l0 eq_refl L)
      as (h' & E & Hc & Hb & Hk).
    exists h'. rewrite E. split; [reflexivity|]. split; [|auto].
    intros q. rewrite Hc. simpl length. now rewrite Z.add_0_r.
  - inversion C as [|? ? Cy C']; subst.
    simpl app. simpl uninitialized_copy_from. rewrite Cy. unfold construct.
    rewrite (R (d_first + len l0)) by (simpl length; lia).
    set (h1 := store (d_first + len l0) (Live y) h).
    destruct (IH (d_first + len l0 + 1) h1 (l0 ++ [y])) as (h' & E & Hc & Hb & Hk);
      trivial.
    { rewrite length_app. simpl length. lia. }
    { apply live_at_app. split.
      - eapply live_at_frame; [|exact L]. intros q Hq. subst h1. simpl. zbool.
      - apply live_at_cons. split; [|apply live_at_nil]. subst h1. simpl.
        now rewrite Z.eqb_refl. }
    { intros q Hq. subst h1. simpl. destruct (Z.eqb_spec q (d_first + len l0)); [lia|].
      apply R. simpl length. lia. }
    exists h'. rewrite E. split; [reflexivity|]. split; [|auto].
    intros q. rewrite Hc. rewrite length_app. simpl length.
    replace (len l0 + Z.of_nat (S (length l1)))
      with (Z.of_nat (length l0 + 1) + len l1) by lia.
    destruct (in_range d_first (Z.of_nat (length l0 + 1) + len l1) q) eqn:E1;
      [reflexivity|].
    apply in_range_false in E1. subst h1. simpl. zbool.
Qed.

(** [std::move] towards the front: the values of [[src, src + n)] end up in
    [[dst, dst + n)], for [dst <= src]. *)
Lemma move_run_left l : forall src dst h,
  dst <= src -> live_at h src l ->
  (forall q, dst <= q < src -> exists y, cells h q = Live y) ->
  exists h', move_run (length l) src dst h = Some h' /\
    live_at h' dst l /\
    (forall q, ~ (dst <= q < dst + len l) -> cells h' q = cells h q) /\
    blocks h' = blocks h /\ brk h' = brk h.
Proof.
  induction l as [|x l IH]; intros src dst h Hle L D.
  - exists h. simpl. auto using live_at_nil.
  - apply live_at_cons in L. destruct L as [Cx L].
    simpl move_run. unfold load, assign. rewrite Cx.
    assert (exists y, cells h dst = Live y) as [y Cy].
    { destruct (Z.eq_dec dst src) as [->|]; [eauto | apply D; lia]. }
    rewrite Cy.
    set (h1 := store dst (Live x) h).
    destruct (IH (src + 1) (dst + 1) h1) as (h' & E & L' & F & Hb & Hk).
    { lia. }
    { eapply live_at_frame; [|exact L]. intros q Hq. subst h1. simpl. zbool. }
    { intros q Hq. subst h1. simpl. destruct (Z.eqb_spec q dst); [lia|].
      destruct (Z.eq_dec q src) as [->|]; [eauto | apply D; lia]. }
    exists h'. split; [exact E|]. split; [|split]; [| |auto].
    + apply live_at_cons. split; [|exact L'].
      rewrite F by lia. subst h1. simpl. now rewrite Z.eqb_refl.
    + intros q Hq. simpl length in Hq. rewrite F by lia. subst h1. simpl.
      destruct (Z.eqb_spec q dst); [lia | reflexivity].
Qed.

(** The shifting loop of [emplace]: the values of [[pos, start)] end up in
    [[pos + 1, start + 1)]. *)
Lemma shift_run_right m : forall pos h,
  live_at h pos m ->
  (exists y, cells h (pos + len m) = Live y) ->
  exists h', shift_run (length m) (pos + len m) h = Some h' /\
    live_at h' (pos + 1) m /\
    (forall q, ~ (pos + 1 <= q < pos + 1 + len m) -> cells h' q = cells h q) /\
    blocks h' = blocks h /\ brk h' = brk h.
Proof.
  induction m as [|x m IH] using rev_ind; intros pos h L [y Cy].
  - exists h. simpl. auto using live_at_nil.
  - apply live_at_app in L. destruct L as [L Lx].
    apply live_at_cons in Lx. destruct Lx as [Cx _].
    rewrite length_app in *. simpl length in *.
    replace (length m + 1)%nat with (S (length m)) in * by lia.
    remember (pos + Z.of_nat (S (length m))) as top eqn:Etop.
    cbn [shift_run]. unfold load, assign.
    replace (top - 1) with (pos + len m) by lia.
    rewrite Cx, Cy.
    set (h1 := store top (Live x) h).
    destruct (IH pos h1) as (h' & E & L' & F & Hb & Hk).
    { eapply live_at_frame; [|exact L]. intros q Hq. subst h1. simpl. zbool. }
    { exists x. subst h1. simpl.
      destruct (Z.eqb_spec (pos + len m) top); [lia | exact Cx]. }
    exists h'. split; [exact E|]. split; [|split]; [| |auto].
    + apply live_at_app. split; [exact L'|].
      apply live_at_cons. split; [|apply live_at_nil].
      rewrite F by lia. subst h1. simpl.
      destruct (Z.eqb_spec (pos + 1 + len m) top); [reflexivity | lia].
    + intros q Hq. rewrite F by lia. subst h1. simpl.
      destruct (Z.eqb_spec q top); [lia | reflexivity].
Qed.

Lemma size_max_val : size_max = 18446744073709551616.
Proof. reflexivity. Qed.

Lemma wrap_small z : 0 <= z < size_max -> wrap z = z.
Proof. intros. unfold wrap. now apply Z.mod_small. Qed.

Lemma wrap_range z : 0 <= wrap z < size_max.
Proof. unfold wrap. apply Z.mod_pos_bound. rewrite size_max_val. lia. Qed.

Lemma repr_size v h l c : repr v h l c -> size v = len l.
Proof.
  intros R. unfold size. rewrite (repr_free _ _ _ _ R).
  replace (elem_ v + len l - elem_ v) with (len l) by lia.
  apply wrap_small. destruct R. lia.
Qed.

Lemma repr_capacity v h l c : repr v h l c -> capacity v = c.
Proof.
  intros R. unfold capacity. rewrite (repr_last _ _ _ _ R).
  replace (elem_ v + c - elem_ v) with c by lia.
  apply wrap_small. destruct R. lia.
Qed.

Lemma repr_empty v h l c : repr v h l c -> empty v = (len l =? 0).
Proof.
  intros R. unfold empty. rewrite (repr_free _ _ _ _ R). zbool.
Qed.

Lemma repr_contents v h l c : repr v h l c -> contents v h = Some l.
Proof.
  intros R. unfold contents, begin_, end_.
  apply read_range_live; [apply R | apply R].
Qed.

(** The invariant only looks at the container's own block. *)
Lemma repr_frame v h h' l c :
  (forall q, elem_ v <= q < elem_ v + c -> cells h' q = cells h q) ->
  (elem_ v <> 0 -> blocks h' (elem_ v) = blocks h (elem_ v)) ->
  brk h <= brk h' ->
  repr v h l c -> repr v h' l c.
Proof.
  intros F B K R. destruct R.
  constructor; trivial.
  - intros E. rewrite B by assumption. auto.
  - lia.
  - eapply live_at_frame; [|eassumption]. intros; apply F; lia.
  - eapply raw_at_frame; [|eassumption]. intros; apply F; lia.
Qed.

Lemma repr_null_vector h : 0 < brk h -> repr null_vector h [] 0.
Proof.
  intros K. constructor; simpl; try lia; try reflexivity.
  - apply live_at_nil.
  - intros q Hq. lia.
Qed.

(** [clear()] destroys the elements and keeps the block. *)
Lemma clear_spec v h l c :
  repr v h l c ->
  exists h', clear v h = Ok tt (set_free (elem_ v) v) h' /\
    repr (set_free (elem_ v) v) h' [] c /\
    blocks h' = blocks h /\ brk h' = brk h.
Proof.
  intros R.
  destruct (destruct_elements_live h (elem_ v) (free_ v) l) as (h' & E & Hc & Hb & Hk).
  { apply R. } { apply R. }
  exists h'. unfold clear, bind, this, on_heap, put. rewrite E.
  split; [reflexivity|]. split; [|auto].
  destruct R. constructor; simpl; trivial; try lia.
  - rewrite Hb. assumption.
  - apply live_at_nil.
  - intros q Hq. simpl in Hq. rewrite Hc.
    destruct (in_range (elem_ v) (len l) q) eqn:E1; [reflexivity|].
    apply in_range_false in E1. apply repr_raw0. lia.
Qed.

(** [clear_elements()] destroys the elements and releases the block. *)
Lemma clear_elements_spec v h l c :
  repr v h l c ->
  exists h', clear_elements v h = Ok tt null_vector h' /\
    (forall q, ~ (elem_ v <= q < elem_ v + c) -> cells h' q = cells h q) /\
    (forall q, q <> elem_ v -> blocks h' q = blocks h q) /\
    brk h' = brk h.
Proof.
  intros R. unfold clear_elements, bind, this.
  destruct (Z.eqb_spec (elem_ v) 0) as [E0|E0].
  - exists h. unfold ret. split; [|auto].
    destruct v as [e f t]. destruct R. simpl in *.
    pose proof (repr_null0 E0). unfold null_vector.
    replace e with 0 by lia. replace f with 0 by lia. replace t with 0 by lia.
    reflexivity.
  - destruct (destruct_elements_live h (elem_ v) (free_ v) l) as (h1 & E & Hc & Hb & Hk).
    { apply R. } { apply R. }
    unfold on_heap, put. rewrite E. cbv beta iota. unfold deallocate.
    rewrite Hb, (repr_capacity _ _ _ _ R), (repr_block _ _ _ _ R E0), Z.eqb_refl.
    eexists. split; [reflexivity|]. simpl.
    split; [|split]; [| |assumption].
    + intros q Hq. destruct (in_range (elem_ v) c q) eqn:E1.
      { apply in_range_true in E1. lia. }
      rewrite Hc. destruct (in_range (elem_ v) (len l) q) eqn:E2; [|reflexivity].
      apply in_range_true in E2. destruct R. lia.
    + intros q Hq. destruct (Z.eqb_spec q (elem_ v)); congruence.
Qed.

Lemma first_throwing (l : list T) :
  Exists (fun x => copy_throws x = true) l ->
  exists l1 x l2, l = l1 ++ x :: l2 /\ copyable l1 /\ copy_throws x = true.
Proof.
  induction l as [|y l IH]; intros E; [inversion E|].
  destruct (copy_throws y) eqn:Cy.
  - exists [], y, l. repeat split; trivial. constructor.
  - inversion E as [? ? Hy | ? ? E']; subst; [congruence|].
    destruct (IH E') as (l1 & x & l2 & -> & C & Cx).
    exists (y :: l1), x, l2. repeat split; trivial. now constructor.
Qed.

(** The storage right after [allocate(n)], seen from a container that was
    there before. *)
Lemma repr_allocate v h l c n :
  0 <= n -> repr v h l c -> repr v (snd (allocate n h)) l c.
Proof.
  intros Hn R. apply (repr_frame v h); trivial; simpl.
  - intros q Hq. destruct (in_range (brk h) n q) eqn:E; [|reflexivity].
    apply in_range_true in E. destruct R. lia.
  - intros _. destruct (Z.eqb_spec (elem_ v) (brk h)); [|reflexivity].
    destruct R. lia.
  - destruct R. lia.
Qed.

(** [expand_capacity] when it has to grow and relocation does not fail: the
    elements move to a fresh block of exactly [n] slots. *)
Lemma expand_capacity_grows v h l c n :
  repr v h l c -> c < n < size_max -> relocatable l ->
  exists h',
    expand_capacity n v h
      = Ok tt (mkvector (brk h) (brk h + len l) (brk h + n)) h' /\
    repr (mkvector (brk h) (brk h + len l) (brk h + n)) h' l n /\
    brk h' = brk h + n + 1.
Proof.
  intros R Hn Hrel.
  assert (R1 : repr v (snd (allocate n h)) l c)
    by (apply repr_allocate; [destruct R; lia | exact R]).
  unfold expand_capacity, bind, this.
  rewrite (repr_capacity _ _ _ _ R).
  destruct (Z.leb_spec n c) as [|_]; [lia|].
  unfold allocate in *. simpl snd in R1.
  set (h1 := mkheap _ _ _) in *.
  rewrite (read_range_live h1 (elem_ v) (free_ v) l) by apply R1.
  assert (Hraw : raw_at h1 (brk h) (len l)).
  { intros q Hq. subst h1. simpl.
    destruct (in_range (brk h) n q) eqn:E; [reflexivity|].
    apply in_range_false in E. destruct R. lia. }
  assert (exists h2,
    (if nothrow_move_constructible
     then move_construct_run l (brk h) h1
     else uninitialized_copy l (brk h) h1) = Built (brk h + len l) h2 /\
    live_at h2 (brk h) l /\
    (forall q, ~ (brk h <= q < brk h + len l) -> cells h2 q = cells h1 q) /\
    blocks h2 = blocks h1 /\ brk h2 = brk h1) as (h2 & E & L2 & F2 & B2 & K2).
  { unfold relocatable in Hrel. destruct nothrow_move_constructible.
    - now apply move_construct_run_raw.
    - now apply uninitialized_copy_from_raw. }
  rewrite E.
  assert (R2 : repr v h2 l c).
  { apply (repr_frame v h1); trivial.
    - intros q Hq. apply F2. destruct R. lia.
    - intros _. now rewrite B2.
    - lia. }
  destruct (clear_elements_spec v h2 l c R2) as (h3 & E3 & F3 & B3 & K3).
  rewrite E3. unfold put. exists h3. split; [reflexivity|].
  assert (Hout : forall q, brk h <= q -> ~ (elem_ v <= q < elem_ v + c)).
  { intros q Hq. destruct R. lia. }
  split; [|rewrite K3, K2; reflexivity].
  constructor; simpl.
  - destruct R. lia.
  - lia.
  - destruct R. lia.
  - reflexivity.
  - reflexivity.
  - destruct R. lia.
  - intros _. rewrite B3, B2 by (destruct R; lia). subst h1. simpl.
    now rewrite Z.eqb_refl.
  - rewrite K3, K2. subst h1. simpl. lia.
  - eapply live_at_frame; [|exact L2]. intros q Hq. apply F3, Hout. lia.
  - intros q Hq. rewrite F3 by (apply Hout; lia). rewrite F2 by lia.
    subst h1. simpl.
    destruct (in_range (brk h) n q) eqn:E1; [reflexivity|].
    apply in_range_false in E1. lia.
Qed.

(** [expand_capacity] when it has to grow and a copy constructor throws. *)
Lemma expand_capacity_throws v h l c n :
  repr v h l c -> c < n < size_max ->
  nothrow_move_constructible = false ->
  Exists (fun x => copy_throws x = true) l ->
  exists h',
    expand_capacity n v h = Throw CopyFailure v h' /\
    (forall q, cells h' q = if in_range (brk h) n q then Unalloc else cells h q) /\
    (forall q, blocks h' q = if q =? brk h then None else blocks h q) /\
    brk h' = brk h + n + 1.
Proof.
  intros R Hn Hmv Hex.
  destruct (first_throwing l Hex) as (l1 & x & l2 & El & C1 & Cx).
  assert (R1 : repr v (snd (allocate n h)) l c)
    by (apply repr_allocate; [destruct R; lia | exact R]).
  unfold expand_capacity, bind, this.
  rewrite (repr_capacity _ _ _ _ R).
  destruct (Z.leb_spec n c) as [|_]; [lia|].
  unfold allocate in *. simpl snd in R1.
  set (h1 := mkheap _ _ _) in *.
  rewrite (read_range_live h1 (elem_ v) (free_ v) l) by apply R1.
  rewrite Hmv. unfold uninitialized_copy. rewrite El.
  destruct (uninitialized_copy_from_throws (brk h) l1 x l2 (brk h) h1 [])
    as (h2 & E & F2 & B2 & K2); trivial.
  { simpl. lia. }
  { apply live_at_nil. }
  { intros q Hq. subst h1. simpl.
    destruct (in_range (brk h) n q) eqn:E; [reflexivity|].
    apply in_range_false in E. destruct R.
    subst l. rewrite length_app in *. simpl length in *. lia. }
  rewrite E. unfold deallocate. rewrite B2. subst h1. simpl.
  rewrite !Z.eqb_refl. eexists. split; [reflexivity|]. simpl.
  split; [|split]; [| |rewrite K2; reflexivity].
  2: { intros q. destruct (q =? brk h); reflexivity. }
  intros q. destruct (in_range (brk h) n q) eqn:E1; [reflexivity|].
  rewrite F2. simpl. rewrite E1.
  destruct (in_range (brk h) (len l1) q) eqn:E2; [|reflexivity].
  apply in_range_true in E2. apply in_range_false in E1.
  destruct R. subst l. rewrite length_app in *. simpl length in *. lia.
Qed.

(** The same failure, step by step: when the copy constructor throws, the
    elements already built in the new block have been destroyed, so that the
    whole block is raw again when it is handed back to the allocator. *)
Lemma expand_capacity_rollback v h l c n :
  repr v h l c -> c < n < size_max ->
  nothrow_move_constructible = false ->
  Exists (fun x => copy_throws x = true) l ->
  exists h2 h',
    uninitialized_copy l (brk h) (snd (allocate n h)) = Failed h2 /\
    raw_at h2 (brk h) n /\
    deallocate (brk h) n h2 = Some h' /\
    expand_capacity n v h = Throw CopyFailure v h'.
Proof.
  intros R Hn Hmv Hex.
  destruct (first_throwing l Hex) as (l1 & x & l2 & El & C1 & Cx).
  assert (R1 : repr v (snd (allocate n h)) l c)
    by (apply repr_allocate; [destruct R; lia | exact R]).
  assert (Hl : len l1 < n).
  { destruct R. subst l. rewrite length_app in *. simpl length in *. lia. }
  unfold allocate in *. simpl snd in *.
  set (h1 := mkheap _ _ _) in *.
  destruct (uninitialized_copy_from_throws (brk h) l1 x l2 (brk h) h1 [])
    as (h2 & E & F2 & B2 & K2); trivial.
  { simpl. lia. }
  { apply live_at_nil. }
  { intros q Hq. subst h1. simpl.
    destruct (in_range (brk h) n q) eqn:E; [reflexivity|].
    apply in_range_false in E. lia. }
  assert (Ed : exists h', deallocate (brk h) n h2 = Some h').
  { unfold deallocate. rewrite B2. subst h1. simpl.
    rewrite !Z.eqb_refl. eauto. }
  destruct Ed as [h' Ed].
  exists h2, h'.
  split; [unfold uninitialized_copy; rewrite El; exact E|].
  split.
  { intros q Hq. rewrite F2. subst h1. simpl.
    destruct (in_range (brk h) (len l1) q); [reflexivity|].
    destruct (in_range (brk h) n q) eqn:E1; [reflexivity|].
    apply in_range_false in E1. lia. }
  split; [exact Ed|].
  unfold expand_capacity, bind, this.
  rewrite (repr_capacity _ _ _ _ R).
  destruct (Z.leb_spec n c) as [|_]; [lia|].
  unfold allocate. simpl fst. simpl snd. fold h1.
  rewrite (read_range_live h1 (elem_ v) (free_ v) l) by apply R1.
  rewrite Hmv. unfold uninitialized_copy. rewrite El, E, Ed. reflexivity.
Qed.


(** ** What an operation can touch *)

Lemma untouched_refl v c h : untouched_outside v c h h.
Proof. unfold untouched_outside. repeat split; auto; lia. Qed.

(** A container apart from [v] does not notice what happens to [v]. *)
Lemma repr_untouched v c w h h' l' c' :
  0 <= c -> repr w h l' c' -> apart v c w c' ->
  untouched_outside v c h h' -> repr w h' l' c'.
Proof.
  intros Hc R A (Fc & Fb & K).
  apply (repr_frame w h); trivial.
  - intros q Hq. apply Fc; [destruct R; lia|].
    destruct A as [A|A]; [|lia].
    pose proof (repr_null _ _ _ _ R A). lia.
  - intros Hn. apply Fb; [destruct R; lia|].
    destruct A as [A|A]; [congruence|]. destruct R. lia.
Qed.

Lemma destroy_run_footprint n : forall p h h',
  destroy_run n p h = Some h' ->
  (forall q, ~ (p <= q < p + Z.of_nat n) -> cells h' q = cells h q) /\
  blocks h' = blocks h /\ brk h' = brk h.
Proof.
  induction n as [|n IH]; intros p h h'; cbn [destroy_run].
  - intros [= <-]. auto.
  - unfold destroy. destruct (cells h p); try discriminate.
    intros E. apply IH in E. destruct E as (F & B & K). simpl in B, K.
    split; [|auto]. intros q Hq. rewrite F by lia. simpl.
    destruct (Z.eqb_spec q p); [lia | reflexivity].
Qed.

Lemma destruct_elements_footprint first last h h' :
  destruct_elements first last h = Some h' ->
  (forall q, ~ (first <= q < last) -> cells h' q = cells h q) /\
  blocks h' = blocks h /\ brk h' = brk h.
Proof.
  unfold destruct_elements. destruct (Z.leb_spec first last); [|discriminate].
  intros E. apply destroy_run_footprint in E. destruct E as (F & B & K).
  split; [|auto]. intros q Hq. apply F. lia.
Qed.

Lemma move_construct_run_footprint src : forall cur h nf h',
  move_construct_run src cur h = Built nf h' ->
  (forall q, ~ (cur <= q < cur + len src) -> cells h' q = cells h q) /\
  blocks h' = blocks h /\ brk h' = brk h.
Proof.
  induction src as [|x src IH]; intros cur h nf h'; cbn [move_construct_run].
  - intros [= _ <-]. auto.
  - unfold construct. destruct (cells h cur); try discriminate.
    intros E. apply IH in E. destruct E as (F & B & K). simpl in B, K.
    split; [|auto]. intros q Hq. simpl length in Hq. rewrite F by lia. simpl.
    destruct (Z.eqb_spec q cur); [lia | reflexivity].
Qed.

Lemma uninitialized_copy_from_footprint d_first src : forall cur h nf h',
  uninitialized_copy_from d_first src cur h = Built nf h' ->
  (forall q, ~ (cur <= q < cur + len src) -> cells h' q = cells h q) /\
  blocks h' = blocks h /\ brk h' = brk h.
Proof.
  induction src as [|x src IH]; intros cur h nf h';
    cbn [uninitialized_copy_from].
  - intros [= _ <-]. auto.
  - destruct (copy_throws x).
    { destruct (destruct_elements d_first cur h); discriminate. }
    unfold construct. destruct (cells h cur); try discriminate.
    intros E. apply IH in E. destruct E as (F & B & K). simpl in B, K.
    split; [|auto]. intros q Hq. simpl length in Hq. rewrite F by lia. simpl.
    destruct (Z.eqb_spec q cur); [lia | reflexivity].
Qed.

Lemma clear_elements_footprint v h l c a v' h' :
  repr v h l c -> clear_elements v h = Ok a v' h' -> untouched_outside v c h h'.
Proof.
  intros R E.
  destruct (clear_elements_spec v h l c R) as (h1 & E1 & F & B & K).
  rewrite E1 in E. injection E as _ _ <-.
  split; [|split]; [auto | auto | lia].
Qed.

(** [expand_capacity] touches the container's own block and storage that did
    not exist before. *)
Lemma expand_capacity_footprint v h l c n a v' h' :
  repr v h l c -> 0 <= n ->
  expand_capacity n v h = Ok a v' h' -> untouched_outside v c h h'.
Proof.
  intros R Hn. unfold expand_capacity, bind, this.
  destruct (n <=? capacity v).
  { unfold ret. intros [= _ _ <-]. apply untouched_refl. }
  assert (R1 : repr v (snd (allocate n h)) l c) by now apply repr_allocate.
  unfold allocate in *. simpl snd in R1. set (h1 := mkheap _ _ _) in *.
  destruct (read_range (elem_ v) (free_ v) h1) as [src|]; [|discriminate].
  match goal with
  | |- match ?b with _ => _ end = _ -> _ => destruct b as [nf h2|h2|] eqn:Eb
  end; try discriminate.
  2: { destruct (deallocate (brk h) n h2); discriminate. }
  assert (F2 : (forall q, ~ (brk h <= q < brk h + len src) ->
                          cells h2 q = cells h1 q) /\
               blocks h2 = blocks h1 /\ brk h2 = brk h1).
  { destruct nothrow_move_constructible.
    - now apply move_construct_run_footprint in Eb.
    - now apply uninitialized_copy_from_footprint in Eb. }
  destruct F2 as (F2 & B2 & K2).
  assert (R2 : repr v h2 l c).
  { apply (repr_frame v h1); trivial.
    - intros q Hq. apply F2. destruct R. lia.
    - intros _. now rewrite B2.
    - lia. }
  destruct (clear_elements v h2) as [u w h3| |] eqn:E3; try discriminate.
  apply (clear_elements_footprint v h2 l c) in E3; [|exact R2].
  destruct E3 as (F3 & B3 & K3).
  unfold put. intros [= _ _ <-].
  assert (Hk : brk h2 = brk h + n + 1) by (rewrite K2; reflexivity).
  split; [|split].
  - intros q Hq Hout. rewrite F3 by (trivial; lia). rewrite F2 by lia.
    subst h1. simpl. destruct (in_range (brk h) n q) eqn:Er; [|reflexivity].
    apply in_range_true in Er. lia.
  - intros q Hq Hne. rewrite B3 by (trivial; lia). rewrite B2. subst h1. simpl.
    destruct (Z.eqb_spec q (brk h)); [lia | reflexivity].
  - lia.
Qed.

Lemma check_expand_capacity_footprint v h l c a v' h' :
  repr v h l c ->
  check_expand_capacity v h = Ok a v' h' -> untouched_outside v c h h'.
Proof.
  intros R. unfold check_expand_capacity, bind, this.
  destruct (free_ v =? last_ v).
  - apply (expand_capacity_footprint v h l c); trivial.
    destruct (empty v); [unfold FIRST_EXPAND_CAPACITY; lia|].
    apply wrap_range.
  - unfold ret. intros [= _ _ <-]. apply untouched_refl.
Qed.

(** When there is room, [check_expand_capacity] does nothing. *)
Lemma check_expand_capacity_room v h l c :
  repr v h l c -> len l < c -> check_expand_capacity v h = Ok tt v h.
Proof.
  intros R Hc. unfold check_expand_capacity, bind, this.
  rewrite (repr_free _ _ _ _ R), (repr_last _ _ _ _ R).
  destruct (Z.eqb_spec (elem_ v + len l) (elem_ v + c)); [lia | reflexivity].
Qed.

Lemma expand_capacity_where n v h a v' h' :
  expand_capacity n v h = Ok a v' h' ->
  (v' = v /\ h' = h) \/ elem_ v' = brk h.
Proof.
  unfold expand_capacity, bind, this.
  destruct (n <=? capacity v).
  - unfold ret. intros [= _ <- <-]. auto.
  - unfold allocate.
    destruct (read_range (elem_ v) (free_ v) _) as [src|]; [|discriminate].
    match goal with
    | |- match ?b with _ => _ end = _ -> _ => destruct b as [nf h2|h2|]
    end; try discriminate.
    + destruct (clear_elements v h2) as [u w h3| |]; try discriminate.
      unfold put. intros [= _ <- _]. right. reflexivity.
    + destruct (deallocate (brk h) n h2); discriminate.
Qed.

Lemma check_expand_capacity_where v h a v' h' :
  check_expand_capacity v h = Ok a v' h' ->
  (v' = v /\ h' = h) \/ elem_ v' = brk h.
Proof.
  unfold check_expand_capacity, bind, this.
  destruct (free_ v =? last_ v).
  - apply expand_capacity_where.
  - unfold ret. intros [= _ <- <-]. auto.
Qed.

Lemma grown_room s c : 0 <= s <= c -> s < grown s c.
Proof.
  intros Hs. unfold grown, FIRST_EXPAND_CAPACITY, EXPAND_RATE.
  destruct (Z.eqb_spec s c); [destruct (Z.eqb_spec s 0)|]; lia.
Qed.

Lemma check_expand_capacity_spec v h l c :
  repr v h l c -> 2 * len l < size_max -> relocatable l ->
  exists v' h',
    check_expand_capacity v h = Ok tt v' h' /\
    repr v' h' l (grown (len l) c) /\
    (len l <> c -> v' = v /\ h' = h).
Proof.
  intros R Hs Hrel. unfold check_expand_capacity, bind, this, grown.
  rewrite (repr_free _ _ _ _ R), (repr_last _ _ _ _ R).
  rewrite (repr_empty _ _ _ _ R), (repr_size _ _ _ _ R).
  destruct (Z.eqb_spec (len l) c) as [Ec|Ec].
  - replace (elem_ v + len l =? elem_ v + c) with true
      by (symmetry; apply Z.eqb_eq; lia).
    pose proof size_max_val as M.
    unfold FIRST_EXPAND_CAPACITY, EXPAND_RATE.
    destruct (Z.eqb_spec (len l) 0) as [E0|E0].
    + destruct (expand_capacity_grows v h l c 10 R) as (h' & E & R' & _);
        [lia | assumption |].
      do 2 eexists. split; [exact E|]. split; [exact R' | intros; lia].
    + rewrite wrap_small by lia.
      destruct (expand_capacity_grows v h l c (len l * 2) R) as (h' & E & R' & _);
        [lia | assumption |].
      do 2 eexists. split; [exact E|]. split; [exact R' | intros; lia].
  - replace (elem_ v + len l =? elem_ v + c) with false
      by (symmetry; apply Z.eqb_neq; lia).
    exists v, h. unfold ret. auto.
Qed.

(** Constructing one more element at [free_], when there is room. *)
Lemma repr_append v h l c x :
  repr v h l c -> len l < c ->
  construct (free_ v) x h = Some (store (free_ v) (Live x) h) /\
  repr (set_free (free_ v + 1) v) (store (free_ v) (Live x) h) (l ++ [x]) c.
Proof.
  intros R Hc. pose proof R as R0. destruct R. split.
  - unfold construct. rewrite repr_free0, repr_raw0 by lia. reflexivity.
  - constructor; simpl; trivial; rewrite ?length_app; simpl length; try lia.
    + apply live_at_app. split.
      * eapply live_at_frame; [|eassumption]. intros q Hq. simpl. zbool.
      * apply live_at_cons. split; [|apply live_at_nil].
        simpl. rewrite repr_free0. now rewrite Z.eqb_refl.
    + intros q Hq. simpl. destruct (Z.eqb_spec q (free_ v)); [lia|].
      apply repr_raw0. lia.
Qed.

(** *** Reading arguments *)

Lemma reads_apart_fetch v c r h x : reads_apart v c r h x -> fetch r h = Some x.
Proof.
  destruct r as [y|p]; simpl.
  - now intros ->.
  - intros (_ & C & _). unfold load. now rewrite C.
Qed.

Lemma make_reads a x v h :
  fetch (arg_ref a) h = Some x -> builds a x -> make a v h = Ok x v h.
Proof.
  destruct a as [r|r]; simpl; intros E B.
  - unfold make, bind, deref_arg, ret. now rewrite E, B.
  - unfold make, deref_arg. now rewrite E.
Qed.

Lemma reads_apart_moved v c r h x v' c' h' :
  reads_apart v c r h x -> untouched_outside v c h h' ->
  same_or_fresh v c h v' c' -> reads_apart v' c' r h' x.
Proof.
  destruct r as [y|p]; simpl; [trivial|].
  intros (Hp & C & Hout) (Fc & _ & K) Hblk.
  split; [lia|]. split; [rewrite Fc; trivial|].
  destruct Hblk as [[-> ->]|Hf]; [exact Hout | lia].
Qed.

(** Writes inside the new block, after the block was made ready, stay away
    from everything else that existed. *)
Lemma untouched_then_inside v c h v1 c1 h1 h' :
  untouched_outside v c h h1 -> same_or_fresh v c h v1 c1 ->
  (forall q, ~ (elem_ v1 <= q < elem_ v1 + c1) -> cells h' q = cells h1 q) ->
  blocks h' = blocks h1 -> brk h' = brk h1 ->
  untouched_outside v c h h'.
Proof.
  intros (Fc & Fb & K) Hblk F B K'. split; [|split].
  - intros q Hq Hout. rewrite F; [now apply Fc|].
    destruct Hblk as [[-> ->]|Hf]; [exact Hout | lia].
  - intros q Hq Hne. rewrite B. now apply Fb.
  - lia.
Qed.

(** [check_expand_capacity], with what it needs only when the container is
    full. *)
Lemma check_expand_capacity_when v h l c :
  repr v h l c ->
  (len l = c -> 2 * len l < size_max /\ relocatable l) ->
  exists v' h',
    check_expand_capacity v h = Ok tt v' h' /\
    repr v' h' l (grown (len l) c) /\
    untouched_outside v c h h' /\
    same_or_fresh v c h v' (grown (len l) c) /\
    (len l <> c -> v' = v /\ h' = h).
Proof.
  intros R Hfull.
  destruct (Z.eq_dec (len l) c) as [Ec|Ec].
  - destruct (Hfull Ec) as [Hs Hrel].
    destruct (check_expand_capacity_spec v h l c R Hs Hrel)
      as (v' & h' & E & R' & Hsame).
    exists v', h'. split; [exact E|]. split; [exact R'|].
    split; [exact (check_expand_capacity_footprint v h l c tt v' h' R E)|].
    split; [|exact Hsame].
    destruct (check_expand_capacity_where v h tt v' h' E) as [[-> ->]|Hw].
    + left. split; [reflexivity|].
      pose proof (repr_last _ _ _ _ R'). pose proof (repr_last _ _ _ _ R). lia.
    + right. lia.
  - assert (Hroom : len l < c) by (destruct R; lia).
    exists v, h. rewrite (check_expand_capacity_room v h l c R Hroom).
    assert (Eg : grown (len l) c = c).
    { unfold grown. destruct (Z.eqb_spec (len l) c); [contradiction | reflexivity]. }
    rewrite Eg. split; [reflexivity|]. split; [exact R|].
    split; [apply untouched_refl|]. split; [left; auto | auto].
Qed.

(** What an append can read once [check_expand_capacity] has run. *)
Lemma check_expand_capacity_reads v h l c r x :
  repr v h l c ->
  (len l = c -> 2 * len l < size_max /\ relocatable l) ->
  reads_for_append v l c r h x ->
  exists v' h',
    check_expand_capacity v h = Ok tt v' h' /\
    repr v' h' l (grown (len l) c) /\
    fetch r h' = Some x /\
    untouched_outside v c h h' /\
    same_or_fresh v c h v' (grown (len l) c) /\
    (len l <> c -> v' = v /\ h' = h).
Proof.
  intros R Hfull Hr.
  destruct (check_expand_capacity_when v h l c R Hfull)
    as (v' & h' & E & R' & F & Hblk & Hsame).
  exists v', h'. split; [exact E|]. split; [exact R'|].
  split; [|auto].
  destruct Hr as [Ha|[Hroom Hf]].
  - apply (reads_apart_fetch v' (grown (len l) c)).
    now apply (reads_apart_moved v c r h x).
  - destruct Hsame as [-> ->]; [lia | exact Hf].
Qed.

(** [push_back] of a value that can be read and whose copy does not throw. *)
Lemma push_back_spec v h l c r x :
  repr v h l c ->
  (len l = c -> 2 * len l < size_max /\ relocatable l) ->
  reads_for_append v l c r h x -> copy_throws x = false ->
  exists v' h',
    push_back r v h = Ok tt v' h' /\
    repr v' h' (l ++ [x]) (grown (len l) c) /\
    untouched_outside v c h h' /\
    same_or_fresh v c h v' (grown (len l) c).
Proof.
  intros R Hfull Hr Cx.
  destruct (check_expand_capacity_reads v h l c r x R Hfull Hr)
    as (v1 & h1 & E & R1 & Ef & F & Hblk & _).
  assert (Hroom : len l < grown (len l) c)
    by (apply grown_room; destruct R; lia).
  destruct (repr_append v1 h1 l _ x R1 Hroom) as [Ec Ra].
  exists (set_free (free_ v1 + 1) v1), (store (free_ v1) (Live x) h1).
  split.
  { unfold push_back, bind, this, put, on_heap. rewrite E.
    rewrite (make_reads (CopyOf r) x) by (trivial; exact Cx).
    now rewrite Ec. }
  split; [exact Ra|]. split; [|exact Hblk].
  apply (untouched_then_inside v c h v1 (grown (len l) c) h1); trivial.
  intros q Hq. simpl. pose proof (repr_free _ _ _ _ R1).
  destruct (Z.eqb_spec q (free_ v1)); [lia | reflexivity].
Qed.

(** [push_back] of an rvalue that can be read. *)
Lemma push_back_move_spec v h l c r x :
  repr v h l c ->
  (len l = c -> 2 * len l < size_max /\ relocatable l) ->
  reads_for_append v l c r h x ->
  exists v' h',
    push_back_move r v h = Ok tt v' h' /\
    repr v' h' (l ++ [x]) (grown (len l) c) /\
    untouched_outside v c h h' /\
    same_or_fresh v c h v' (grown (len l) c).
Proof.
  intros R Hfull Hr.
  destruct (check_expand_capacity_reads v h l c r x R Hfull Hr)
    as (v1 & h1 & E & R1 & Ef & F & Hblk & _).
  assert (Hroom : len l < grown (len l) c)
    by (apply grown_room; destruct R; lia).
  destruct (repr_append v1 h1 l _ x R1 Hroom) as [Ec Ra].
  exists (set_free (free_ v1 + 1) v1), (store (free_ v1) (Live x) h1).
  split.
  { unfold push_back_move, bind, this, put, on_heap. rewrite E.
    rewrite (make_reads (MoveOf r) x) by (trivial; exact I).
    now rewrite Ec. }
  split; [exact Ra|]. split; [|exact Hblk].
  apply (untouched_then_inside v c h v1 (grown (len l) c) h1); trivial.
  intros q Hq. simpl. pose proof (repr_free _ _ _ _ R1).
  destruct (Z.eqb_spec q (free_ v1)); [lia | reflexivity].
Qed.

(** [emplace_back] with arguments that can be read and a constructor that
    does not throw. *)
Lemma emplace_back_spec v h l c a x :
  repr v h l c ->
  (len l = c -> 2 * len l < size_max /\ relocatable l) ->
  reads_for_append v l c (arg_ref a) h x -> builds a x ->
  exists v' h',
    emplace_back a v h = Ok tt v' h' /\
    repr v' h' (l ++ [x]) (grown (len l) c) /\
    untouched_outside v c h h' /\
    same_or_fresh v c h v' (grown (len l) c).
Proof.
  intros R Hfull Hr Hb.
  destruct (check_expand_capacity_reads v h l c _ x R Hfull Hr)
    as (v1 & h1 & E & R1 & Ef & F & Hblk & _).
  assert (Hroom : len l < grown (len l) c)
    by (apply grown_room; destruct R; lia).
  destruct (repr_append v1 h1 l _ x R1 Hroom) as [Ec Ra].
  exists (set_free (free_ v1 + 1) v1), (store (free_ v1) (Live x) h1).
  split.
  { unfold emplace_back, bind, this, put, on_heap. rewrite E.
    rewrite (make_reads a x) by trivial.
    now rewrite Ec. }
  split; [exact Ra|]. split; [|exact Hblk].
  apply (untouched_then_inside v c h v1 (grown (len l) c) h1); trivial.
  intros q Hq. simpl. pose proof (repr_free _ _ _ _ R1).
  destruct (Z.eqb_spec q (free_ v1)); [lia | reflexivity].
Qed.

(** [emplace] at a valid position: one final state for all arguments that
    designate an object outside the container and build the same value. *)
Lemma emplace_any v h l c position x :
  repr v h l c ->
  (len l = c -> 2 * len l < size_max /\ relocatable l) ->
  elem_ v <= position <= free_ v ->
  exists v' h',
    (forall a, reads_apart v c (arg_ref a) h x -> builds a x ->
       emplace position a v h = Ok (elem_ v' + (position - elem_ v)) v' h') /\
    repr v' h'
      (firstn (Z.to_nat (position - elem_ v)) l ++
       x :: skipn (Z.to_nat (position - elem_ v)) l)
      (grown (len l) c) /\
    untouched_outside v c h h' /\
    same_or_fresh v c h v' (grown (len l) c).
Proof.
  intros R Hfull Hpos.
  destruct (check_expand_capacity_when v h l c R Hfull)
    as (v1 & h1 & E & R1 & F & Hblk & _).
  assert (Hroom : len l < grown (len l) c)
    by (apply grown_room; destruct R; lia).
  set (c1 := grown (len l) c) in *.
  set (diff := position - elem_ v).
  assert (Hd : 0 <= diff <= len l) by (subst diff; destruct R; lia).
  assert (Hstart : forall a,
    emplace position a v h =
      (if elem_ v1 + diff =? free_ v1
       then
         (put (set_free (free_ v1 + 1) v1) ;;;
          x0 <- make a ;;
          on_heap (construct (free_ v1) x0) ;;;
          ret (free_ v1 + 1 - 1)) v1 h1
       else
         (y <- deref (free_ v1 - 1) ;;
          on_heap (construct (free_ v1) y) ;;;
          put (set_free (free_ v1 + 1) v1) ;;;
          on_heap (shift_right (free_ v1 + 1 - 2) (elem_ v1 + diff)) ;;;
          x0 <- make a ;;
          on_heap (assign (elem_ v1 + diff) x0) ;;;
          ret (elem_ v1 + diff)) v1 h1)).
  { intros a. unfold emplace. unfold bind at 1 2 3. unfold this at 1 2.
    unfold cbegin, cend, begin_, end_.
    destruct (Z.ltb_spec position (elem_ v)) as [|_]; [lia|].
    rewrite Z.gtb_ltb.
    destruct (Z.ltb_spec (free_ v) position) as [|_]; [lia|].
    cbn [orb]. cbv beta iota. rewrite E. fold diff.
    destruct (elem_ v1 + diff =? free_ v1); reflexivity. }
  pose proof (repr_free _ _ _ _ R1) as Hf.
  destruct (Z.eqb_spec (elem_ v1 + diff) (free_ v1)) as [Eend|Eend].
  - (* the position is the end: append *)
    assert (diff = len l) by lia.
    destruct (repr_append v1 h1 l c1 x R1 Hroom) as [Ec Ra].
    exists (set_free (free_ v1 + 1) v1), (store (free_ v1) (Live x) h1).
    split.
    { intros a Hr Hb. rewrite Hstart.
      assert (Hr1 : reads_apart v1 c1 (arg_ref a) h1 x)
        by now apply (reads_apart_moved v c _ h x).
      unfold bind, put, on_heap, ret.
      rewrite (make_reads a x)
        by (trivial; exact (reads_apart_fetch _ _ _ _ _ Hr1)).
      rewrite Ec. simpl. f_equal. lia. }
    replace (Z.to_nat diff) with (length l) by lia.
    rewrite firstn_all, skipn_all. split; [exact Ra|]. split; [|exact Hblk].
    apply (untouched_then_inside v c h v1 c1 h1); trivial.
    intros q Hq. simpl. destruct (Z.eqb_spec q (free_ v1)); [lia | reflexivity].
  - (* the position is inside: shift the tail one slot to the right *)
    assert (Hlt : diff < len l) by lia.
    set (d := Z.to_nat diff).
    assert (Hsplit : l = firstn d l ++ skipn d l) by (symmetry; apply firstn_skipn).
    assert (Hl1 : length (firstn d l) = d) by (rewrite length_firstn; lia).
    assert (Hm : skipn d l <> []).
    { intros E0. apply (f_equal (@length T)) in E0.
      rewrite length_skipn in E0. simpl in E0. lia. }
    destruct (exists_last Hm) as (m & y & Em).
    set (l1 := firstn d l) in *. rewrite Em in Hsplit |- *.
    assert (Hlen : len l = Z.of_nat d + len m + 1).
    { rewrite Hsplit at 1. rewrite !length_app, Hl1. simpl length. lia. }
    set (pos := elem_ v1 + diff) in *.
    assert (Hp : pos = elem_ v1 + Z.of_nat d) by (subst pos d; lia).
    pose proof (repr_live _ _ _ _ R1) as L.
    rewrite Hsplit in L. apply live_at_app in L. destruct L as [L1 L].
    rewrite Hl1, <- Hp in L.
    apply live_at_app in L. destruct L as [Lm Ly].
    apply live_at_cons in Ly. destruct Ly as [Cy _].
    assert (Hlast : free_ v1 - 1 = pos + len m) by lia.
    set (h2 := store (free_ v1) (Live y) h1).
    destruct (shift_run_right m pos h2) as (h3 & E3 & L3 & F3 & B3 & K3).
    { eapply live_at_frame; [|exact Lm]. intros q Hq. subst h2. simpl. zbool. }
    { exists y. subst h2. simpl.
      destruct (Z.eqb_spec (pos + len m) (free_ v1)); [lia | exact Cy]. }
    assert (Hin : forall q, ~ (elem_ v1 <= q < elem_ v1 + c1) ->
                            cells h3 q = cells h1 q).
    { intros q Hq. rewrite F3 by lia. subst h2. simpl.
      destruct (Z.eqb_spec q (free_ v1)); [lia | reflexivity]. }
    assert (exists z, cells h3 pos = Live z) as [z Cz].
    { rewrite F3 by lia. subst h2. simpl.
      destruct (Z.eqb_spec pos (free_ v1)); [lia|].
      apply (live_at_is_live h1 (elem_ v1) l); [apply R1 | lia]. }
    exists (set_free (free_ v1 + 1) v1), (store pos (Live x) h3).
    split.
    { intros a Hr Hb. rewrite Hstart.
      assert (Hr1 : reads_apart v1 c1 (arg_ref a) h1 x)
        by now apply (reads_apart_moved v c _ h x).
      assert (Ef3 : fetch (arg_ref a) h3 = Some x).
      { revert Hr1. destruct (arg_ref a) as [z'|p]; simpl.
        - now intros ->.
        - intros (_ & C & Hout). unfold load. rewrite Hin by exact Hout.
          now rewrite C. }
      unfold bind, deref, load. rewrite Hlast, Cy.
      unfold on_heap, construct.
      rewrite (repr_raw _ _ _ _ R1 (free_ v1)) by lia.
      fold h2. unfold put, shift_right.
      replace (free_ v1 + 1 - 2) with (pos + len m) by lia.
      destruct (Z.leb_spec pos (pos + len m)) as [_|]; [|lia].
      replace (Z.to_nat (pos + len m - pos)) with (length m) by lia.
      rewrite E3.
      rewrite (make_reads a x) by trivial.
      unfold assign. rewrite Cz. reflexivity. }
    split.
    2: { split; [|exact Hblk].
         apply (untouched_then_inside v c h v1 c1 h1); trivial.
         intros q Hq. simpl. destruct (Z.eqb_spec q pos); [lia|].
         now apply Hin. }
    destruct R1.
    constructor; simpl; trivial;
      rewrite ?length_app, ?Hl1; simpl length; rewrite ?length_app; simpl length;
      try lia.
    + rewrite B3. subst h2. simpl. assumption.
    + rewrite K3. subst h2. simpl. assumption.
    + apply live_at_app. split.
      { eapply live_at_frame; [|exact L1]. intros q Hq. rewrite Hl1 in Hq.
        simpl. destruct (Z.eqb_spec q pos); [lia|].
        rewrite F3 by lia. subst h2. simpl. zbool. }
      rewrite Hl1, <- Hp. apply live_at_cons. split.
      { simpl. now rewrite Z.eqb_refl. }
      apply live_at_app. split.
      { eapply live_at_frame; [|exact L3]. intros q Hq. simpl. zbool. }
      apply live_at_cons. split; [|apply live_at_nil].
      simpl. destruct (Z.eqb_spec (pos + 1 + len m) pos); [lia|].
      rewrite F3 by lia. subst h2. simpl.
      destruct (Z.eqb_spec (pos + 1 + len m) (free_ v1)); [reflexivity | lia].
    + intros q Hq. simpl. destruct (Z.eqb_spec q pos); [lia|].
      rewrite F3 by lia. subst h2. simpl.
      destruct (Z.eqb_spec q (free_ v1)); [lia|].
      apply repr_raw0. lia.
Qed.

(** [emplace] at a valid position, with arguments that designate an object
    outside the container. *)
Lemma emplace_spec v h l c position a x :
  repr v h l c ->
  (len l = c -> 2 * len l < size_max /\ relocatable l) ->
  reads_apart v c (arg_ref a) h x -> builds a x ->
  elem_ v <= position <= free_ v ->
  exists v' h',
    emplace position a v h = Ok (elem_ v' + (position - elem_ v)) v' h' /\
    repr v' h'
      (firstn (Z.to_nat (position - elem_ v)) l ++
       x :: skipn (Z.to_nat (position - elem_ v)) l)
      (grown (len l) c) /\
    untouched_outside v c h h' /\
    same_or_fresh v c h v' (grown (len l) c).
Proof.
  intros R Hfull Hr Hb Hpos.
  destruct (emplace_any v h l c position x R Hfull Hpos)
    as (v' & h' & E & R' & F & Hblk).
  exists v', h'. split; [now apply E | auto].
Qed.

(** [emplace] at a position outside [[begin(), end()]]. *)
Lemma emplace_out_of_range v h position a :
  position < elem_ v \/ free_ v < position ->
  emplace position a v h = Throw OutOfRange v h.
Proof.
  intros Hpos. unfold emplace, bind, this, cbegin, cend, begin_, end_.
  rewrite Z.gtb_ltb.
  destruct (Z.ltb_spec position (elem_ v)); [reflexivity|].
  destruct (Z.ltb_spec (free_ v) position); [reflexivity | lia].
Qed.

(** [insert(position, const value_type &)] reads and copies its argument
    before anything else. *)
Lemma insert_reads position r x v h :
  fetch r h = Some x -> copy_throws x = false ->
  insert position r v h = emplace position (MoveOf (Outside x)) v h.
Proof.
  intros E Cx. unfold insert, insert_move. unfold bind at 1.
  now rewrite (make_reads (CopyOf r) x) by (trivial; exact Cx).
Qed.

Lemma insert_throws position r x v h :
  fetch r h = Some x -> copy_throws x = true ->
  insert position r v h = Throw CopyFailure v h.
Proof.
  intros E Cx. unfold insert, make, bind, deref_arg, throw. now rewrite E, Cx.
Qed.

(** [erase(first, last)] on a valid range. *)
Lemma erase_range_spec v h l c first last :
  repr v h l c ->
  elem_ v <= first -> first <= last -> last <= free_ v ->
  exists h',
    erase_range first last v h
      = Ok first (set_free (first + (free_ v - last)) v) h' /\
    repr (set_free (first + (free_ v - last)) v) h'
      (firstn (Z.to_nat (first - elem_ v)) l ++
       skipn (Z.to_nat (last - elem_ v)) l) c.
Proof.
  intros R H1 H2 H3.
  pose proof (repr_free _ _ _ _ R) as Hf.
  set (i := Z.to_nat (first - elem_ v)).
  set (j := Z.to_nat (last - elem_ v)).
  assert (Hi : first = elem_ v + Z.of_nat i) by (subst i; lia).
  assert (Hj : last = elem_ v + Z.of_nat j) by (subst j; lia).
  assert (Hij : (i <= j <= length l)%nat) by lia.
  set (l3 := skipn j l).
  assert (Hl3 : len l3 = len l - Z.of_nat j)
    by (subst l3; rewrite length_skipn; lia).
  assert (Hl1 : length (firstn i l) = i) by (rewrite length_firstn; lia).
  pose proof (repr_live _ _ _ _ R) as L.
  assert (L3 : live_at h last l3)
    by (rewrite Hj; apply live_at_skipn; [lia | exact L]).
  unfold erase_range, bind, this, cbegin, cend, begin_, end_.
  rewrite Z.geb_leb.
  destruct (Z.leb_spec (elem_ v) first) as [_|]; [|lia].
  destruct (Z.leb_spec last (free_ v)) as [_|]; [|lia].
  cbn [andb negb]. cbv beta iota. unfold std_move.
  destruct (Z.leb_spec last (free_ v)) as [_|]; [|lia].
  replace (Z.to_nat (free_ v - last)) with (length l3) by lia.
  destruct (move_run_left l3 last first h) as (h1 & E1 & L1 & F1 & B1 & K1);
    trivial.
  { intros q Hq. apply (live_at_is_live h (elem_ v) l); [exact L | lia]. }
  rewrite E1.
  set (iter := first + (free_ v - last)).
  assert (Hiter : iter = first + len l3) by (subst iter; lia).
  (* the vacated slots still hold live objects *)
  set (k := Z.to_nat (iter - elem_ v)).
  assert (Hk : iter = elem_ v + Z.of_nat k) by (subst k; lia).
  assert (Lrest : live_at h1 iter (skipn k l)).
  { eapply live_at_frame; [|rewrite Hk; apply live_at_skipn; [lia | exact L]].
    intros q Hq. apply F1. lia. }
  destruct (destruct_elements_live h1 iter (free_ v) (skipn k l))
    as (h2 & E2 & F2 & B2 & K2); trivial.
  { rewrite length_skipn. lia. }
  unfold on_heap. rewrite E2. unfold put, ret.
  exists h2. split; [reflexivity|].
  assert (Hrest : len (skipn k l) = Z.of_nat j - Z.of_nat i)
    by (rewrite length_skipn; lia).
  destruct R.
  constructor; simpl; trivial; rewrite ?length_app, ?Hl1; try lia.
  - intros E0. rewrite B2, B1. auto.
  - apply live_at_app. split.
    + apply live_at_firstn with (n := i) in L.
      eapply live_at_frame; [|exact L]. intros q Hq. rewrite Hl1 in Hq.
      rewrite F2.
      destruct (in_range iter (len (skipn k l)) q) eqn:E0.
      { apply in_range_true in E0. lia. }
      apply F1. lia.
    + rewrite Hl1, <- Hi. fold l3.
      eapply live_at_frame; [|exact L1]. intros q Hq.
      rewrite F2.
      destruct (in_range iter (len (skipn k l)) q) eqn:E0; [|reflexivity].
      apply in_range_true in E0. lia.
  - fold l3. intros q Hq. rewrite F2.
    destruct (in_range iter (len (skipn k l)) q) eqn:E0; [reflexivity|].
    apply in_range_false in E0. rewrite F1 by lia.
    apply repr_raw0. lia.
Qed.


(** Once the guard of [erase(first, last)] is passed, nothing is thrown,
    whatever the order of [first] and [last]. *)
Lemma erase_range_guard_passed v h first last e v' h' :
  elem_ v <= first -> last <= free_ v ->
  erase_range first last v h <> Throw e v' h'.
Proof.
  intros H1 H2. unfold erase_range, bind, this, cbegin, cend, begin_, end_.
  rewrite Z.geb_leb.
  destruct (Z.leb_spec (elem_ v) first) as [_|]; [|lia].
  destruct (Z.leb_spec last (free_ v)) as [_|]; [|lia].
  cbn [andb negb]. cbv beta iota.
  destruct (std_move last (free_ v) first h) as [[iter h1]|]; [|discriminate].
  unfold on_heap, put, ret.
  destruct (destruct_elements iter (free_ v) h1); discriminate.
Qed.

(** Indexed access. *)
Lemma at_spec v h l c n :
  repr v h l c -> 0 <= n ->
  at_ n v h =
    match nth_error l (Z.to_nat n) with
    | Some x => Ok x v h
    | None => Throw OutOfRange v h
    end.
Proof.
  intros R Hn. unfold at_, bind, this. rewrite (repr_size _ _ _ _ R).
  destruct (Z.ltb_spec n (len l)) as [Hlt|Hge].
  - destruct (nth_error l (Z.to_nat n)) as [x|] eqn:E.
    + unfold deref, load.
      pose proof (repr_live _ _ _ _ R _ _ E) as C.
      rewrite Z2Nat.id in C by assumption. now rewrite C.
    + apply nth_error_None in E. lia.
  - destruct (nth_error l (Z.to_nat n)) as [x|] eqn:E; [|reflexivity].
    assert (Z.to_nat n < length l)%nat by (apply nth_error_Some; congruence).
    lia.
Qed.

Lemma subscript_at n : subscript n = at_ n.
Proof. reflexivity. Qed.

(** [front()] and [back()] on a container that owns a block and is not
    empty. *)
Lemma front_spec v h l c x :
  repr v h (x :: l) c -> front v h = Ok x v h.
Proof.
  intros R. unfold front, bind, this, begin_.
  pose proof (repr_live _ _ _ _ R) as L. apply live_at_cons in L.
  destruct L as [C _].
  destruct (Z.eqb_spec (elem_ v) 0) as [E0|_].
  - pose proof (repr_null _ _ _ _ R E0). pose proof (repr_fits _ _ _ _ R).
    simpl length in *. lia.
  - simpl. unfold deref, load. now rewrite C.
Qed.

Lemma back_spec v h l c x :
  repr v h (l ++ [x]) c -> back v h = Ok x v h.
Proof.
  intros R. unfold back, bind, this.
  pose proof (repr_live _ _ _ _ R) as L. apply live_at_app in L.
  destruct L as [_ L]. apply live_at_cons in L. destruct L as [C _].
  pose proof (repr_free _ _ _ _ R) as Hf. rewrite length_app in Hf.
  simpl length in Hf.
  destruct (Z.eqb_spec (elem_ v) 0) as [E0|_].
  - pose proof (repr_null _ _ _ _ R E0). pose proof (repr_fits _ _ _ _ R).
    rewrite length_app in *. simpl length in *. lia.
  - simpl. unfold deref, load.
    replace (free_ v - 1) with (elem_ v + len l) by lia. now rewrite C.
Qed.

Lemma front_null v h : elem_ v = 0 -> front v h = Throw LengthError v h.
Proof. intros E. unfold front, bind, this. now rewrite E. Qed.

Lemma back_null v h : elem_ v = 0 -> back v h = Throw LengthError v h.
Proof. intros E. unfold back, bind, this. now rewrite E. Qed.

(** Building a fresh container from a range: it gets a block of its own,
    beyond everything allocated so far, holding exactly the values. *)
Lemma create_elements_spec src h :
  copyable src -> 0 < brk h -> len src < size_max ->
  exists v' h',
    create_elements src null_vector h = Ok tt v' h' /\
    repr v' h' src (len src) /\
    (forall q, q < brk h -> cells h' q = cells h q /\ blocks h' q = blocks h q) /\
    brk h <= brk h' /\
    (elem_ v' = 0 \/ brk h <= elem_ v').
Proof.
  intros C K M. destruct src as [|x src].
  - exists null_vector, h. simpl. split; [reflexivity|].
    split; [now apply repr_null_vector|]. split; [auto|]. split; [lia | auto].
  - unfold create_elements. set (l := x :: src) in *.
    assert (Hpos : 0 < len l) by (subst l; simpl length; lia).
    clearbody l.
    unfold allocate. set (h1 := mkheap _ _ _).
    destruct (uninitialized_copy_from_raw (brk h) l (brk h) h1 C)
      as (h2 & E & L & F & B & K2).
    { intros q Hq. subst h1. simpl.
      destruct (in_range (brk h) (len l) q) eqn:E; [reflexivity|].
      apply in_range_false in E. lia. }
    unfold adopt, uninitialized_copy. rewrite E.
    exists (mkvector (brk h) (brk h + len l) (brk h + len l)), h2.
    split; [reflexivity|]. split; [|split; [|split]].
    + constructor; simpl; trivial; try lia.
      * intros _. rewrite B. subst h1. simpl. now rewrite Z.eqb_refl.
      * rewrite K2. subst h1. simpl. lia.
      * intros q Hq. lia.
    + intros q Hq. rewrite F by lia. rewrite B. subst h1. simpl.
      destruct (in_range (brk h) (len l) q) eqn:E1.
      { apply in_range_true in E1. lia. }
      destruct (Z.eqb_spec q (brk h)); [lia | auto].
    + rewrite K2. subst h1. simpl. lia.
    + simpl. right. lia.
Qed.

(** ... and when a copy constructor throws, the block is given back. *)
Lemma create_elements_throws src v h :
  Exists (fun x => copy_throws x = true) src ->
  exists h',
    create_elements src v h = Throw CopyFailure v h' /\
    (forall q, q < brk h -> cells h' q = cells h q /\ blocks h' q = blocks h q) /\
    brk h <= brk h'.
Proof.
  intros Hex.
  destruct (first_throwing src Hex) as (l1 & x & l2 & El & C1 & Cx).
  assert (Hne : exists y r, src = y :: r).
  { subst src. destruct l1; simpl; eauto. }
  destruct Hne as (y & r & Ey).
  unfold create_elements. rewrite Ey. rewrite <- Ey.
  unfold allocate. set (h1 := mkheap _ _ _).
  unfold adopt, uninitialized_copy.
  replace (uninitialized_copy_from (brk h) src (brk h) h1)
    with (uninitialized_copy_from (brk h) (l1 ++ x :: l2) (brk h) h1)
    by (rewrite El; reflexivity).
  destruct (uninitialized_copy_from_throws (brk h) l1 x l2 (brk h) h1 [])
    as (h2 & E & F2 & B2 & K2); trivial.
  { simpl. lia. }
  { apply live_at_nil. }
  { intros q Hq. subst h1. simpl.
    destruct (in_range (brk h) (len src) q) eqn:E; [reflexivity|].
    apply in_range_false in E.
    subst src. rewrite length_app in *. simpl length in *. lia. }
  rewrite E. unfold deallocate. rewrite B2. subst h1. simpl.
  rewrite !Z.eqb_refl. eexists. split; [reflexivity|]. simpl.
  split; [|rewrite K2; simpl; lia].
  intros q Hq.
  destruct (in_range (brk h) (len src) q) eqn:E1.
  { apply in_range_true in E1. lia. }
  rewrite F2. simpl. rewrite E1.
  destruct (in_range (brk h) (len l1) q) eqn:E2.
  { apply in_range_true in E2. lia. }
  destruct (Z.eqb_spec q (brk h)); [lia | auto].
Qed.

(** Copy assignment from a container whose elements can be copied: the
    target ends up with a block of its own holding the source's values. *)
Lemma copy_assign_spec v other h l l' c c' :
  repr v h l c -> repr other h l' c' -> copyable l' ->
  exists v' h',
    copy_assign other v h = Ok tt v' h' /\
    repr v' h' l' (len l').
Proof.
  intros R R' C.
  assert (K : 0 < brk h) by (destruct R; lia).
  assert (M : len l' < size_max) by (destruct R'; lia).
  destruct (create_elements_spec l' h C K M) as (cp & h1 & E & Rc & F & K1 & Hcp).
  unfold copy_assign, vector_copy, cbegin, cend.
  rewrite (repr_contents _ _ _ _ R' : read_range _ _ _ = _), E.
  assert (R1 : repr v h1 l c).
  { apply (repr_frame v h); trivial.
    - intros q Hq. apply F. destruct R. lia.
    - intros _. apply F. destruct R. lia. }
  destruct (clear_elements_spec v h1 l c R1) as (h2 & E2 & F2 & B2 & K2).
  rewrite E2. exists cp, h2. split; [reflexivity|].
  apply (repr_frame cp h1); trivial.
  - intros q Hq. apply F2. destruct Rc, R. lia.
  - intros Hn. apply B2. destruct R. lia.
  - lia.
Qed.

(** Copy assignment from a container one of whose elements cannot be
    copied. *)
Lemma copy_assign_throws v other h l l' c c' :
  repr v h l c -> repr other h l' c' ->
  Exists (fun x => copy_throws x = true) l' ->
  exists h',
    copy_assign other v h = Throw CopyFailure v h' /\
    repr v h' l c /\
    (forall q, q < brk h -> cells h' q = cells h q /\ blocks h' q = blocks h q).
Proof.
  intros R R' Hex.
  destruct (create_elements_throws l' null_vector h Hex) as (h1 & E & F & K1).
  unfold copy_assign, vector_copy, cbegin, cend.
  rewrite (repr_contents _ _ _ _ R' : read_range _ _ _ = _), E.
  exists h1. split; [reflexivity|]. split; [|exact F].
  apply (repr_frame v h); trivial.
  - intros q Hq. apply F. destruct R. lia.
  - intros _. apply F. destruct R. lia.
Qed.

(** [pop_back()] *)
Lemma pop_back_nonempty v h l c x :
  repr v h (l ++ [x]) c ->
  exists h',
    pop_back v h = Throw LengthError (set_free (free_ v - 1) v) h' /\
    repr (set_free (free_ v - 1) v) h' l c.
Proof.
  intros R. pose proof R as R0. destruct R.
  rewrite length_app in *. simpl length in *.
  pose proof repr_live0 as L. apply live_at_app in L. destruct L as [L Lx].
  apply live_at_cons in Lx. destruct Lx as [Cx _].
  unfold pop_back, bind, this, put, on_heap, throw.
  rewrite (repr_empty _ _ _ _ R0).
  replace (len (l ++ [x]) =? 0) with false
    by (symmetry; apply Z.eqb_neq; rewrite length_app; simpl length; lia).
  cbn [negb]. cbv iota beta. unfold destroy.
  replace (free_ v - 1) with (elem_ v + len l) by lia. rewrite Cx.
  eexists. split; [reflexivity|].
  constructor; simpl; trivial; try lia.
  - eapply live_at_frame; [|exact L]. intros q Hq. simpl. zbool.
  - intros q Hq. simpl. destruct (Z.eqb_spec q (elem_ v + len l)); [reflexivity|].
    apply repr_raw0. lia.
Qed.

Lemma pop_back_empty v h c :
  repr v h [] c -> pop_back v h = Throw LengthError v h.
Proof.
  intros R. unfold pop_back, bind, this, throw.
  rewrite (repr_empty _ _ _ _ R). reflexivity.
Qed.

(** [pop_back()] never returns normally. *)
Lemma pop_back_never_returns v h a v' h' : pop_back v h <> Ok a v' h'.
Proof.
  unfold pop_back, bind, this, put, on_heap, throw, ret.
  destruct (negb (empty v)); [|discriminate].
  destruct (destroy (free_ v - 1) h); discriminate.
Qed.

(** ** Counting through [insert]

    Whatever the storage looks like, an insertion that returns has made
    [free_ - elem_] one larger. *)

Lemma move_construct_run_end src : forall cur h nf h',
  move_construct_run src cur h = Built nf h' -> nf = cur + len src.
Proof.
  induction src as [|x src IH]; intros cur h nf h'; simpl move_construct_run.
  - intros [= <- _]. simpl. lia.
  - destruct (construct cur x h) as [h1|]; [|discriminate].
    intros E. apply IH in E. simpl length. lia.
Qed.

Lemma uninitialized_copy_from_end d_first src : forall cur h nf h',
  uninitialized_copy_from d_first src cur h = Built nf h' -> nf = cur + len src.
Proof.
  induction src as [|x src IH]; intros cur h nf h'; simpl uninitialized_copy_from.
  - intros [= <- _]. simpl. lia.
  - destruct (copy_throws x).
    + destruct (destruct_elements d_first cur h); discriminate.
    + destruct (construct cur x h) as [h1|]; [|discriminate].
      intros E. apply IH in E. simpl length. lia.
Qed.

Lemma read_range_length first last h l :
  read_range first last h = Some l -> first <= last /\ len l = last - first.
Proof.
  unfold read_range. destruct (Z.leb_spec first last); [|discriminate].
  intros E. apply load_run_sound in E. lia.
Qed.

Lemma expand_capacity_count n v h a v' h' :
  expand_capacity n v h = Ok a v' h' ->
  free_ v' - elem_ v' = free_ v - elem_ v.
Proof.
  unfold expand_capacity, bind, this.
  destruct (n <=? capacity v).
  - unfold ret. intros [= _ <- _]. reflexivity.
  - unfold allocate.
    destruct (read_range (elem_ v) (free_ v) _) as [src|] eqn:Er; [|discriminate].
    apply read_range_length in Er. destruct Er as [_ Er].
    match goal with
    | |- match ?b with _ => _ end = _ -> _ => destruct b as [nf h2|h2|] eqn:Eb
    end; try discriminate.
    + assert (nf = brk h + len src).
      { destruct nothrow_move_constructible.
        - now apply move_construct_run_end in Eb.
        - now apply uninitialized_copy_from_end in Eb. }
      destruct (clear_elements v h2) as [u w h3| |]; try discriminate.
      unfold put. intros [= _ <- _]. simpl. lia.
    + destruct (deallocate (brk h) n h2); discriminate.
Qed.

Lemma check_expand_capacity_count v h a v' h' :
  check_expand_capacity v h = Ok a v' h' ->
  free_ v' - elem_ v' = free_ v - elem_ v.
Proof.
  unfold check_expand_capacity, bind, this.
  destruct (free_ v =? last_ v).
  - apply expand_capacity_count.
  - unfold ret. intros [= _ <- _]. reflexivity.
Qed.

Lemma make_keeps_state args v h x v' h' :
  make args v h = Ok x v' h' -> v' = v /\ h' = h.
Proof.
  destruct args as [r|r]; unfold make, bind, deref_arg, throw, ret;
    destruct (fetch r h) as [y|]; try discriminate.
  - destruct (copy_throws y); [discriminate|]. intros [= _ <- <-]. auto.
  - intros [= _ <- <-]. auto.
Qed.

Lemma emplace_count position args v h a v' h' :
  emplace position args v h = Ok a v' h' ->
  free_ v' - elem_ v' = free_ v - elem_ v + 1.
Proof.
  unfold emplace. unfold bind at 1. unfold this at 1.
  destruct ((position <? cbegin v) || (position >? cend v)); [discriminate|].
  unfold bind at 1.
  destruct (check_expand_capacity v h) as [u v1 h1| |] eqn:E; try discriminate.
  apply check_expand_capacity_count in E.
  unfold bind at 1. unfold this at 1.
  destruct (elem_ v1 + (position - cbegin v) =? cend v1).
  - unfold bind at 1. unfold put at 1. unfold bind at 1.
    destruct (make args (set_free (free_ v1 + 1) v1) h1) as [x v2 h2| |] eqn:Em;
      try discriminate.
    apply make_keeps_state in Em. destruct Em as [-> ->].
    unfold bind, on_heap, ret.
    destruct (construct (free_ v1) x h1); [|discriminate].
    intros [= _ <- _]. simpl. lia.
  - unfold bind at 1. unfold deref at 1.
    destruct (load (free_ v1 - 1) h1) as [y|]; [|discriminate].
    unfold bind at 1. unfold on_heap at 1.
    destruct (construct (free_ v1) y h1) as [h2|]; [|discriminate].
    unfold bind at 1. unfold put at 1. unfold bind at 1. unfold on_heap at 1.
    destruct (shift_right _ _ h2) as [h3|]; [|discriminate].
    unfold bind at 1.
    destruct (make args (set_free (free_ v1 + 1) v1) h3) as [x v2 h4| |] eqn:Em;
      try discriminate.
    apply make_keeps_state in Em. destruct Em as [-> ->].
    unfold bind, on_heap, ret.
    destruct (assign _ x h3); [|discriminate].
    intros [= _ <- _]. simpl. lia.
Qed.

Lemma insert_loop_count value k : forall pos v h a v' h',
  insert_loop k pos value v h = Ok a v' h' ->
  free_ v' - elem_ v' = free_ v - elem_ v + Z.of_nat k.
Proof.
  induction k as [|k IH]; intros pos v h a v' h'.
  - simpl. unfold ret. intros [= _ <- _]. lia.
  - cbn [insert_loop]. unfold bind at 1. unfold insert, insert_move.
    unfold bind at 1.
    destruct (make (CopyOf value) v h) as [x v0 h0| |] eqn:Em; try discriminate.
    apply make_keeps_state in Em. destruct Em as [-> ->].
    destruct (emplace pos (MoveOf (Outside x)) v h) as [p v1 h1| |] eqn:E;
      try discriminate.
    apply emplace_count in E. intros E2. apply IH in E2. lia.
Qed.

Lemma insert_n_count position n value v h a v' h' :
  0 <= n ->
  insert_n position n value v h = Ok a v' h' ->
  free_ v' - elem_ v' = free_ v - elem_ v + n.
Proof.
  intros Hn. unfold insert_n. destruct (Z.eqb_spec n 0) as [->|_].
  - unfold ret. intros [= _ <- _]. lia.
  - intros E. apply insert_loop_count in E. lia.
Qed.

(** The growing branch of [resize] hands [size() - new_size], computed in
    [size_type], to [insert]. *)
Lemma resize_grow_count v h new_size value :
  size v < new_size ->
  resize new_size value v h
    = (insert_n (end_ v) (wrap (size v - new_size)) value ;;; ret tt) v h.
Proof.
  intros Hn. unfold resize. unfold bind at 1. unfold this at 1.
  destruct (Z.ltb_spec new_size (size v)); [lia|].
  rewrite Z.gtb_ltb. destruct (Z.ltb_spec (size v) new_size); [reflexivity | lia].
Qed.

(** A [resize] that grows and returns has added [size() - new_size] modulo
    [2 ^ 64] elements. *)
Lemma resize_grow_result v h new_size value v' h' :
  size v < new_size ->
  resize new_size value v h = Ok tt v' h' ->
  free_ v' - elem_ v' = free_ v - elem_ v + wrap (size v - new_size).
Proof.
  intros Hn. rewrite resize_grow_count by assumption.
  unfold bind at 1.
  destruct (insert_n _ _ _ v h) as [p v1 h1| |] eqn:E; try discriminate.
  apply insert_n_count in E; [|apply wrap_range].
  unfold ret. intros [= <- _]. exact E.
Qed.

(** The shrinking branch of [resize]. *)
Lemma resize_shrink_spec v h l c new_size value :
  repr v h l c -> 0 <= new_size < len l ->
  exists v' h',
    resize new_size value v h = Ok tt v' h' /\
    repr v' h' (firstn (Z.to_nat new_size) l) c.
Proof.
  intros R Hn. unfold resize. unfold bind at 1. unfold this at 1.
  rewrite (repr_size _ _ _ _ R).
  destruct (Z.ltb_spec new_size (len l)) as [_|]; [|lia].
  pose proof (repr_free _ _ _ _ R) as Hf.
  destruct (erase_range_spec v h l c (begin_ v + new_size) (end_ v) R)
    as (h' & E & R'); unfold begin_, end_ in *; try lia.
  unfold bind. rewrite E. unfold ret. do 2 eexists. split; [reflexivity|].
  replace (elem_ v + new_size - elem_ v) with new_size in R' by lia.
  replace (Z.to_nat (free_ v - elem_ v)) with (length l) in R' by lia.
  now rewrite skipn_all, app_nil_r in R'.
Qed.

(** A [resize] to the current size does nothing. *)
Lemma resize_same v h value : resize (size v) value v h = Ok tt v h.
Proof.
  unfold resize, bind, this. rewrite Z.ltb_irrefl, Z.gtb_ltb, Z.ltb_irrefl.
  reflexivity.
Qed.

(** ** Sequences of appends *)

Lemma relocatable_app l xs : relocatable l -> copyable xs -> relocatable (l ++ xs).
Proof.
  unfold relocatable, copyable. destruct nothrow_move_constructible; [trivial|].
  intros. apply Forall_app. auto.
Qed.

Lemma relocatable_nil : relocatable [].
Proof. unfold relocatable. destruct nothrow_move_constructible; constructor. Qed.

Lemma push_all_spec xs : forall v h l c,
  repr v h l c -> relocatable l -> copyable xs ->
  2 * (len l + len xs) < size_max ->
  exists v' h',
    push_all xs v h = Ok tt v' h' /\
    repr v' h' (l ++ xs) (grow_n (length xs) (len l) c).
Proof.
  induction xs as [|x xs IH]; intros v h l c R Hrel C Hs.
  - exists v, h. simpl. rewrite app_nil_r. auto.
  - inversion C as [|? ? Cx C']; subst. simpl length in Hs.
    destruct (push_back_spec v h l c (Outside x) x R) as (v1 & h1 & E1 & R1 & _);
      [intros _; split; [lia | exact Hrel] | left; reflexivity | exact Cx |].
    destruct (IH v1 h1 (l ++ [x]) (grown (len l) c) R1) as (v2 & h2 & E2 & R2);
      trivial.
    { apply relocatable_app; [assumption | repeat constructor; assumption]. }
    { rewrite length_app. simpl length. lia. }
    exists v2, h2. cbn [push_all]. unfold bind. rewrite E1. split; [exact E2|].
    rewrite <- app_assoc in R2. simpl app in R2.
    rewrite length_app in R2. simpl length in R2.
    replace (Z.of_nat (length l + 1)) with (len l + 1) in R2 by lia.
    exact R2.
Qed.

Lemma grow_n_snoc k : forall s c,
  grow_n (S k) s c = grown (s + Z.of_nat k) (grow_n k s c).
Proof.
  induction k as [|k IH]; intros s c.
  - simpl. now rewrite Z.add_0_r.
  - change (grow_n (S (S k)) s c) with (grow_n (S k) (s + 1) (grown s c)).
    rewrite IH. cbn [grow_n]. f_equal. lia.
Qed.

Lemma capacity_after_succ n :
  capacity_after (S n) = grown (Z.of_nat n) (capacity_after n).
Proof. unfold capacity_after. now rewrite grow_n_snoc. Qed.

Lemma capacity_after_values n :
  capacity_after n = 0 \/ exists k : nat, capacity_after n = 10 * 2 ^ Z.of_nat k.
Proof.
  induction n as [|n IH]; [left; reflexivity|].
  rewrite capacity_after_succ. unfold grown, FIRST_EXPAND_CAPACITY, EXPAND_RATE.
  destruct (Z.eqb_spec (Z.of_nat n) (capacity_after n)) as [E|_]; [|exact IH].
  destruct (Z.eqb_spec (Z.of_nat n) 0) as [_|E0].
  - right. exists O. reflexivity.
  - right. destruct IH as [IH|[k IH]]; [lia|].
    exists (S k). rewrite E, IH, Nat2Z.inj_succ, Z.pow_succ_r by lia. lia.
Qed.

Lemma capacity_after_bounds n :
  Z.of_nat n <= capacity_after n /\
  (10 < capacity_after n -> capacity_after n < 2 * Z.of_nat n) /\
  ((n > 0)%nat -> 10 <= capacity_after n).
Proof.
  induction n as [|n (IH1 & IH2 & IH3)].
  - change (capacity_after 0) with 0. lia.
  - rewrite capacity_after_succ. unfold grown, FIRST_EXPAND_CAPACITY, EXPAND_RATE.
    destruct (Z.eqb_spec (Z.of_nat n) (capacity_after n)) as [E|E].
    + destruct (Z.eqb_spec (Z.of_nat n) 0); lia.
    + destruct n; [change (capacity_after 0) with 0 in E; lia | lia].
Qed.

(** ** A container in a block of its own *)

Lemma repr_block_heap base l c :
  0 < base -> len l <= c < size_max ->
  repr (block_vector base l c) (block_heap base l c) l c.
Proof.
  intros Hb Hc. unfold block_vector, block_heap.
  constructor; simpl; trivial; try lia.
  - intros _. now rewrite Z.eqb_refl.
  - intros i x E.
    assert (i < length l)%nat by (apply nth_error_Some; congruence).
    simpl. destruct (in_range base c (base + Z.of_nat i)) eqn:Er.
    + replace (Z.to_nat (base + Z.of_nat i - base)) with i by lia.
      now rewrite E.
    + apply in_range_false in Er. lia.
  - intros q Hq. simpl. destruct (in_range base c q) eqn:Er.
    + destruct (nth_error l (Z.to_nat (q - base))) eqn:E; [|reflexivity].
      assert (Z.to_nat (q - base) < length l)%nat
        by (apply nth_error_Some; congruence).
      lia.
    + apply in_range_false in Er. lia.
Qed.

Lemma repr_empty_heap : repr null_vector empty_heap [] 0.
Proof. apply repr_null_vector. simpl. lia. Qed.

(** ** Insertion, seen on the list of values *)

Lemma nth_error_inserted (l : list T) (d : nat) x :
  (d <= length l)%nat ->
  nth_error (firstn d l ++ x :: skipn d l) d = Some x.
Proof.
  intros Hd. rewrite nth_error_app2; rewrite length_firstn, Nat.min_l by lia; [|lia].
  now rewrite Nat.sub_diag.
Qed.




(** [push_back(const value_type &)] is [emplace_back] with an lvalue. *)
Lemma push_back_emplace_back_copy r v h :
  push_back r v h = emplace_back (CopyOf r) v h.
Proof. reflexivity. Qed.


(** * The claims *)

(** C10.  [clear()] destroys every live element, so that afterwards [size()]
    is 0 and [empty()] holds, but it does not release the storage block: the
    allocator's record of blocks is untouched and [capacity()] is exactly
    what it was before. *)
Theorem clear_keeps_capacity v h l c :
  repr v h l c ->
  exists v' h',
    clear v h = Ok tt v' h' /\
    contents v' h' = Some [] /\
    size v' = 0 /\
    empty v' = true /\
    capacity v' = capacity v /\
    blocks h' = blocks h /\
    raw_at h' (elem_ v') (capacity v') /\
    repr v' h' [] c.
Proof.
  intros R.
  destruct (clear_spec v h l c R) as (h' & E & R' & B & K).
  exists (set_free (elem_ v) v), h'.
  split; [exact E|].
  split; [exact (repr_contents _ _ _ _ R')|].
  split; [exact (repr_size _ _ _ _ R')|].
  split; [rewrite (repr_empty _ _ _ _ R'); reflexivity|].
  split; [reflexivity|].
  split; [exact B|].
  split; [|exact R'].
  rewrite (repr_capacity _ _ _ _ R').
  pose proof (repr_raw _ _ _ _ R') as Hraw. simpl length in Hraw.
  now rewrite Z.add_0_r, Z.sub_0_r in Hraw.
Qed.


(** C8.  Growth is all or nothing.  When [expand_capacity] has to move the
    elements to a larger block and relocation cannot fail, the container ends
    up in the new block with the same elements.  When the elements have to be
    copied and a copy constructor throws, the elements already built in the
    new block are destroyed (every slot of the new block is raw again at the
    moment the block is given back), the new block is given back to the
    allocator, the exception reaches the caller, and the container is exactly
    as before: same three pointers, hence same size and capacity, same
    elements, and no slot of the old storage touched.  The same holds for a
    [push_back] that finds the container full, whatever its argument. *)
Theorem growth_is_all_or_nothing v h l c n r :
  repr v h l c -> c < n < size_max ->
  (relocatable l ->
     exists v' h',
       expand_capacity n v h = Ok tt v' h' /\ repr v' h' l n) /\
  (nothrow_move_constructible = false ->
   Exists (fun y => copy_throws y = true) l ->
     exists h',
       expand_capacity n v h = Throw CopyFailure v h' /\
       reserve n v h = Throw CopyFailure v h' /\
       repr v h' l c /\
       contents v h' = contents v h /\
       (forall q, cells h' q =
                  if in_range (brk h) n q then Unalloc else cells h q) /\
       blocks h' (brk h) = None /\
       (forall q, q <> brk h -> blocks h' q = blocks h q) /\
       (exists h2,
          uninitialized_copy l (brk h) (snd (allocate n h)) = Failed h2 /\
          raw_at h2 (brk h) n /\
          deallocate (brk h) n h2 = Some h') /\
       (len l = c -> 2 * len l < size_max ->
          exists h2 h'',
            uninitialized_copy l (brk h) (snd (allocate (len l * 2) h))
              = Failed h2 /\
            raw_at h2 (brk h) (len l * 2) /\
            deallocate (brk h) (len l * 2) h2 = Some h'' /\
            push_back r v h = Throw CopyFailure v h'' /\
            repr v h'' l c)).
Proof.
  intros R Hn. split.
  - intros Hrel.
    destruct (expand_capacity_grows v h l c n R Hn Hrel) as (h' & E & R' & _).
    eauto.
  - intros Hmv Hex.
    assert (Hkeep : forall m, c < m < size_max ->
      exists h', expand_capacity m v h = Throw CopyFailure v h' /\
        (forall q, cells h' q =
                   if in_range (brk h) m q then Unalloc else cells h q) /\
        (forall q, blocks h' q = if q =? brk h then None else blocks h q) /\
        repr v h' l c /\
        (exists h2,
           uninitialized_copy l (brk h) (snd (allocate m h)) = Failed h2 /\
           raw_at h2 (brk h) m /\
           deallocate (brk h) m h2 = Some h')).
    { intros m Hm.
      destruct (expand_capacity_throws v h l c m R Hm Hmv Hex)
        as (h' & E & Hc & Hb & Hk).
      exists h'. split; [exact E|]. split; [exact Hc|]. split; [exact Hb|].
      split.
      - apply (repr_frame v h); trivial.
        + intros q Hq. rewrite Hc.
          destruct (in_range (brk h) m q) eqn:Er; [|reflexivity].
          apply in_range_true in Er. destruct R. lia.
        + intros _. rewrite Hb.
          destruct (Z.eqb_spec (elem_ v) (brk h)); [destruct R; lia | reflexivity].
        + destruct R. lia.
      - destruct (expand_capacity_rollback v h l c m R Hm Hmv Hex)
          as (h2 & h0 & E2 & Hraw & Ed & E0).
        rewrite E in E0. injection E0 as <-. eauto. }
    destruct (Hkeep n Hn) as (h' & E & Hc & Hb & R' & Hroll).
    exists h'. split; [exact E|]. split; [exact E|]. split; [exact R'|].
    split; [now rewrite (repr_contents _ _ _ _ R'), (repr_contents _ _ _ _ R)|].
    split; [exact Hc|].
    split; [rewrite Hb; now rewrite Z.eqb_refl|].
    split; [|split; [exact Hroll|]].
    + intros q Hq. rewrite Hb. destruct (Z.eqb_spec q (brk h)); congruence.
    + intros Hfull Hs.
      assert (Hpos : 0 < len l).
      { destruct l; [inversion Hex | simpl length; lia]. }
      destruct (Hkeep (len l * 2)) as (h'' & E'' & _ & _ & R'' & h2 & E2 & Hraw & Ed);
        [lia|].
      exists h2, h''. split; [exact E2|]. split; [exact Hraw|].
      split; [exact Ed|]. split; [|exact R''].
      unfold push_back, check_expand_capacity. unfold bind at 1 2. unfold this at 1.
      rewrite (repr_free _ _ _ _ R), (repr_last _ _ _ _ R).
      replace (elem_ v + len l =? elem_ v + c) with true
        by (symmetry; apply Z.eqb_eq; lia).
      rewrite (repr_empty _ _ _ _ R), (repr_size _ _ _ _ R).
      destruct (Z.eqb_spec (len l) 0) as [|_]; [lia|].
      unfold EXPAND_RATE. rewrite wrap_small by lia.
      now rewrite E''.
Qed.

(** C9.  Copy assignment builds a complete copy of the source in a block of
    its own and then exchanges the three pointers with it; the old block of
    the target is destroyed and released through the temporary.  So the
    target ends up with exactly the source's elements; assigning a container
    to itself returns normally (nothing is released twice) and leaves it with
    the same size and the same elements, with [size() <= capacity()]; and when
    a copy constructor throws while the copy is built, the exception reaches
    the caller and the target keeps its pointers and its elements. *)
Theorem copy_assignment_is_copy_and_swap v other h l l' c c' :
  repr v h l c -> repr other h l' c' ->
  (copyable l' ->
     exists v' h',
       copy_assign other v h = Ok tt v' h' /\
       repr v' h' l' (len l') /\
       contents v' h' = contents other h /\
       size v' = size other) /\
  (copyable l ->
     exists v' h',
       copy_assign v v h = Ok tt v' h' /\
       repr v' h' l (len l) /\
       contents v' h' = contents v h /\
       size v' = size v /\
       size v' <= capacity v') /\
  (Exists (fun y => copy_throws y = true) l' ->
     exists h',
       copy_assign other v h = Throw CopyFailure v h' /\
       repr v h' l c /\
       contents v h' = contents v h).
Proof.
  intros R R'. split; [|split].
  - intros C.
    destruct (copy_assign_spec v other h l l' c c' R R' C) as (v' & h' & E & Rn).
    exists v', h'. split; [exact E|]. split; [exact Rn|].
    rewrite (repr_contents _ _ _ _ Rn), (repr_contents _ _ _ _ R').
    rewrite (repr_size _ _ _ _ Rn), (repr_size _ _ _ _ R'). auto.
  - intros C.
    destruct (copy_assign_spec v v h l l c c R R C) as (v' & h' & E & Rn).
    exists v', h'. split; [exact E|]. split; [exact Rn|].
    rewrite (repr_contents _ _ _ _ Rn), (repr_contents _ _ _ _ R).
    rewrite (repr_size _ _ _ _ Rn), (repr_size _ _ _ _ R).
    rewrite (repr_capacity _ _ _ _ Rn). repeat split; lia.
  - intros Hex.
    destruct (copy_assign_throws v other h l l' c c' R R' Hex) as (h' & E & Rn & _).
    exists h'. split; [exact E|]. split; [exact Rn|].
    now rewrite (repr_contents _ _ _ _ Rn), (repr_contents _ _ _ _ R).
Qed.

(** C5, as the code has it.  When an append finds the container full
    ([free_ == last_]), the capacity becomes [FIRST_EXPAND_CAPACITY = 10] if
    the container is empty and [size() * EXPAND_RATE = size() * 2] otherwise;
    when it is not full the capacity is unchanged.  Hence [n] calls of
    [push_back] on a default-constructed container leave [size() = n] and the
    pushed values in order, and [capacity()] runs through 0, 10, 20, 40, ...:
    it starts at 0, becomes 10 with the first append, doubles with an append
    exactly when the size before it equals the capacity, and otherwise stays
    as it is; so it is always the least of these values that holds the [n]
    elements. *)
Theorem append_growth v h l c xs :
  repr v h l c -> 2 * len l < size_max -> relocatable l ->
  copyable xs -> 2 * len xs < size_max ->
  (exists v' h',
     check_expand_capacity v h = Ok tt v' h' /\
     contents v' h' = Some l /\
     capacity v' =
       if size v =? capacity v
       then (if size v =? 0 then 10 else size v * 2)
       else capacity v) /\
  (exists v' h',
     push_all xs null_vector empty_heap = Ok tt v' h' /\
     contents v' h' = Some xs /\
     size v' = len xs /\
     capacity v' = capacity_after (length xs)) /\
  capacity_after 0 = 0 /\
  capacity_after 1 = 10 /\
  (forall n : nat,
     (n > 0)%nat -> Z.of_nat n = capacity_after n ->
     capacity_after (S n) = 2 * capacity_after n) /\
  (forall n : nat,
     Z.of_nat n <> capacity_after n ->
     capacity_after (S n) = capacity_after n) /\
  (forall n : nat,
     capacity_after n = 0 \/
     exists k : nat, capacity_after n = 10 * 2 ^ Z.of_nat k) /\
  (forall n : nat,
     Z.of_nat n <= capacity_after n /\
     (10 < capacity_after n -> capacity_after n < 2 * Z.of_nat n)).
Proof.
  intros R Hs Hrel C Hxs.
  split; [|split; [|split; [|split; [|split; [|split; [|split]]]]]].
  - destruct (check_expand_capacity_spec v h l c R Hs Hrel) as (v' & h' & E & R' & _).
    exists v', h'. split; [exact E|].
    split; [exact (repr_contents _ _ _ _ R')|].
    rewrite (repr_capacity _ _ _ _ R'), (repr_capacity _ _ _ _ R),
      (repr_size _ _ _ _ R).
    reflexivity.
  - destruct (push_all_spec xs null_vector empty_heap [] 0)
      as (v' & h' & E & R');
      [apply repr_empty_heap | apply relocatable_nil | exact C
      | simpl length; lia |].
    exists v', h'. simpl app in R'. split; [exact E|].
    split; [exact (repr_contents _ _ _ _ R')|].
    split; [exact (repr_size _ _ _ _ R')|].
    exact (repr_capacity _ _ _ _ R').
  - reflexivity.
  - reflexivity.
  - intros n Hn En. rewrite capacity_after_succ. unfold grown, EXPAND_RATE.
    destruct (Z.eqb_spec (Z.of_nat n) (capacity_after n)); [|lia].
    destruct (Z.eqb_spec (Z.of_nat n) 0); lia.
  - intros n En. rewrite capacity_after_succ. unfold grown.
    destruct (Z.eqb_spec (Z.of_nat n) (capacity_after n)); [lia | reflexivity].
  - apply capacity_after_values.
  - intros n. destruct (capacity_after_bounds n) as (B1 & B2 & _). auto.
Qed.

(** C3, for the accessors that can be instantiated.  [at(i)], [operator[](i)]
    and [operator[](i) const] throw [std::out_of_range], leaving the container
    as it is, if and only if [i >= size()], and otherwise return the [i]-th
    element; the three obey the same rule.  ([at(i) const] is not part of the
    embedding: its body calls [at] without an argument.) *)
Theorem indexed_access_checked v h l c i :
  repr v h l c -> 0 <= i < size_max ->
  (size v <= i <->
     at_ i v h = Throw OutOfRange v h) /\
  (i < size v ->
     exists x, nth_error l (Z.to_nat i) = Some x /\ at_ i v h = Ok x v h) /\
  subscript i v h = at_ i v h /\
  subscript_const i v h = at_ i v h.
Proof.
  intros R Hi.
  change (subscript_const i v h) with (at_ i v h).
  change (subscript i v h) with (at_ i v h).
  rewrite (repr_size _ _ _ _ R), (at_spec _ _ _ _ _ R) by lia.
  split; [|split; [|split; reflexivity]].
  - destruct (nth_error l (Z.to_nat i)) as [x|] eqn:E.
    + assert (Z.to_nat i < length l)%nat by (apply nth_error_Some; congruence).
      split; [lia | discriminate].
    + apply nth_error_None in E. split; [reflexivity | lia].
  - intros Hlt. destruct (nth_error l (Z.to_nat i)) as [x|] eqn:E; [eauto|].
    apply nth_error_None in E. lia.
Qed.

(** * Further properties of the code *)

(** ** Appending *)








Lemma load_run_raw n : forall p h k,
  (k < n)%nat -> cells h (p + Z.of_nat k) = Uninit -> load_run n p h = None.
Proof.
  induction n as [|n IH]; intros p h k Hk C; [lia|].
  cbn [load_run]. unfold load. destruct k as [|k].
  - rewrite Z.add_0_r in C. now rewrite C.
  - destruct (cells h p); try reflexivity.
    rewrite (IH (p + 1) h k); [reflexivity | lia |].
    rewrite <- C. f_equal. lia.
Qed.

(** X3.  [push_back(const value_type &)], like [emplace_back] with an lvalue,
    advances [free_] before the copy constructor runs.  When the copy throws,
    the exception leaves the container with a size one larger than before
    and a last slot that holds no object: its elements can no longer be read
    as a whole and [back()] is undefined. *)
Theorem push_back_throwing_copy v h l c r x :
  repr v h l c ->
  (len l = c -> 2 * len l < size_max /\ relocatable l) ->
  reads_for_append v l c r h x ->
  copy_throws x = true ->
  exists v' h',
    push_back r v h = Throw CopyFailure v' h' /\
    emplace_back (CopyOf r) v h = Throw CopyFailure v' h' /\
    size v' = size v + 1 /\
    cells h' (end_ v' - 1) = Uninit /\
    contents v' h' = None /\
    back v' h' = Undefined.
Proof.
  intros R Hfull Hr Cx.
  destruct (check_expand_capacity_reads v h l c r x R Hfull Hr)
    as (v1 & h1 & E & R1 & Ef & _).
  assert (Hroom : len l < grown (len l) c)
    by (apply grown_room; destruct R; lia).
  pose proof (repr_free _ _ _ _ R1) as Hf.
  assert (Hraw : cells h1 (free_ v1) = Uninit)
    by (apply (repr_raw _ _ _ _ R1); lia).
  exists (set_free (free_ v1 + 1) v1), h1.
  assert (Ep : push_back r v h
               = Throw CopyFailure (set_free (free_ v1 + 1) v1) h1).
  { unfold push_back, make, bind, this, put, throw, deref_arg.
    now rewrite E, Ef, Cx. }
  split; [exact Ep|]. split; [exact Ep|].
  split; [|split; [|split]].
  - rewrite (repr_size _ _ _ _ R). unfold size. simpl.
    replace (free_ v1 + 1 - elem_ v1) with (len l + 1) by lia.
    apply wrap_small. pose proof size_max_val. pose proof (repr_fits _ _ _ _ R1).
    pose proof (repr_bound _ _ _ _ R1). lia.
  - unfold end_. simpl. now replace (free_ v1 + 1 - 1) with (free_ v1) by lia.
  - unfold contents, read_range, begin_, end_. simpl.
    destruct (Z.leb_spec (elem_ v1) (free_ v1 + 1)); [|reflexivity].
    apply (load_run_raw _ _ _ (length l)); [lia|].
    now rewrite <- Hf.
  - unfold back, bind, this, deref, load. simpl.
    assert (Hne : elem_ v1 <> 0).
    { intros E0. pose proof (repr_null _ _ _ _ R1 E0). lia. }
    destruct (Z.eqb_spec (elem_ v1) 0); [contradiction|]. simpl.
    replace (free_ v1 + 1 - 1) with (free_ v1) by lia. now rewrite Hraw.
Qed.

Lemma push_back_with_room_aux v h l c x :
  repr v h l c -> len l < c -> copy_throws x = false ->
  push_back (Outside x) v h
    = Ok tt (set_free (free_ v + 1) v) (store (free_ v) (Live x) h) /\
  repr (set_free (free_ v + 1) v) (store (free_ v) (Live x) h) (l ++ [x]) c.
Proof.
  intros R Hc Cx.
  destruct (repr_append v h l c x R Hc) as [Ec Ra].
  split; [|exact Ra].
  unfold push_back, bind, this, put, on_heap.
  rewrite (check_expand_capacity_room v h l c R Hc).
  rewrite (make_reads (CopyOf (Outside x)) x) by (trivial; exact Cx).
  now rewrite Ec.
Qed.

(** Appends that fit do not move the block. *)
Lemma push_all_room xs : forall v h l c,
  repr v h l c -> copyable xs -> len l + len xs <= c ->
  exists v' h',
    push_all xs v h = Ok tt v' h' /\
    repr v' h' (l ++ xs) c /\
    elem_ v' = elem_ v /\ last_ v' = last_ v /\
    (forall q, ~ (free_ v <= q < free_ v + len xs) -> cells h' q = cells h q).
Proof.
  induction xs as [|x xs IH]; intros v h l c R C Hc.
  - exists v, h. simpl. rewrite app_nil_r. auto.
  - inversion C as [|? ? Cx C']; subst. simpl length in Hc.
    destruct (push_back_with_room_aux v h l c x R) as (E1 & R1); [lia | exact Cx |].
    destruct (IH _ _ (l ++ [x]) c R1 C') as (v2 & h2 & E2 & R2 & He & Hl & F).
    { rewrite length_app. simpl length. lia. }
    exists v2, h2. cbn [push_all]. unfold bind. rewrite E1.
    split; [exact E2|]. rewrite <- app_assoc in R2. simpl app in R2.
    split; [exact R2|]. split; [exact He|]. split; [exact Hl|].
    intros q Hq. simpl length in Hq. simpl free_ in F. rewrite F by lia. simpl.
    destruct (Z.eqb_spec q (free_ v)); [lia | reflexivity].
Qed.


(** ** Removing *)

Lemma erase_spec v h l c position :
  repr v h l c -> elem_ v <= position < free_ v ->
  exists h',
    erase position v h = Ok position (set_free (free_ v - 1) v) h' /\
    repr (set_free (free_ v - 1) v) h'
      (firstn (Z.to_nat (position - elem_ v)) l ++
       skipn (S (Z.to_nat (position - elem_ v))) l) c.
Proof.
  intros R Hpos.
  pose proof (repr_free _ _ _ _ R) as Hf.
  set (d := Z.to_nat (position - elem_ v)).
  assert (Hp : position = elem_ v + Z.of_nat d) by (subst d; lia).
  assert (Hd : (d < length l)%nat) by lia.
  set (l3 := skipn (S d) l).
  assert (Hl3 : len l3 = len l - Z.of_nat d - 1)
    by (subst l3; rewrite length_skipn; lia).
  assert (Hl1 : length (firstn d l) = d) by (rewrite length_firstn; lia).
  pose proof (repr_live _ _ _ _ R) as L.
  assert (L3 : live_at h (position + 1) l3).
  { replace (position + 1) with (elem_ v + Z.of_nat (S d)) by lia.
    apply live_at_skipn; [lia | exact L]. }
  assert (Hmid : exists h1,
    (if negb (position + 1 =? cend v)
     then on_heap (fun h0 => option_map snd
                     (std_move (position + 1) (cend v) position h0))
     else ret tt) v h = Ok tt v h1 /\
    live_at h1 position l3 /\
    (forall q, ~ (position <= q < position + len l3) -> cells h1 q = cells h q) /\
    blocks h1 = blocks h /\ brk h1 = brk h).
  { unfold cend, end_. destruct (Z.eqb_spec (position + 1) (free_ v)) as [Ee|Ee].
    - exists h. simpl. unfold ret. split; [reflexivity|].
      assert (length l3 = O) by lia.
      destruct l3; [|discriminate]. auto using live_at_nil.
    - simpl. unfold on_heap, std_move.
      destruct (Z.leb_spec (position + 1) (free_ v)) as [_|]; [|lia].
      replace (Z.to_nat (free_ v - (position + 1))) with (length l3) by lia.
      destruct (move_run_left l3 (position + 1) position h)
        as (h1 & E1 & L1 & F1 & B1 & K1); trivial; [lia | |].
      { intros q Hq. apply (live_at_is_live h (elem_ v) l); [exact L | lia]. }
      rewrite E1. simpl. exists h1. auto. }
  destruct Hmid as (h1 & Em & L1 & F1 & B1 & K1).
  unfold erase. unfold bind at 1. unfold this at 1.
  unfold cbegin, cend, begin_, end_ in *. rewrite Z.geb_leb.
  destruct (Z.ltb_spec position (elem_ v)) as [|_]; [lia|].
  destruct (Z.leb_spec (free_ v) position) as [|_]; [lia|].
  cbn [orb]. unfold bind at 1. rewrite Em.
  unfold bind, put, on_heap, ret, destroy.
  assert (exists y, cells h1 (free_ v - 1) = Live y) as [y Cy].
  { rewrite F1 by lia. apply (live_at_is_live h (elem_ v) l); [exact L | lia]. }
  rewrite Cy. eexists. split; [reflexivity|].
  destruct R.
  constructor; simpl; trivial; rewrite ?length_app, ?Hl1; try lia.
  - intros E0. rewrite B1. auto.
  - apply live_at_app. split.
    + apply live_at_firstn with (n := d) in L.
      eapply live_at_frame; [|exact L]. intros q Hq. rewrite Hl1 in Hq.
      simpl. destruct (Z.eqb_spec q (free_ v - 1)); [lia|].
      apply F1. lia.
    + rewrite Hl1, <- Hp. fold l3.
      eapply live_at_frame; [|exact L1]. intros q Hq. simpl.
      destruct (Z.eqb_spec q (free_ v - 1)); [lia | reflexivity].
  - fold l3. intros q Hq. simpl.
    destruct (Z.eqb_spec q (free_ v - 1)); [reflexivity|].
    rewrite F1 by lia. apply repr_raw0. lia.
Qed.

Lemma erase_out_of_range v h position :
  position < elem_ v \/ free_ v <= position ->
  erase position v h = Throw OutOfRange v h.
Proof.
  intros Hpos. unfold erase, bind, this, cbegin, cend, begin_, end_.
  rewrite Z.geb_leb.
  destruct (Z.ltb_spec position (elem_ v)); [reflexivity|].
  destruct (Z.leb_spec (free_ v) position); [reflexivity | lia].
Qed.

Lemma nth_error_erased_before (l : list T) (d i : nat) :
  (i < d)%nat ->
  nth_error (firstn d l ++ skipn (S d) l) i = nth_error l i.
Proof.
  intros Hi. destruct (Nat.lt_ge_cases i (length l)) as [Hl|Hl].
  - rewrite nth_error_app1 by (rewrite length_firstn; lia).
    now rewrite nth_error_firstn, (proj2 (Nat.ltb_lt i d) Hi).
  - rewrite (proj2 (nth_error_None l i) Hl).
    apply nth_error_None. rewrite length_app, length_firstn, length_skipn. lia.
Qed.

Lemma nth_error_erased_after (l : list T) (d i : nat) :
  (d <= i)%nat -> (d < length l)%nat ->
  nth_error (firstn d l ++ skipn (S d) l) i = nth_error l (S i).
Proof.
  intros Hi Hd.
  rewrite nth_error_app2; rewrite length_firstn, Nat.min_l by lia; [|lia].
  rewrite nth_error_skipn. f_equal. lia.
Qed.

(** X5.  [erase(position)] throws [std::out_of_range], changing nothing, for
    a position before [begin()] or at or after [end()] (so always on an empty
    container).  For a position inside, it removes exactly the element
    there: the elements before keep their index, the elements after move one
    index down in the same order, the size is one smaller, the block is
    kept, and the iterator returned is the position itself, which now
    designates the element that followed. *)
Theorem erase_removes_one v h l c position :
  repr v h l c ->
  (position < begin_ v \/ end_ v <= position ->
     erase position v h = Throw OutOfRange v h) /\
  (begin_ v <= position < end_ v ->
     exists v' h',
       erase position v h = Ok position v' h' /\
       repr v' h'
         (firstn (Z.to_nat (position - begin_ v)) l ++
          skipn (S (Z.to_nat (position - begin_ v))) l) c /\
       size v' = size v - 1 /\
       begin_ v' = begin_ v /\ capacity v' = capacity v /\
       (forall i y, 0 <= i < position - begin_ v ->
                    at_ i v h = Ok y v h -> at_ i v' h' = Ok y v' h') /\
       (forall i y, position - begin_ v <= i ->
                    at_ (i + 1) v h = Ok y v h -> at_ i v' h' = Ok y v' h')).
Proof.
  intros R. unfold begin_, end_. split.
  - apply erase_out_of_range.
  - intros Hpos.
    destruct (erase_spec v h l c position R Hpos) as (h' & E & R').
    set (d := Z.to_nat (position - elem_ v)) in *.
    pose proof (repr_free _ _ _ _ R) as Hf.
    exists (set_free (free_ v - 1) v), h'.
    split; [exact E|]. split; [exact R'|].
    assert (Hlen : len (firstn d l ++ skipn (S d) l) = len l - 1).
    { rewrite length_app, length_firstn, length_skipn. lia. }
    split; [now rewrite (repr_size _ _ _ _ R'), (repr_size _ _ _ _ R)|].
    split; [reflexivity|]. split; [reflexivity|].
    split; intros i y Hi.
    + rewrite (at_spec _ _ _ _ _ R'), (at_spec _ _ _ _ _ R) by lia.
      rewrite nth_error_erased_before by lia.
      destruct (nth_error l (Z.to_nat i)); [|discriminate].
      now intros [= ->].
    + rewrite (at_spec _ _ _ _ _ R'), (at_spec _ _ _ _ _ R) by lia.
      replace (Z.to_nat (i + 1)) with (S (Z.to_nat i)) by lia.
      destruct (nth_error l (S (Z.to_nat i))) eqn:Ei; [|discriminate].
      intros [= ->].
      assert (S (Z.to_nat i) < length l)%nat by (apply nth_error_Some; congruence).
      rewrite nth_error_erased_after by lia. now rewrite Ei.
Qed.


(** X7.  [resize(n, value)] with [n] not larger than the size keeps the first
    [n] elements and drops the rest; the block and the capacity stay, and
    [value] plays no part. *)
Theorem resize_down v h l c n value :
  repr v h l c -> 0 <= n <= size v ->
  exists v' h',
    resize n value v h = Ok tt v' h' /\
    contents v' h' = Some (firstn (Z.to_nat n) l) /\
    size v' = n /\
    begin_ v' = begin_ v /\ capacity v' = capacity v /\
    (n = size v -> v' = v /\ h' = h).
Proof.
  intros R Hn. pose proof (repr_size _ _ _ _ R) as Hsz. rewrite Hsz in Hn.
  pose proof (repr_free _ _ _ _ R) as Hf.
  destruct (Z.eq_dec n (len l)) as [->|Hne].
  - exists v, h. rewrite <- Hsz at 1. rewrite resize_same.
    split; [reflexivity|].
    rewrite Nat2Z.id, firstn_all.
    split; [exact (repr_contents _ _ _ _ R)|]. auto.
  - unfold resize. unfold bind at 1. unfold this at 1. rewrite Hsz.
    destruct (Z.ltb_spec n (len l)) as [_|]; [|lia].
    destruct (erase_range_spec v h l c (begin_ v + n) (end_ v) R)
      as (h' & E & R'); unfold begin_, end_ in *; try lia.
    unfold bind. rewrite E. unfold ret.
    exists (set_free (elem_ v + n + (free_ v - free_ v)) v), h'.
    split; [reflexivity|].
    replace (elem_ v + n - elem_ v) with n in R' by lia.
    replace (Z.to_nat (free_ v - elem_ v)) with (length l) in R' by lia.
    rewrite skipn_all, app_nil_r in R'.
    split; [exact (repr_contents _ _ _ _ R')|].
    split; [rewrite (repr_size _ _ _ _ R'), length_firstn; lia|].
    split; [reflexivity|]. split; [reflexivity | lia].
Qed.

(** ** Inserting several values *)

Lemma relocatable_insert A B x :
  relocatable (A ++ B) -> copy_throws x = false -> relocatable (A ++ x :: B).
Proof.
  unfold relocatable, copyable. destruct nothrow_move_constructible; [trivial|].
  intros F Cx. apply Forall_app in F. destruct F as [FA FB].
  apply Forall_app. split; [exact FA | now constructor].
Qed.

Lemma insert_after_prefix v h A B c r x :
  repr v h (A ++ B) c -> 2 * len (A ++ B) < size_max ->
  relocatable (A ++ B) -> fetch r h = Some x -> copy_throws x = false ->
  exists v' h',
    insert (elem_ v + len A) r v h = Ok (elem_ v' + len A) v' h' /\
    repr v' h' (A ++ x :: B) (grown (len (A ++ B)) c) /\
    untouched_outside v c h h' /\
    same_or_fresh v c h v' (grown (len (A ++ B)) c).
Proof.
  intros R Hs Hrel Er Cx.
  pose proof (repr_free _ _ _ _ R) as Hf. rewrite length_app in Hf.
  destruct (emplace_spec v h (A ++ B) c (elem_ v + len A) (MoveOf (Outside x)) x R)
    as (v' & h' & E & R' & F & Hblk);
    [auto | reflexivity | exact I | lia |].
  replace (elem_ v + len A - elem_ v) with (len A) in * by lia.
  rewrite Nat2Z.id in R'.
  rewrite firstn_app, firstn_all, Nat.sub_diag, firstn_0, app_nil_r in R'.
  rewrite skipn_app, skipn_all, Nat.sub_diag, skipn_O in R'. simpl app in R'.
  exists v', h'. rewrite (insert_reads _ r x v h Er Cx). auto.
Qed.

Lemma repeat_cons_app (x : T) k B :
  repeat x k ++ x :: B = x :: repeat x k ++ B.
Proof. induction k as [|k IH]; simpl; [reflexivity | now rewrite IH]. Qed.

(** The loop of [insert(position, n, value)] for a [value] outside the
    container's block: every round reads the same value. *)
Lemma insert_loop_spec r x k : forall v h A B c,
  repr v h (A ++ B) c -> relocatable (A ++ B) ->
  reads_apart v c r h x -> copy_throws x = false ->
  2 * (len (A ++ B) + Z.of_nat k) < size_max ->
  exists v' h',
    insert_loop k (elem_ v + len A) r v h = Ok (elem_ v' + len A) v' h' /\
    repr v' h' (A ++ repeat x k ++ B) (grow_n k (len (A ++ B)) c).
Proof.
  induction k as [|k IH]; intros v h A B c R Hrel Hr Cx Hs.
  - exists v, h. simpl. auto.
  - destruct (insert_after_prefix v h A B c r x R)
      as (v1 & h1 & E1 & R1 & F1 & Hblk1); trivial; [lia | |].
    { exact (reads_apart_fetch _ _ _ _ _ Hr). }
    destruct (IH v1 h1 A (x :: B) _ R1) as (v2 & h2 & E2 & R2); trivial.
    { now apply relocatable_insert. }
    { now apply (reads_apart_moved v c r h x). }
    { rewrite length_app in *. simpl length. lia. }
    exists v2, h2. cbn [insert_loop]. unfold bind. rewrite E1.
    split; [exact E2|].
    rewrite repeat_cons_app in R2. cbn [grow_n repeat]. simpl app.
    replace (len (A ++ x :: B)) with (len (A ++ B) + 1) in R2
      by (rewrite !length_app; simpl length; lia).
    exact R2.
Qed.

Lemma insert_each_spec src : forall v h A B c,
  repr v h (A ++ B) c -> relocatable (A ++ B) -> copyable src ->
  2 * (len (A ++ B) + len src) < size_max ->
  exists v' h',
    insert_each src (elem_ v + len A) v h
      = Ok (elem_ v' + len A + len src) v' h' /\
    repr v' h' (A ++ src ++ B) (grow_n (length src) (len (A ++ B)) c).
Proof.
  induction src as [|x src IH]; intros v h A B c R Hrel C Hs.
  - exists v, h. simpl. rewrite Z.add_0_r. auto.
  - inversion C as [|? ? Cx C']; subst. simpl length in Hs.
    destruct (insert_after_prefix v h A B c (Outside x) x R)
      as (v1 & h1 & E1 & R1 & _); trivial; [lia|].
    replace (A ++ x :: B) with ((A ++ [x]) ++ B) in R1
      by (rewrite <- app_assoc; reflexivity).
    destruct (IH v1 h1 (A ++ [x]) B _ R1) as (v2 & h2 & E2 & R2); trivial.
    { rewrite <- app_assoc. simpl app. now apply relocatable_insert. }
    { rewrite !length_app in *. simpl length. lia. }
    exists v2, h2. cbn [insert_each]. unfold bind. rewrite E1.
    replace (elem_ v1 + len A + 1) with (elem_ v1 + len (A ++ [x]))
      by (rewrite length_app; simpl length; lia).
    rewrite E2. split.
    + f_equal. rewrite length_app. simpl length. lia.
    + rewrite <- !app_assoc in R2. simpl app in R2. cbn [grow_n length].
      replace (len (A ++ x :: B)) with (len (A ++ B) + 1) in R2
        by (rewrite !length_app; simpl length; lia).
      exact R2.
Qed.

(** X8.  [insert(position, n, value)] with [n = 0] returns [position] without
    looking at it and changes nothing.  With [n > 0] it throws
    [std::out_of_range], changing nothing, for a position outside
    [[begin(), end()]].  Every round of its loop reads [value] again, so the
    rest is for a [value] that is not an element of the container: for a
    position inside it puts [n] copies of [value] there, keeps every old
    element and their order, makes the size larger by [n], and returns an
    iterator to the first copy. *)
Theorem insert_copies v h l c position n value x :
  repr v h l c -> relocatable l ->
  reads_apart v c value h x -> copy_throws x = false ->
  0 <= n -> 2 * (len l + n) < size_max ->
  insert_n position 0 value v h = Ok position v h /\
  (0 < n -> position < begin_ v \/ end_ v < position ->
     insert_n position n value v h = Throw OutOfRange v h) /\
  (begin_ v <= position <= end_ v ->
     exists v' h',
       insert_n position n value v h
         = Ok (begin_ v' + (position - begin_ v)) v' h' /\
       contents v' h'
         = Some (firstn (Z.to_nat (position - begin_ v)) l ++
                 repeat x (Z.to_nat n) ++
                 skipn (Z.to_nat (position - begin_ v)) l) /\
       size v' = size v + n /\
       size v' <= capacity v').
Proof.
  intros R Hrel Hr Cx Hn Hs. unfold begin_, end_.
  pose proof (reads_apart_fetch _ _ _ _ _ Hr) as Er.
  split; [reflexivity|]. split.
  - intros Hpos Hout. unfold insert_n.
    destruct (Z.eqb_spec n 0); [lia|].
    destruct (Z.to_nat n) as [|k] eqn:Ek; [lia|].
    cbn [insert_loop]. unfold bind.
    now rewrite (insert_reads position value x v h Er Cx), emplace_out_of_range.
  - intros Hpos. pose proof (repr_free _ _ _ _ R) as Hf.
    set (d := Z.to_nat (position - elem_ v)).
    assert (Hd : (d <= length l)%nat) by (subst d; lia).
    assert (El : l = firstn d l ++ skipn d l) by (symmetry; apply firstn_skipn).
    assert (Hl1 : length (firstn d l) = d) by (rewrite length_firstn; lia).
    rewrite El in R, Hrel.
    destruct (insert_loop_spec value x (Z.to_nat n) v h (firstn d l) (skipn d l) c R)
      as (v' & h' & E & R'); trivial.
    { rewrite <- El. lia. }
    rewrite Hl1 in E.
    replace (elem_ v + Z.of_nat d) with position in E by (subst d; lia).
    exists v', h'. split.
    + unfold insert_n. destruct (Z.eqb_spec n 0) as [->|_].
      * simpl in E. unfold ret in *. rewrite E. f_equal. subst d. lia.
      * rewrite E. f_equal. subst d. lia.
    + split; [exact (repr_contents _ _ _ _ R')|].
      rewrite (repr_size _ _ _ _ R'), (repr_size _ _ _ _ R).
      rewrite (repr_capacity _ _ _ _ R').
      pose proof (repr_fits _ _ _ _ R') as Hfit.
      rewrite !length_app, repeat_length in *. split; lia.
Qed.

(** X9.  [insert(position, first, last)] (and the initializer-list form) with
    an empty range returns [position] without looking at it and changes
    nothing.  With a non-empty range it throws [std::out_of_range], changing
    nothing, for a position outside [[begin(), end()]]; for a position inside
    it puts the values of the range there in their order, keeps every old
    element and their order, makes the size larger by the length of the
    range, and returns an iterator to the first inserted value. *)
Theorem insert_range_in_order v h l c position src :
  repr v h l c -> relocatable l -> copyable src ->
  2 * (len l + len src) < size_max ->
  insert_range position [] v h = Ok position v h /\
  (src <> [] -> position < begin_ v \/ end_ v < position ->
     insert_range position src v h = Throw OutOfRange v h) /\
  (begin_ v <= position <= end_ v ->
     exists v' h',
       insert_range position src v h
         = Ok (begin_ v' + (position - begin_ v)) v' h' /\
       contents v' h'
         = Some (firstn (Z.to_nat (position - begin_ v)) l ++
                 src ++
                 skipn (Z.to_nat (position - begin_ v)) l) /\
       size v' = size v + len src /\
       size v' <= capacity v').
Proof.
  intros R Hrel C Hs. unfold begin_, end_.
  split; [reflexivity|]. split.
  - intros Hne Hout. destruct src as [|x src]; [contradiction|].
    inversion C as [|? ? Cx C']; subst.
    unfold insert_range. cbn [insert_each]. unfold bind.
    now rewrite (insert_reads position (Outside x) x v h eq_refl Cx),
      emplace_out_of_range.
  - intros Hpos. pose proof (repr_free _ _ _ _ R) as Hf.
    set (d := Z.to_nat (position - elem_ v)).
    assert (Hd : (d <= length l)%nat) by (subst d; lia).
    assert (El : l = firstn d l ++ skipn d l) by (symmetry; apply firstn_skipn).
    assert (Hl1 : length (firstn d l) = d) by (rewrite length_firstn; lia).
    rewrite El in R, Hrel.
    destruct (insert_each_spec src v h (firstn d l) (skipn d l) c R)
      as (v' & h' & E & R'); trivial.
    { rewrite <- El. lia. }
    rewrite Hl1 in E.
    replace (elem_ v + Z.of_nat d) with position in E by (subst d; lia).
    exists v', h'. split.
    + destruct src as [|x src].
      * simpl in E. unfold ret in *. simpl. unfold ret. rewrite E.
        f_equal. subst d. simpl length. lia.
      * unfold insert_range, bind. rewrite E. unfold ret. f_equal. subst d. lia.
    + split; [exact (repr_contents _ _ _ _ R')|].
      rewrite (repr_size _ _ _ _ R'), (repr_size _ _ _ _ R).
      rewrite (repr_capacity _ _ _ _ R').
      pose proof (repr_fits _ _ _ _ R') as Hfit.
      rewrite !length_app in *. split; lia.
Qed.

(** ** Releasing, constructing and assigning *)

(** [clear_elements()] leaves nothing behind. *)
Lemma clear_elements_releases v h l c :
  repr v h l c ->
  exists h',
    clear_elements v h = Ok tt null_vector h' /\
    (forall q, cells h' q = if in_range (elem_ v) c q then Unalloc else cells h q) /\
    (elem_ v <> 0 -> blocks h' (elem_ v) = None) /\
    (forall q, q <> elem_ v -> blocks h' q = blocks h q) /\
    brk h' = brk h.
Proof.
  intros R. unfold clear_elements, bind, this.
  destruct (Z.eqb_spec (elem_ v) 0) as [E0|E0].
  - exists h. unfold ret. pose proof (repr_null _ _ _ _ R E0) as Hc.
    split.
    { destruct v as [e f t]. destruct R. simpl in *. unfold null_vector.
      replace e with 0 by lia. replace f with 0 by lia. replace t with 0 by lia.
      reflexivity. }
    split; [|split; [contradiction | auto]].
    intros q. destruct (in_range (elem_ v) c q) eqn:Er; [|reflexivity].
    apply in_range_true in Er. lia.
  - destruct (destruct_elements_live h (elem_ v) (free_ v) l) as (h1 & E & Hc & Hb & Hk).
    { apply R. } { apply R. }
    unfold on_heap, put. rewrite E. cbv beta iota. unfold deallocate.
    rewrite Hb, (repr_capacity _ _ _ _ R), (repr_block _ _ _ _ R E0), Z.eqb_refl.
    eexists. split; [reflexivity|]. simpl.
    split; [|split; [|split]].
    + intros q. destruct (in_range (elem_ v) c q) eqn:E1; [reflexivity|].
      rewrite Hc. destruct (in_range (elem_ v) (len l) q) eqn:E2; [|reflexivity].
      apply in_range_true in E2. apply in_range_false in E1. destruct R. lia.
    + intros _. now rewrite Z.eqb_refl.
    + intros q Hq. destruct (Z.eqb_spec q (elem_ v)); congruence.
    + exact Hk.
Qed.

Lemma copyable_repeat (value : T) (n : nat) :
  copy_throws value = false -> copyable (repeat value n).
Proof. intros Cx. induction n; simpl; constructor; assumption. Qed.

(** [std::uninitialized_fill] from a reference to an object that the slots
    being filled do not hold makes copies of one value. *)
Lemma uninitialized_fill_from_copy d_first r x k : forall cur h,
  match r with
  | Outside y => y = x
  | Inside p => cells h p = Live x /\ ~ (cur <= p < cur + Z.of_nat k)
  end ->
  uninitialized_fill_from d_first k r cur h
    = uninitialized_copy_from d_first (repeat x k) cur h.
Proof.
  induction k as [|k IH]; intros cur h Hr; [reflexivity|].
  cbn [uninitialized_fill_from repeat uninitialized_copy_from].
  assert (Ef : fetch r h = Some x).
  { destruct r as [y|p]; simpl; [now subst|].
    unfold load. now rewrite (proj1 Hr). }
  rewrite Ef. destruct (copy_throws x); [reflexivity|].
  unfold construct. destruct (cells h cur) eqn:Ec; try reflexivity.
  apply IH. destruct r as [y|p]; [exact Hr|].
  destruct Hr as [C Hout]. simpl. split.
  - destruct (Z.eqb_spec p cur); [lia | exact C].
  - lia.
Qed.

(** A fresh container of [n] copies of [value], an object that existed
    before. *)
Lemma create_elements_fill_spec n value x v c h :
  reads_apart v c value h x ->
  copy_throws x = false -> 0 < brk h -> 0 <= n < size_max ->
  exists v' h',
    create_elements_fill n value null_vector h = Ok tt v' h' /\
    repr v' h' (repeat x (Z.to_nat n)) n /\
    (forall q, q < brk h -> cells h' q = cells h q /\ blocks h' q = blocks h q) /\
    brk h <= brk h' /\ elem_ v' = brk h.
Proof.
  intros Hr Cx K Hn. unfold create_elements_fill, allocate, uninitialized_fill.
  set (h1 := mkheap _ _ _). set (l := repeat x (Z.to_nat n)).
  assert (Hl : len l = n) by (subst l; rewrite repeat_length; lia).
  rewrite (uninitialized_fill_from_copy (brk h) value x).
  2: { destruct value as [y|p]; simpl in Hr |- *; [exact Hr|].
       destruct Hr as (Hp & C & _). split; [|lia].
       destruct (in_range (brk h) n p) eqn:Er; [|exact C].
       apply in_range_true in Er. lia. }
  fold l.
  destruct (uninitialized_copy_from_raw (brk h) l (brk h) h1)
    as (h2 & E & L & F & B & K2).
  { subst l. now apply copyable_repeat. }
  { intros q Hq. subst h1. simpl.
    destruct (in_range (brk h) n q) eqn:Er; [reflexivity|].
    apply in_range_false in Er. lia. }
  unfold adopt. unfold uninitialized_copy in E. rewrite E.
  exists (mkvector (brk h) (brk h + len l) (brk h + len l)), h2.
  split; [reflexivity|]. split; [|split; [|split]].
  - constructor; simpl; trivial; try lia.
    + intros _. rewrite B. subst h1. simpl. now rewrite Z.eqb_refl.
    + rewrite K2. subst h1. simpl. lia.
    + intros q Hq. lia.
  - intros q Hq. rewrite F by lia. rewrite B. subst h1. simpl.
    destruct (in_range (brk h) n q) eqn:E1.
    { apply in_range_true in E1. lia. }
    destruct (Z.eqb_spec q (brk h)); [lia | auto].
  - rewrite K2. subst h1. simpl. lia.
  - reflexivity.
Qed.

(** [clear_elements()] on a container that owns a block, step by step: the
    elements are destroyed, which leaves every slot of the block raw, and
    then the block is handed back. *)
Lemma clear_elements_steps v h l c :
  repr v h l c -> elem_ v <> 0 ->
  exists h0 h',
    destruct_elements (elem_ v) (free_ v) h = Some h0 /\
    raw_at h0 (elem_ v) c /\
    (forall q, ~ (elem_ v <= q < free_ v) -> cells h0 q = cells h q) /\
    deallocate (elem_ v) c h0 = Some h' /\
    clear_elements v h = Ok tt null_vector h'.
Proof.
  intros R E0. pose proof (repr_free _ _ _ _ R) as Hf.
  destruct (destruct_elements_live h (elem_ v) (free_ v) l) as (h0 & E & Hc & Hb & Hk).
  { apply R. } { apply R. }
  assert (Ed : exists h', deallocate (elem_ v) c h0 = Some h').
  { unfold deallocate. rewrite Hb, (repr_block _ _ _ _ R E0), Z.eqb_refl. eauto. }
  destruct Ed as [h' Ed]. exists h0, h'.
  split; [exact E|]. split; [|split; [|split; [exact Ed|]]].
  - intros q Hq. rewrite Hc.
    destruct (in_range (elem_ v) (len l) q) eqn:Er; [reflexivity|].
    apply in_range_false in Er. apply (repr_raw _ _ _ _ R). lia.
  - intros q Hq. rewrite Hc.
    destruct (in_range (elem_ v) (len l) q) eqn:Er; [|reflexivity].
    apply in_range_true in Er. lia.
  - unfold clear_elements, bind, this, on_heap, put.
    destruct (Z.eqb_spec (elem_ v) 0) as [|_]; [contradiction|].
    now rewrite E, (repr_capacity _ _ _ _ R), Ed.
Qed.

(** A constructor whose copies throw gives its block back. *)
Lemma create_elements_throws_released src v h :
  Exists (fun x => copy_throws x = true) src ->
  exists h',
    create_elements src v h = Throw CopyFailure v h' /\
    (forall q, cells h' q =
               if in_range (brk h) (len src) q then Unalloc else cells h q) /\
    (forall q, blocks h' q = if q =? brk h then None else blocks h q).
Proof.
  intros Hex.
  destruct (first_throwing src Hex) as (l1 & x & l2 & El & C1 & Cx).
  assert (Hne : exists y r, src = y :: r).
  { subst src. destruct l1; simpl; eauto. }
  destruct Hne as (y & r & Ey).
  unfold create_elements. rewrite Ey. rewrite <- Ey.
  unfold allocate. set (h1 := mkheap _ _ _).
  unfold adopt, uninitialized_copy.
  replace (uninitialized_copy_from (brk h) src (brk h) h1)
    with (uninitialized_copy_from (brk h) (l1 ++ x :: l2) (brk h) h1)
    by (rewrite El; reflexivity).
  destruct (uninitialized_copy_from_throws (brk h) l1 x l2 (brk h) h1 [])
    as (h2 & E & F2 & B2 & K2); trivial.
  { simpl. lia. }
  { apply live_at_nil. }
  { intros q Hq. subst h1. simpl.
    destruct (in_range (brk h) (len src) q) eqn:E; [reflexivity|].
    apply in_range_false in E.
    subst src. rewrite length_app in *. simpl length in *. lia. }
  rewrite E. unfold deallocate. rewrite B2. subst h1. simpl.
  rewrite !Z.eqb_refl. eexists. split; [reflexivity|]. simpl.
  split.
  - intros q. destruct (in_range (brk h) (len src) q) eqn:E1; [reflexivity|].
    rewrite F2. simpl. rewrite E1.
    destruct (in_range (brk h) (len l1) q) eqn:E2; [|reflexivity].
    apply in_range_true in E2. apply in_range_false in E1.
    subst src. rewrite length_app in *. simpl length in *. lia.
  - intros q. destruct (q =? brk h); reflexivity.
Qed.

(** X10.  [assign] is destroy-then-construct.  On a container that owns a
    block, the old elements are destroyed first (every slot of the block is
    raw at the moment the block is handed back), the block is released, and
    the new values are built on the null container.  When the copies succeed
    the container holds exactly the new values in a block of exactly that
    many slots.  When a copy of the new values throws, the old elements are
    gone all the same: the container is left empty, owning no block.
    [assign(n, value)] reads [value] while it fills the new block: for a
    [value] that is not an element of the container it leaves [n] copies of
    it; for an element of the container and [n > 0] it reads an object that
    has been destroyed and whose storage has been released, which is
    undefined. *)
Theorem assign_replaces v h l c src n value x :
  repr v h l c -> len src < size_max -> 0 <= n < size_max ->
  (begin_ v <> 0 ->
     exists h0 h1,
       destruct_elements (begin_ v) (end_ v) h = Some h0 /\
       raw_at h0 (begin_ v) (capacity v) /\
       deallocate (begin_ v) (capacity v) h0 = Some h1 /\
       assign_range src v h = create_elements src null_vector h1 /\
       assign_fill n value v h = create_elements_fill n value null_vector h1) /\
  (copyable src ->
     exists v' h',
       assign_range src v h = Ok tt v' h' /\
       repr v' h' src (len src) /\
       (begin_ v <> 0 -> blocks h' (begin_ v) = None)) /\
  (Exists (fun y => copy_throws y = true) src ->
     exists h',
       assign_range src v h = Throw CopyFailure null_vector h' /\
       repr null_vector h' [] 0 /\
       contents null_vector h' = Some [] /\
       (begin_ v <> 0 -> blocks h' (begin_ v) = None)) /\
  (reads_apart v c value h x -> copy_throws x = false ->
     exists v' h',
       assign_fill n value v h = Ok tt v' h' /\
       repr v' h' (repeat x (Z.to_nat n)) n /\
       (begin_ v <> 0 -> blocks h' (begin_ v) = None)) /\
  (forall p, begin_ v <= p < end_ v -> 0 < n ->
     assign_fill n (Inside p) v h = Undefined).
Proof.
  intros R Hsrc Hn. unfold begin_, end_. rewrite (repr_capacity _ _ _ _ R).
  destruct (clear_elements_releases v h l c R) as (h1 & E1 & Fc & Hrel & _ & K1).
  assert (K : 0 < brk h1) by (rewrite K1; destruct R; lia).
  assert (Hlt : elem_ v < brk h1) by (rewrite K1; destruct R; lia).
  split; [|split; [|split; [|split]]].
  - intros Hne.
    destruct (clear_elements_steps v h l c R Hne) as (h0 & h1' & Ed & Hraw & _ & Ea & Ec).
    exists h0, h1'. split; [exact Ed|]. split; [exact Hraw|]. split; [exact Ea|].
    unfold assign_range, assign_fill, bind. rewrite Ec. split; reflexivity.
  - intros C.
    destruct (create_elements_spec src h1 C K Hsrc) as (v' & h' & E & R' & F & _).
    exists v', h'. unfold assign_range, bind. rewrite E1.
    split; [exact E|]. split; [exact R'|].
    intros Hne. rewrite (proj2 (F _ Hlt)). auto.
  - intros Hex.
    destruct (create_elements_throws src null_vector h1 Hex) as (h' & E & F & K').
    assert (R' : repr null_vector h' [] 0) by (apply repr_null_vector; lia).
    exists h'. unfold assign_range, bind. rewrite E1.
    split; [exact E|]. split; [exact R'|].
    split; [exact (repr_contents _ _ _ _ R')|].
    intros Hne. rewrite (proj2 (F _ Hlt)). auto.
  - intros Hr Cx.
    assert (Hr1 : reads_apart v c value h1 x).
    { destruct value as [y|p]; simpl in Hr |- *; [exact Hr|].
      destruct Hr as (Hp & C & Hout). split; [lia|]. split; [|exact Hout].
      rewrite Fc. now rewrite (proj2 (in_range_false _ _ _) Hout). }
    destruct (create_elements_fill_spec n value x v c h1 Hr1 Cx K Hn)
      as (v' & h' & E & R' & F & _).
    exists v', h'. unfold assign_fill, bind. rewrite E1.
    split; [exact E|]. split; [exact R'|].
    intros Hne. rewrite (proj2 (F _ Hlt)). auto.
  - intros p Hp Hpos. pose proof (repr_free _ _ _ _ R) as Hf.
    pose proof (repr_fits _ _ _ _ R) as Hfit.
    unfold assign_fill, bind. rewrite E1.
    unfold create_elements_fill, allocate, uninitialized_fill.
    destruct (Z.to_nat n) as [|k] eqn:Ek; [lia|].
    cbn [uninitialized_fill_from fetch]. unfold load. cbn [cells].
    destruct (in_range (brk h1) n p) eqn:Er.
    { apply in_range_true in Er. destruct R. lia. }
    rewrite Fc. rewrite (proj2 (in_range_true (elem_ v) c p)) by lia.
    reflexivity.
Qed.

(** X11.  The constructors from values.  From a range or an initializer
    list: the container holds exactly the values, in a block of exactly that
    many slots ([capacity() == size()]), and storage that existed before is
    not touched.  From a count and a value, an object that exists when the
    constructor runs: [n] copies.  When a copy constructor throws, the
    exception leaves no trace: the block just allocated is released and the
    allocator's record of the other blocks is as before. *)
Theorem construct_from_values h src n value x :
  0 < brk h -> len src < size_max -> 0 <= n < size_max ->
  (copyable src ->
     exists v h',
       vector_of src h = Ok tt v h' /\
       contents v h' = Some src /\
       size v = len src /\ capacity v = size v /\
       repr v h' src (len src) /\
       (forall q, q < brk h ->
                  cells h' q = cells h q /\ blocks h' q = blocks h q)) /\
  (reads_apart null_vector 0 value h x -> copy_throws x = false ->
     exists v h',
       vector_fill n value h = Ok tt v h' /\
       contents v h' = Some (repeat x (Z.to_nat n)) /\
       size v = n /\ capacity v = n) /\
  (Exists (fun y => copy_throws y = true) src ->
     exists h',
       vector_of src h = Throw CopyFailure null_vector h' /\
       (forall q, blocks h' q = if q =? brk h then None else blocks h q) /\
       (forall q, cells h' q =
                  if in_range (brk h) (len src) q then Unalloc else cells h q)).
Proof.
  intros K Hsrc Hn. split; [|split].
  - intros C.
    destruct (create_elements_spec src h C K Hsrc) as (v & h' & E & R & F & _).
    exists v, h'. split; [exact E|].
    split; [exact (repr_contents _ _ _ _ R)|].
    rewrite (repr_size _ _ _ _ R), (repr_capacity _ _ _ _ R). auto.
  - intros Hr Cx.
    destruct (create_elements_fill_spec n value x null_vector 0 h Hr Cx K Hn)
      as (v & h' & E & R & _).
    exists v, h'. split; [exact E|].
    split; [exact (repr_contents _ _ _ _ R)|].
    rewrite (repr_size _ _ _ _ R), (repr_capacity _ _ _ _ R).
    rewrite repeat_length. split; lia.
  - intros Hex.
    destruct (create_elements_throws_released src null_vector h Hex)
      as (h' & E & Fc & Fb).
    exists h'. auto.
Qed.

(** X12.  The destructor ([clear_elements]) destroys every element and gives
    the block back.  On a container that owns a block, [destruct_elements]
    runs over [[begin(), end())] and leaves every slot of the block raw,
    touching no other slot, and the block is then handed to [deallocate].
    Afterwards no slot of the block is allocated, the allocator no longer
    knows the block, every other slot and block is as before, and the object
    is the null container, on which running [clear_elements] again does
    nothing. *)
Theorem destructor_releases v h l c :
  repr v h l c ->
  exists h',
    clear_elements v h = Ok tt null_vector h' /\
    (begin_ v <> 0 ->
       exists h0,
         destruct_elements (begin_ v) (end_ v) h = Some h0 /\
         raw_at h0 (begin_ v) (capacity v) /\
         (forall q, ~ (begin_ v <= q < end_ v) -> cells h0 q = cells h q) /\
         deallocate (begin_ v) (capacity v) h0 = Some h') /\
    (begin_ v = 0 -> h' = h) /\
    (forall q, begin_ v <= q < begin_ v + capacity v -> cells h' q = Unalloc) /\
    (forall q, ~ (begin_ v <= q < begin_ v + capacity v) ->
               cells h' q = cells h q) /\
    (begin_ v <> 0 -> blocks h' (begin_ v) = None) /\
    (forall q, q <> begin_ v -> blocks h' q = blocks h q) /\
    clear_elements null_vector h' = Ok tt null_vector h'.
Proof.
  intros R. unfold begin_, end_. rewrite (repr_capacity _ _ _ _ R).
  destruct (clear_elements_releases v h l c R) as (h' & E & Fc & Fr & Fb & _).
  exists h'. split; [exact E|].
  split; [|split; [|split; [|split; [|split; [exact Fr|split; [exact Fb | reflexivity]]]]]].
  - intros Hne.
    destruct (clear_elements_steps v h l c R Hne) as (h0 & h1 & Ed & Hraw & Fd & Ea & Ec).
    rewrite E in Ec. injection Ec as <-.
    exists h0. auto.
  - intros E0. revert E. unfold clear_elements, bind, this, ret. rewrite E0.
    simpl. now intros [= _ <-].
  - intros q Hq. rewrite Fc. now rewrite (proj2 (in_range_true _ _ _) Hq).
  - intros q Hq. rewrite Fc. now rewrite (proj2 (in_range_false _ _ _) Hq).
Qed.

(** ** Copies and moves of containers *)

(** An append touches the container's own block and storage that did not
    exist before. *)
Lemma push_back_footprint v h l c r a v' h' :
  repr v h l c -> 2 * len l < size_max -> relocatable l ->
  push_back r v h = Ok a v' h' -> untouched_outside v c h h'.
Proof.
  intros R Hs Hrel E.
  destruct (check_expand_capacity_spec v h l c R Hs Hrel)
    as (v1 & h1 & E1 & R1 & Hsame).
  pose proof (check_expand_capacity_footprint v h l c tt v1 h1 R E1)
    as (Fc & Fb & K).
  assert (Hroom : len l < grown (len l) c)
    by (apply grown_room; destruct R; lia).
  unfold push_back, bind, this, put, on_heap in E. rewrite E1 in E.
  destruct (make (CopyOf r) (set_free (free_ v1 + 1) v1) h1)
    as [x v2 h2| |] eqn:Em; try discriminate.
  apply make_keeps_state in Em. destruct Em as [-> ->].
  destruct (repr_append v1 h1 l _ x R1 Hroom) as [Ec _].
  rewrite Ec in E. injection E as _ _ <-.
  split; [|split; [exact Fb | exact K]].
  intros q Hq Hout. simpl.
  destruct (Z.eqb_spec q (free_ v1)) as [->|_]; [|now apply Fc].
  exfalso. pose proof (repr_free _ _ _ _ R1) as Hf.
  destruct (check_expand_capacity_where v h tt v1 h1 E1) as [[-> ->]|Hw].
  - pose proof (repr_last _ _ _ _ R1). pose proof (repr_last _ _ _ _ R). lia.
  - lia.
Qed.

Lemma clear_footprint v h l c a v' h' :
  repr v h l c -> clear v h = Ok a v' h' -> untouched_outside v c h h'.
Proof.
  intros R. unfold clear, bind, this, on_heap, put.
  destruct (destruct_elements (elem_ v) (free_ v) h) as [h1|] eqn:E;
    [|discriminate].
  apply destruct_elements_footprint in E. destruct E as (F & B & K).
  intros [= _ _ <-]. split; [|split].
  - intros q _ Hout. apply F. destruct R. lia.
  - intros q _ _. now rewrite B.
  - lia.
Qed.

(** Copy construction from a container whose elements can be copied. *)
Lemma vector_copy_spec other h l c :
  repr other h l c -> copyable l ->
  exists cp h1,
    vector_copy other h = Ok tt cp h1 /\
    repr cp h1 l (len l) /\
    repr other h1 l c /\
    apart cp (len l) other c /\ apart other c cp (len l) /\
    (elem_ cp = 0 \/ brk h <= elem_ cp).
Proof.
  intros R C.
  assert (K : 0 < brk h) by (destruct R; lia).
  assert (M : len l < size_max) by (destruct R; lia).
  destruct (create_elements_spec l h C K M) as (cp & h1 & E & Rc & F & K1 & Hcp).
  exists cp, h1. unfold vector_copy, cbegin, cend.
  rewrite (repr_contents _ _ _ _ R : read_range _ _ _ = _).
  split; [exact E|]. split; [exact Rc|].
  split.
  { apply (repr_frame other h); trivial.
    - intros q Hq. apply F. destruct R. lia.
    - intros _. apply F. destruct R. lia. }
  split; [|split; [|exact Hcp]].
  - unfold apart. destruct (Z.eq_dec (elem_ other) 0); [auto|].
    right. destruct Hcp as [E0|Hge].
    + right. pose proof (repr_null _ _ _ _ Rc E0). destruct R. lia.
    + left. destruct R. lia.
  - unfold apart. destruct Hcp as [E0|Hge]; [auto|].
    right. right. destruct R. lia.
Qed.

(** X13.  The copy constructor makes a deep copy: the new container holds
    equal values in a block of its own ([capacity() == size()]), and the
    source is as it was.  The two are independent: appending to the copy,
    clearing it or destroying it leaves the source with its block and its
    elements, and appending to the source or clearing it leaves the copy
    with its own. *)
Theorem copy_is_independent other h l c x :
  repr other h l c -> copyable l -> 2 * len l < size_max ->
  exists cp h1,
    vector_copy other h = Ok tt cp h1 /\
    contents cp h1 = contents other h /\
    capacity cp = size cp /\
    repr cp h1 l (len l) /\
    repr other h1 l c /\
    (begin_ cp = 0 \/ brk h <= begin_ cp) /\
    (forall a v' h2,
       push_back x cp h1 = Ok a v' h2 \/ clear cp h1 = Ok a v' h2 \/
       clear_elements cp h1 = Ok a v' h2 ->
       repr other h2 l c /\ contents other h2 = contents other h) /\
    (forall a v' h2,
       push_back x other h1 = Ok a v' h2 \/ clear other h1 = Ok a v' h2 ->
       repr cp h2 l (len l) /\ contents cp h2 = contents cp h1).
Proof.
  intros R C Hs.
  destruct (vector_copy_spec other h l c R C)
    as (cp & h1 & E & Rc & Ro & A1 & A2 & Hcp).
  assert (Hrel : relocatable l).
  { unfold relocatable. destruct nothrow_move_constructible; trivial. }
  exists cp, h1. split; [exact E|].
  split; [now rewrite (repr_contents _ _ _ _ Rc), (repr_contents _ _ _ _ R)|].
  split; [now rewrite (repr_capacity _ _ _ _ Rc), (repr_size _ _ _ _ Rc)|].
  split; [exact Rc|]. split; [exact Ro|]. split; [exact Hcp|].
  split.
  - intros a v' h2 Hop.
    assert (F : untouched_outside cp (len l) h1 h2).
    { destruct Hop as [Hop|[Hop|Hop]].
      - now apply (push_back_footprint cp h1 l (len l) x a v' h2).
      - now apply (clear_footprint cp h1 l (len l) a v' h2).
      - now apply (clear_elements_footprint cp h1 l (len l) a v' h2). }
    assert (R2 : repr other h2 l c)
      by (apply (repr_untouched cp (len l) other h1 h2); trivial; lia).
    split; [exact R2|].
    now rewrite (repr_contents _ _ _ _ R2), (repr_contents _ _ _ _ R).
  - intros a v' h2 Hop.
    assert (F : untouched_outside other c h1 h2).
    { destruct Hop as [Hop|Hop].
      - now apply (push_back_footprint other h1 l c x a v' h2).
      - now apply (clear_footprint other h1 l c a v' h2). }
    assert (R2 : repr cp h2 l (len l)).
    { apply (repr_untouched other c cp h1 h2); trivial. destruct R. lia. }
    split; [exact R2|].
    now rewrite (repr_contents _ _ _ _ R2), (repr_contents _ _ _ _ Rc).
Qed.

Lemma swap_fst v other : fst (swap v other) = other.
Proof. destruct other. reflexivity. Qed.

Lemma swap_snd v other : snd (swap v other) = v.
Proof. destruct v. reflexivity. Qed.

(** X14.  Moving transfers the block.  The move constructor gives the new
    object the source's three pointers and leaves the source null.  Move
    assignment from another object first destroys the target's elements
    (every slot of its block is raw at the moment the block is handed back)
    and releases its block, then takes over the source's pointers: the
    target holds the source's elements in the source's block, the source is
    left null (size 0, capacity 0), and nothing is copied or allocated.  Move
    assignment of an object to itself does nothing. *)
Theorem move_transfers_block v other h l c l' c' :
  repr v h l c -> repr other h l' c' -> apart v c other c' ->
  vector_move other = (other, null_vector) /\
  swap v other = (other, v) /\
  (exists h',
     move_assign false other v h = Ok null_vector other h' /\
     repr other h' l' c' /\
     contents other h' = contents other h /\
     repr null_vector h' [] 0 /\
     size null_vector = 0 /\ capacity null_vector = 0 /\
     (begin_ v <> 0 -> blocks h' (begin_ v) = None) /\
     brk h' = brk h /\
     (begin_ v <> 0 ->
        exists h0,
          destruct_elements (begin_ v) (end_ v) h = Some h0 /\
          raw_at h0 (begin_ v) (capacity v) /\
          deallocate (begin_ v) (capacity v) h0 = Some h')) /\
  move_assign true v v h = Ok v v h.
Proof.
  intros R R' A.
  assert (Hsw : forall a b, swap a b = (b, a)).
  { intros a b. rewrite (surjective_pairing (swap a b)).
    now rewrite swap_fst, swap_snd. }
  split; [apply Hsw|]. split; [apply Hsw|]. split; [|reflexivity].
  destruct (clear_elements_releases v h l c R) as (h' & E & Fc & Fr & Fb & K).
  assert (F : untouched_outside v c h h').
  { apply (clear_elements_footprint v h l c tt null_vector h' R E). }
  assert (R2 : repr other h' l' c').
  { apply (repr_untouched v c other h h'); trivial. destruct R. lia. }
  exists h'. split.
  { unfold move_assign, bind, this, put, ret. rewrite E.
    now rewrite swap_fst, swap_snd. }
  split; [exact R2|].
  split; [now rewrite (repr_contents _ _ _ _ R2), (repr_contents _ _ _ _ R')|].
  split; [apply repr_null_vector; rewrite K; destruct R; lia|].
  split; [reflexivity|]. split; [reflexivity|].
  split; [exact Fr|]. split; [exact K|].
  unfold begin_, end_. rewrite (repr_capacity _ _ _ _ R). intros Hne.
  destruct (clear_elements_steps v h l c R Hne) as (h0 & h1 & Ed & Hraw & _ & Ea & Ec).
  rewrite E in Ec. injection Ec as <-. eauto.
Qed.

Lemma shrink_to_fit_copy_assign v h : shrink_to_fit v h = copy_assign v v h.
Proof.
  unfold shrink_to_fit, copy_assign.
  destruct (vector_copy v h) as [u other h1| |]; try reflexivity.
  now rewrite swap_fst, swap_snd.
Qed.

(** X15.  [shrink_to_fit()] keeps the elements and makes the capacity equal
    to the size.  It always works through a copy: a non-empty container
    ends up in a new block (so every iterator is invalidated, even when the
    capacity already equalled the size), an empty one ends up owning no
    block.  When a copy constructor throws, the container is as before. *)
Theorem shrink_to_fit_reallocates v h l c :
  repr v h l c ->
  (copyable l ->
     exists v' h',
       shrink_to_fit v h = Ok tt v' h' /\
       contents v' h' = contents v h /\
       size v' = size v /\ capacity v' = size v /\
       repr v' h' l (len l) /\
       (l <> [] -> brk h <= begin_ v' /\ begin_ v' <> begin_ v) /\
       (l = [] -> v' = null_vector) /\
       (begin_ v <> 0 -> blocks h' (begin_ v) = None)) /\
  (Exists (fun y => copy_throws y = true) l ->
     exists h',
       shrink_to_fit v h = Throw CopyFailure v h' /\
       repr v h' l c /\
       contents v h' = contents v h).
Proof.
  intros R. split.
  - intros C. rewrite shrink_to_fit_copy_assign.
    destruct (vector_copy_spec v h l c R C)
      as (cp & h1 & E & Rc & Ro & A1 & A2 & Hcp).
    destruct (clear_elements_releases v h1 l c Ro) as (h2 & E2 & Fc & Fr & Fb & K).
    assert (F : untouched_outside v c h1 h2)
      by (apply (clear_elements_footprint v h1 l c tt null_vector h2 Ro E2)).
    assert (R2 : repr cp h2 l (len l)).
    { apply (repr_untouched v c cp h1 h2); trivial. destruct R. lia. }
    exists cp, h2. unfold copy_assign. rewrite E, E2.
    split; [reflexivity|].
    split; [now rewrite (repr_contents _ _ _ _ R2), (repr_contents _ _ _ _ R)|].
    rewrite (repr_size _ _ _ _ R2), (repr_size _ _ _ _ R),
      (repr_capacity _ _ _ _ R2).
    split; [reflexivity|]. split; [reflexivity|]. split; [exact R2|].
    split; [|split; [|exact Fr]].
    + intros Hne. unfold begin_.
      assert (0 < len l) by (destruct l; [contradiction | simpl length; lia]).
      destruct Hcp as [E0|Hge].
      * pose proof (repr_null _ _ _ _ Rc E0). lia.
      * destruct R. lia.
    + intros ->. unfold vector_copy, cbegin, cend in E.
      rewrite (repr_contents _ _ _ _ R : read_range _ _ _ = _) in E.
      simpl in E. now injection E as <- _.
  - intros Hex. rewrite shrink_to_fit_copy_assign.
    destruct (copy_assign_throws v v h l l c c R R Hex) as (h' & E & R' & _).
    exists h'. split; [exact E|]. split; [exact R'|].
    now rewrite (repr_contents _ _ _ _ R'), (repr_contents _ _ _ _ R).
Qed.

(** X16.  On a container that is not empty, [front()] is the element at
    index 0 and [back()] the element at index [size() - 1]; both return
    without changing anything, and they agree with [at]. *)
Theorem front_back_of_nonempty v h l c :
  repr v h l c -> l <> [] ->
  exists x y,
    nth_error l 0 = Some x /\
    nth_error l (length l - 1) = Some y /\
    front v h = Ok x v h /\
    back v h = Ok y v h /\
    front v h = at_ 0 v h /\
    back v h = at_ (size v - 1) v h.
Proof.
  intros R Hne.
  destruct l as [|x l0]; [contradiction|].
  destruct (exists_last Hne) as (m & y & Em).
  exists x, y. split; [reflexivity|].
  assert (Hy : nth_error (x :: l0) (length (x :: l0) - 1) = Some y).
  { rewrite Em, length_app. simpl length.
    replace (length m + 1 - 1)%nat with (length m) by lia.
    rewrite nth_error_app2, Nat.sub_diag by lia. reflexivity. }
  split; [exact Hy|].
  assert (Ef : front v h = Ok x v h) by exact (front_spec _ _ _ _ _ R).
  assert (Eb : back v h = Ok y v h).
  { pose proof R as Rm. rewrite Em in Rm. exact (back_spec _ _ _ _ _ Rm). }
  split; [exact Ef|]. split; [exact Eb|].
  rewrite Ef, Eb, (repr_size _ _ _ _ R).
  rewrite !(at_spec _ _ _ _ _ R) by (simpl length; lia).
  replace (Z.to_nat (len (x :: l0) - 1)) with (length (x :: l0) - 1)%nat by lia.
  rewrite Hy. split; reflexivity.
Qed.

(** X17.  After [clear()] the block is reused: appending up to [capacity()]
    values to a cleared container allocates nothing, leaves [begin()] and
    the capacity as they were before [clear()], and the container holds
    exactly the appended values. *)
Theorem clear_then_refill v h l c xs :
  repr v h l c -> copyable xs -> len xs <= c ->
  exists v' h',
    (clear ;;; push_all xs) v h = Ok tt v' h' /\
    contents v' h' = Some xs /\
    size v' = len xs /\
    begin_ v' = begin_ v /\
    capacity v' = capacity v /\
    (forall q, ~ (begin_ v <= q < begin_ v + capacity v) ->
               cells h' q = cells h q).
Proof.
  intros R C Hc.
  destruct (clear_spec v h l c R) as (h1 & E1 & R1 & B1 & K1).
  pose proof (clear_footprint v h l c tt _ h1 R E1) as (F1 & _ & _).
  destruct (push_all_room xs _ h1 [] c R1 C) as (v2 & h2 & E2 & R2 & He & Hl & F2).
  { simpl length. lia. }
  simpl app in R2.
  exists v2, h2. unfold bind. rewrite E1.
  split; [exact E2|].
  split; [exact (repr_contents _ _ _ _ R2)|].
  split; [exact (repr_size _ _ _ _ R2)|].
  split; [exact He|].
  split; [now rewrite (repr_capacity _ _ _ _ R2), (repr_capacity _ _ _ _ R)|].
  rewrite (repr_capacity _ _ _ _ R). unfold begin_.
  intros q Hq. simpl free_ in F2. rewrite F2 by lia.
  destruct (Z.lt_ge_cases q (brk h)) as [Hlt|Hge].
  - now apply F1.
  - unfold clear, bind, this, on_heap, put in E1.
    destruct (destruct_elements (elem_ v) (free_ v) h) as [h0|] eqn:Ed;
      [|discriminate].
    injection E1 as <-.
    apply destruct_elements_footprint in Ed. destruct Ed as (Fd & _ & _).
    apply Fd. destruct R. lia.
Qed.

Lemma check_expand_capacity_throws v h l c :
  repr v h l c -> len l = c -> 2 * len l < size_max ->
  nothrow_move_constructible = false ->
  Exists (fun y => copy_throws y = true) l ->
  exists h',
    check_expand_capacity v h = Throw CopyFailure v h' /\
    repr v h' l c.
Proof.
  intros R Hfull Hs Hmv Hex.
  assert (Hpos : 0 < len l).
  { destruct l; [inversion Hex | simpl length; lia]. }
  destruct (expand_capacity_throws v h l c (len l * 2) R) as (h' & E & Hc & Hb & Hk);
    trivial; [lia|].
  exists h'. split.
  - unfold check_expand_capacity, bind, this.
    rewrite (repr_free _ _ _ _ R), (repr_last _ _ _ _ R).
    replace (elem_ v + len l =? elem_ v + c) with true
      by (symmetry; apply Z.eqb_eq; lia).
    rewrite (repr_empty _ _ _ _ R), (repr_size _ _ _ _ R).
    destruct (Z.eqb_spec (len l) 0) as [|_]; [lia|].
    unfold EXPAND_RATE. rewrite wrap_small by lia. exact E.
  - apply (repr_frame v h); trivial.
    + intros q Hq. rewrite Hc.
      destruct (in_range (brk h) (len l * 2) q) eqn:Er; [|reflexivity].
      apply in_range_true in Er. destruct R. lia.
    + intros _. rewrite Hb.
      destruct (Z.eqb_spec (elem_ v) (brk h)); [destruct R; lia | reflexivity].
    + destruct R. lia.
Qed.

(** X18.  An insertion into a full container whose elements have to be
    copied to the larger block, and one of them cannot be: [emplace],
    [insert] and [emplace_back] pass the exception on before anything has
    been shifted or constructed and before their arguments are used, and the
    container is as before. *)
Theorem insert_growth_failure v h l c position a r x :
  repr v h l c -> len l = c -> 2 * len l < size_max ->
  nothrow_move_constructible = false ->
  Exists (fun y => copy_throws y = true) l ->
  begin_ v <= position <= end_ v ->
  exists h',
    emplace position a v h = Throw CopyFailure v h' /\
    emplace_back a v h = Throw CopyFailure v h' /\
    (fetch r h = Some x -> copy_throws x = false ->
       insert position r v h = Throw CopyFailure v h') /\
    repr v h' l c /\
    contents v h' = contents v h.
Proof.
  intros R Hfull Hs Hmv Hex Hpos. unfold begin_, end_ in Hpos.
  destruct (check_expand_capacity_throws v h l c R Hfull Hs Hmv Hex)
    as (h' & E & R').
  assert (Ee : forall a0, emplace position a0 v h = Throw CopyFailure v h').
  { intros a0. unfold emplace, bind, this, cbegin, cend, begin_, end_.
    rewrite Z.gtb_ltb.
    destruct (Z.ltb_spec position (elem_ v)) as [|_]; [lia|].
    destruct (Z.ltb_spec (free_ v) position) as [|_]; [lia|].
    cbn [orb]. cbv beta iota. now rewrite E. }
  exists h'. split; [apply Ee|].
  split; [unfold emplace_back, bind; now rewrite E|].
  split; [intros Er Cx; rewrite (insert_reads position r x v h Er Cx); apply Ee|].
  split; [exact R'|].
  now rewrite (repr_contents _ _ _ _ R'), (repr_contents _ _ _ _ R).
Qed.

Lemma firstn_skipn_inserted (l : list T) (d : nat) x :
  (d <= length l)%nat ->
  firstn d (firstn d l ++ x :: skipn d l) ++
  skipn (S d) (firstn d l ++ x :: skipn d l) = l.
Proof.
  intros Hd.
  assert (Hl1 : length (firstn d l) = d) by (rewrite length_firstn; lia).
  rewrite firstn_app, Hl1, Nat.sub_diag, firstn_0, app_nil_r.
  rewrite <- Hl1 at 1. rewrite firstn_all.
  rewrite skipn_app, Hl1.
  replace (S d - d)%nat with 1%nat by lia.
  rewrite skipn_all2 by lia. simpl. apply firstn_skipn.
Qed.

(** X19.  Inserting a value and then erasing at the iterator that [insert]
    returned gives back the sequence the container held before: same
    elements, same order, same size (the capacity may have grown).  The
    value may be any object, an element of the container included. *)
Theorem insert_then_erase v h l c position r x :
  repr v h l c ->
  (len l = c -> 2 * len l < size_max /\ relocatable l) ->
  fetch r h = Some x -> copy_throws x = false ->
  begin_ v <= position <= end_ v ->
  exists p v1 h1 v2 h2,
    insert position r v h = Ok p v1 h1 /\
    at_ (p - begin_ v1) v1 h1 = Ok x v1 h1 /\
    erase p v1 h1 = Ok p v2 h2 /\
    contents v2 h2 = contents v h /\
    size v2 = size v /\
    begin_ v2 = begin_ v1.
Proof.
  intros R Hfull Er Cx Hpos. unfold begin_, end_ in *.
  pose proof (repr_free _ _ _ _ R) as Hf.
  destruct (emplace_spec v h l c position (MoveOf (Outside x)) x R)
    as (v1 & h1 & E1 & R1 & _); [exact Hfull | reflexivity | exact I | exact Hpos |].
  set (d := Z.to_nat (position - elem_ v)) in *.
  assert (Hd : (d <= length l)%nat) by (subst d; lia).
  set (l1 := firstn d l ++ x :: skipn d l) in *.
  assert (Hl1 : len l1 = len l + 1).
  { subst l1. rewrite length_app, length_firstn. simpl length.
    rewrite length_skipn. lia. }
  pose proof (repr_free _ _ _ _ R1) as Hf1.
  destruct (erase_spec v1 h1 l1 _ (elem_ v1 + (position - elem_ v)) R1)
    as (h2 & E2 & R2); [lia|].
  replace (elem_ v1 + (position - elem_ v) - elem_ v1)
    with (position - elem_ v) in R2 by lia.
  fold d in R2. subst l1. rewrite firstn_skipn_inserted in R2 by exact Hd.
  eexists _, v1, h1, _, h2.
  split; [rewrite (insert_reads position r x v h Er Cx); exact E1|].
  split.
  { replace (elem_ v1 + (position - elem_ v) - elem_ v1)
      with (position - elem_ v) by lia.
    rewrite (at_spec _ _ _ _ _ R1) by lia. fold d.
    now rewrite nth_error_inserted. }
  split; [exact E2|].
  split; [now rewrite (repr_contents _ _ _ _ R2), (repr_contents _ _ _ _ R)|].
  split; [now rewrite (repr_size _ _ _ _ R2), (repr_size _ _ _ _ R)|].
  reflexivity.
Qed.

End Vector.

Arguments Ok {T A} a v h.
Arguments Throw {T A} e v h.
Arguments Undefined {T A}.

Notation "x <- m ;; k" := (bind m (fun x => k))
  (at level 61, m at next level, right associativity).
Notation "m ;;; k" := (bind m (fun _ => k))
  (at level 61, right associativity).

(** * Containers of [int] and of a type whose copies can throw *)

(** C1.  [std::vector<int> v{7}; v.pop_back();]: the call destroys the last
    element, so that the container is empty afterwards, and then throws
    [std::length_error] all the same; it never returns normally. *)
Theorem pop_back_throws_after_removing :
  exists v h,
    vector_of [7] empty_heap = Ok tt v h /\
    size v = 1 /\
    exists v' h',
      pop_back v h = Throw LengthError v' h' /\
      size v' = 0 /\
      contents v' h' = Some [] /\
      capacity v' = capacity v.
Proof.
  do 2 eexists. split; [reflexivity|]. split; [reflexivity|].
  do 2 eexists. split; [reflexivity|]. repeat split.
Qed.

(** C2.  On [[9, 2, 3]], [resize(2, 0)] yields [[9, 2]] and [resize(3, 0)]
    changes nothing, but [resize(5, 0)] asks [insert] for
    [size() - new_size = 3 - 5] copies, which in [size_type] is
    [2 ^ 64 - 2], not 2; the call does not yield [[9, 2, 3, 0, 0]]. *)
Theorem resize_grow_operands_reversed :
  exists v h,
    vector_of [9; 2; 3] empty_heap = Ok tt v h /\
    contents v h = Some [9; 2; 3] /\
    (exists v' h',
       resize 2 (Outside 0) v h = Ok tt v' h' /\
       contents v' h' = Some [9; 2]) /\
    resize 3 (Outside 0) v h = Ok tt v h /\
    resize 5 (Outside 0) v h
      = (insert_n (end_ v) 18446744073709551614 (Outside 0) ;;; ret tt) v h /\
    ~ (exists v' h',
         resize 5 (Outside 0) v h = Ok tt v' h' /\
         contents v' h' = Some [9; 2; 3; 0; 0]).
Proof.
  do 2 eexists. split; [reflexivity|]. split; [reflexivity|].
  split; [do 2 eexists; split; reflexivity|].
  split; [reflexivity|].
  split.
  - rewrite resize_grow_count by (vm_compute; reflexivity). reflexivity.
  - intros (v' & h' & E & Er).
    apply resize_grow_result in E; [|vm_compute; reflexivity].
    assert (Hc : free_ v' - elem_ v' = 18446744073709551617) by exact E.
    unfold contents, begin_, end_ in Er.
    apply read_range_length in Er. simpl length in Er. lia.
Qed.

(** C4.  After [push_back(1); clear();] the container has size 0 and
    capacity 10, and [elem_] is not null: [front()] and [back()] pass their
    guard and read a slot that holds no object, instead of throwing
    [std::length_error].  Only the container that never owned a block
    throws. *)
Theorem front_back_guard_misses_empty :
  (exists v h,
     (push_back (Outside 1) ;;; clear) null_vector empty_heap = Ok tt v h /\
     size v = 0 /\ empty v = true /\ capacity v = 10 /\
     front v h = Undefined /\ back v h = Undefined) /\
  front null_vector (@empty_heap Z) = Throw LengthError null_vector empty_heap /\
  back null_vector (@empty_heap Z) = Throw LengthError null_vector empty_heap.
Proof.
  split; [|split; reflexivity].
  do 2 eexists. split; [reflexivity|]. repeat split.
Qed.

(** C7.  On [[1, 2, 3]], [erase(begin() + 2, begin() + 1)] has
    [first > last] with both iterators inside [[begin(), end()]]: the guard
    lets it through, and instead of throwing [std::out_of_range] the call
    move-assigns into a slot past the end of the elements. *)
Theorem erase_reversed_range_not_rejected :
  exists v h,
    vector_of [1; 2; 3] empty_heap = Ok tt v h /\
    begin_ v <= begin_ v + 1 /\ begin_ v + 1 < begin_ v + 2 /\
    begin_ v + 2 <= end_ v /\
    erase_range (begin_ v + 2) (begin_ v + 1) v h = Undefined /\
    (exists h', erase_range (begin_ v + 1) (begin_ v + 2) v h
                  = Ok (begin_ v + 1) (set_free (begin_ v + 2) v) h' /\
                contents (set_free (begin_ v + 2) v) h' = Some [1; 3]) /\
    erase_range (begin_ v - 1) (begin_ v + 1) v h = Throw OutOfRange v h /\
    erase_range (begin_ v + 1) (end_ v + 1) v h = Throw OutOfRange v h.
Proof.
  do 2 eexists. split; [reflexivity|].
  repeat split; try (vm_compute; congruence).
  eexists. split; reflexivity.
Qed.

(** C5, as stated, fails: [std::vector<int> v{1, 2, 3}] is full with size 3;
    the next append grows the capacity to 6, not to [max(10, 3 * 2) = 10]. *)
Lemma full_container_of_three_grows_to_six :
  exists v h,
    vector_of [1; 2; 3] empty_heap = Ok tt v h /\
    free_ v = last_ v /\
    exists v' h',
      check_expand_capacity v h = Ok tt v' h' /\
      capacity v' = 6 /\
      capacity v' <> Z.max FIRST_EXPAND_CAPACITY (size v * EXPAND_RATE).
Proof.
  do 2 eexists. split; [reflexivity|]. split; [reflexivity|].
  do 2 eexists. split; [reflexivity|]. split; [reflexivity|].
  vm_compute. discriminate.
Qed.


(** Arguments that are elements of the container, on [[1, 2, 3]]:
    [insert(begin(), 2, v[1])] reads [v[1]] anew in each round and leaves
    [[1, 2, 1, 2, 3]]; when the container is full, [push_back(v[0])] reads
    the element in the block that growth has released; and
    [assign(2, v[0])] reads it after the old block has been released. *)
Example arguments_inside_the_container :
  (exists v h,
     push_all [1; 2; 3] null_vector empty_heap = Ok tt v h /\
     exists p v' h',
       insert_n (begin_ v) 2 (Inside (begin_ v + 1)) v h = Ok p v' h' /\
       contents v' h' = Some [1; 2; 1; 2; 3]) /\
  (exists v h,
     vector_of [1; 2; 3] empty_heap = Ok tt v h /\
     push_back (Inside (begin_ v)) v h = Undefined /\
     assign_fill 2 (Inside (begin_ v)) v h = Undefined).
Proof.
  split.
  - do 2 eexists. split; [vm_compute; reflexivity|].
    do 3 eexists. split; vm_compute; reflexivity.
  - do 2 eexists. split; [vm_compute; reflexivity|].
    split; vm_compute; reflexivity.
Qed.

(** The scenario of the design's test list, up to the shrinking [resize]:
    three appends, an insertion at the second position, removal of the first
    element, and [resize(2, 0)]. *)
Example scenario :
  exists v1 h1 p v2 h2 q v3 h3 v4 h4,
    push_all [1; 2; 3] null_vector empty_heap = Ok tt v1 h1 /\
    contents v1 h1 = Some [1; 2; 3] /\ size v1 = 3 /\
    insert (begin_ v1 + 1) (Outside 9) v1 h1 = Ok p v2 h2 /\
    p = begin_ v2 + 1 /\
    contents v2 h2 = Some [1; 9; 2; 3] /\
    erase (begin_ v2) v2 h2 = Ok q v3 h3 /\
    q = begin_ v3 /\
    contents v3 h3 = Some [9; 2; 3] /\
    resize 2 (Outside 0) v3 h3 = Ok tt v4 h4 /\
    contents v4 h4 = Some [9; 2].
Proof.
  do 10 eexists. repeat (split; [vm_compute; reflexivity|]).
  vm_compute; reflexivity.
Qed.

(** ** The general statements at concrete containers *)

(** [[1, 2, 3]] in a block of ten slots. *)
Lemma repr_sample :
  repr (block_vector 1 [1; 2; 3] 10) (block_heap 1 [1; 2; 3] 10) [1; 2; 3] 10.
Proof. apply repr_block_heap; [lia | rewrite size_max_val; simpl; lia]. Qed.

(** [[1, 2, 3]] in a block of three slots. *)
Lemma repr_sample_full :
  repr (block_vector 1 [1; 2; 3] 3) (block_heap 1 [1; 2; 3] 3) [1; 2; 3] 3.
Proof. apply repr_block_heap; [lia | rewrite size_max_val; simpl; lia]. Qed.

(** A full container whose second element cannot be copied. *)
Lemma repr_sample_fragile :
  repr (block_vector 1 [Sound 1; Faulty 2] 2)
       (block_heap 1 [Sound 1; Faulty 2] 2) [Sound 1; Faulty 2] 2.
Proof. apply repr_block_heap; [lia | rewrite size_max_val; simpl; lia]. Qed.

Lemma clear_keeps_capacity_witness :
  exists v' h',
    clear (block_vector 1 [1; 2; 3] 10) (block_heap 1 [1; 2; 3] 10)
      = Ok tt v' h' /\
    size v' = 0 /\ capacity v' = 10.
Proof.
  destruct (clear_keeps_capacity _ _ _ _ repr_sample)
    as (v' & h' & E & _ & Hs & _ & Hc & _).
  exists v', h'. split; [exact E|]. split; [exact Hs|].
  rewrite Hc. reflexivity.
Defined.


Lemma growth_is_all_or_nothing_witness :
  exists h2 h',
    expand_capacity 4 (block_vector 1 [Sound 1; Faulty 2] 2)
                      (block_heap 1 [Sound 1; Faulty 2] 2)
      = Throw CopyFailure (block_vector 1 [Sound 1; Faulty 2] 2) h' /\
    repr (block_vector 1 [Sound 1; Faulty 2] 2) h' [Sound 1; Faulty 2] 2 /\
    uninitialized_copy [Sound 1; Faulty 2] 4
      (snd (allocate 4 (block_heap 1 [Sound 1; Faulty 2] 2))) = Failed h2 /\
    cells h2 4 = Uninit.
Proof.
  assert (Hn : 2 < 4 < size_max) by (rewrite size_max_val; lia).
  destruct (growth_is_all_or_nothing _ _ _ _ 4 (Outside (Sound 0))
              repr_sample_fragile Hn)
    as [_ Hthrow].
  destruct Hthrow as (h' & E & _ & R & _ & _ & _ & _ & (h2 & E2 & Hraw & _) & _).
  { reflexivity. }
  { apply Exists_cons_tl, Exists_cons_hd. reflexivity. }
  exists h2, h'. split; [exact E|]. split; [exact R|]. split; [exact E2|].
  apply Hraw. simpl. lia.
Defined.

Lemma copy_assignment_is_copy_and_swap_witness :
  (exists v' h',
     copy_assign (block_vector 1 [1; 2; 3] 10)
       (block_vector 1 [1; 2; 3] 10) (block_heap 1 [1; 2; 3] 10)
       = Ok tt v' h' /\
     repr v' h' [1; 2; 3] 3) /\
  (exists h',
     copy_assign (block_vector 1 [Sound 1; Faulty 2] 2)
       (block_vector 1 [Sound 1; Faulty 2] 2)
       (block_heap 1 [Sound 1; Faulty 2] 2)
       = Throw CopyFailure (block_vector 1 [Sound 1; Faulty 2] 2) h' /\
     repr (block_vector 1 [Sound 1; Faulty 2] 2) h' [Sound 1; Faulty 2] 2).
Proof.
  split.
  - destruct (copy_assignment_is_copy_and_swap _ _ _ _ _ _ _
                repr_sample repr_sample) as (_ & Hself & _).
    destruct Hself as (v' & h' & E & R & _).
    { repeat constructor. }
    exists v', h'. split; [exact E | exact R].
  - destruct (copy_assignment_is_copy_and_swap _ _ _ _ _ _ _
                repr_sample_fragile repr_sample_fragile) as (_ & _ & Hthrow).
    destruct Hthrow as (h' & E & R & _).
    { apply Exists_cons_tl, Exists_cons_hd. reflexivity. }
    exists h'. split; [exact E | exact R].
Defined.

Lemma append_growth_witness :
  (exists v' h',
     check_expand_capacity (block_vector 1 [1; 2; 3] 3)
                           (block_heap 1 [1; 2; 3] 3) = Ok tt v' h' /\
     capacity v' = 6) /\
  (exists v' h',
     push_all [1; 2; 3; 4; 5; 6; 7; 8; 9; 10; 11] null_vector empty_heap
       = Ok tt v' h' /\
     size v' = 11 /\ capacity v' = 20).
Proof.
  assert (Hs : 2 * Z.of_nat (length [1; 2; 3]) < size_max)
    by (rewrite size_max_val; simpl; lia).
  assert (Hxs : 2 * Z.of_nat (length [1; 2; 3; 4; 5; 6; 7; 8; 9; 10; 11])
                < size_max)
    by (rewrite size_max_val; simpl; lia).
  assert (C : copyable [1; 2; 3; 4; 5; 6; 7; 8; 9; 10; 11])
    by (repeat constructor).
  assert (Hrel : @relocatable Z int_element [1; 2; 3]) by exact I.
  destruct (append_growth _ _ _ _ _ repr_sample_full Hs Hrel C Hxs)
    as ((v1 & h1 & E1 & _ & C1) & (v2 & h2 & E2 & _ & S2 & C2) & _).
  split.
  - exists v1, h1. split; [exact E1|]. rewrite C1. reflexivity.
  - exists v2, h2. split; [exact E2|]. split; [exact S2|].
    rewrite C2. reflexivity.
Defined.

Lemma indexed_access_checked_witness :
  at_ 1 (block_vector 1 [1; 2; 3] 10) (block_heap 1 [1; 2; 3] 10)
    = Ok 2 (block_vector 1 [1; 2; 3] 10) (block_heap 1 [1; 2; 3] 10) /\
  subscript 3 (block_vector 1 [1; 2; 3] 10) (block_heap 1 [1; 2; 3] 10)
    = Throw OutOfRange (block_vector 1 [1; 2; 3] 10) (block_heap 1 [1; 2; 3] 10).
Proof.
  assert (H1 : 0 <= 1 < size_max) by (rewrite size_max_val; lia).
  assert (H3 : 0 <= 3 < size_max) by (rewrite size_max_val; lia).
  split.
  - destruct (indexed_access_checked _ _ _ _ 1 repr_sample H1)
      as (_ & Hin & _).
    destruct Hin as (x & Ex & E); [vm_compute; reflexivity|].
    injection Ex as <-. exact E.
  - destruct (indexed_access_checked _ _ _ _ 3 repr_sample H3)
      as (Hout & _ & Es & _).
    rewrite Es. apply Hout. vm_compute. discriminate.
Defined.

(** ** The further properties at concrete containers *)

(** A container of the fragile type with room left. *)
Lemma repr_sample_sound :
  repr (block_vector 1 [Sound 1] 3) (block_heap 1 [Sound 1] 3) [Sound 1] 3.
Proof. apply repr_block_heap; [lia | rewrite size_max_val; simpl; lia]. Qed.

Lemma size_bound_sample : 2 * Z.of_nat (length [1; 2; 3]) < size_max.
Proof. rewrite size_max_val. simpl. lia. Qed.

Lemma relocatable_sample : @relocatable Z int_element [1; 2; 3].
Proof. exact I. Qed.



Lemma push_back_throwing_copy_witness :
  exists v' h',
    push_back (Outside (Faulty 2))
      (block_vector 1 [Sound 1] 3) (block_heap 1 [Sound 1] 3)
      = Throw CopyFailure v' h' /\
    size v' = 2 /\ back v' h' = Undefined.
Proof.
  assert (Hfull : Z.of_nat (length [Sound 1]) = 3 ->
                  2 * Z.of_nat (length [Sound 1]) < size_max /\
                  @relocatable fragile fragile_element [Sound 1])
    by (simpl; lia).
  assert (Hr : reads_for_append (block_vector 1 [Sound 1] 3) [Sound 1] 3
                 (Outside (Faulty 2)) (block_heap 1 [Sound 1] 3) (Faulty 2))
    by (left; reflexivity).
  assert (Cx : @copy_throws fragile fragile_element (Faulty 2) = true)
    by reflexivity.
  destruct (push_back_throwing_copy _ _ _ _ (Outside (Faulty 2)) (Faulty 2)
              repr_sample_sound Hfull Hr Cx)
    as (v' & h' & E & _ & Hsz & _ & _ & B).
  exists v', h'. split; [exact E|]. split; [|exact B].
  rewrite Hsz. reflexivity.
Defined.


Lemma erase_removes_one_witness :
  exists v' h',
    erase 2 (block_vector 1 [1; 2; 3] 10) (block_heap 1 [1; 2; 3] 10)
      = Ok 2 v' h' /\
    repr v' h' [1; 3] 10.
Proof.
  destruct (erase_removes_one _ _ _ _ 2 repr_sample) as [_ Hin].
  destruct Hin as (v' & h' & E & R & _); [simpl; lia|].
  exists v', h'. split; [exact E | exact R].
Defined.


Lemma resize_down_witness :
  exists v' h',
    resize 2 (Outside 0)
      (block_vector 1 [1; 2; 3] 10) (block_heap 1 [1; 2; 3] 10)
      = Ok tt v' h' /\
    contents v' h' = Some [1; 2].
Proof.
  assert (Hn : 0 <= 2 <= size (block_vector 1 [1; 2; 3] 10))
    by (split; vm_compute; discriminate).
  destruct (resize_down _ _ _ _ 2 (Outside 0) repr_sample Hn)
    as (v' & h' & E & Hc & _).
  exists v', h'. split; [exact E | exact Hc].
Defined.

Lemma insert_copies_witness :
  exists v' h',
    insert_n 2 2 (Outside 0)
      (block_vector 1 [1; 2; 3] 10) (block_heap 1 [1; 2; 3] 10)
      = Ok (begin_ v' + 1) v' h' /\
    contents v' h' = Some [1; 0; 0; 2; 3].
Proof.
  assert (Hn : 0 <= 2) by lia.
  assert (Hs : 2 * (Z.of_nat (length [1; 2; 3]) + 2) < size_max)
    by (rewrite size_max_val; simpl; lia).
  assert (Hr : reads_apart (block_vector 1 [1; 2; 3] 10) 10 (Outside 0)
                 (block_heap 1 [1; 2; 3] 10) 0)
    by reflexivity.
  assert (Cx : @copy_throws Z int_element 0 = false) by reflexivity.
  destruct (insert_copies _ _ _ _ 2 2 (Outside 0) 0 repr_sample
              relocatable_sample Hr Cx Hn Hs) as (_ & _ & Hin).
  destruct Hin as (v' & h' & E & Hc & _); [simpl; lia|].
  exists v', h'. split; [exact E | exact Hc].
Defined.

Lemma insert_range_in_order_witness :
  exists v' h',
    insert_range 2 [7; 8] (block_vector 1 [1; 2; 3] 10)
                          (block_heap 1 [1; 2; 3] 10)
      = Ok (begin_ v' + 1) v' h' /\
    contents v' h' = Some [1; 7; 8; 2; 3].
Proof.
  assert (C : @copyable Z int_element [7; 8]) by (repeat constructor).
  assert (Hs : 2 * (Z.of_nat (length [1; 2; 3]) + Z.of_nat (length [7; 8]))
               < size_max)
    by (rewrite size_max_val; simpl; lia).
  destruct (insert_range_in_order _ _ _ _ 2 [7; 8] repr_sample
              relocatable_sample C Hs) as (_ & _ & Hin).
  destruct Hin as (v' & h' & E & Hc & _); [simpl; lia|].
  exists v', h'. split; [exact E | exact Hc].
Defined.

Lemma assign_replaces_witness :
  (exists v' h',
     assign_range [7; 8] (block_vector 1 [1; 2; 3] 10)
                         (block_heap 1 [1; 2; 3] 10) = Ok tt v' h' /\
     repr v' h' [7; 8] 2) /\
  (exists h0,
     destruct_elements 1 4 (block_heap 1 [1; 2; 3] 10) = Some h0 /\
     cells h0 2 = Uninit) /\
  assign_fill 2 (Inside 2) (block_vector 1 [1; 2; 3] 10)
                           (block_heap 1 [1; 2; 3] 10) = Undefined /\
  (exists h',
     assign_range [Sound 7; Faulty 8] (block_vector 1 [Sound 1] 3)
                  (block_heap 1 [Sound 1] 3)
       = Throw CopyFailure null_vector h' /\
     contents null_vector h' = Some []).
Proof.
  assert (Hn : 0 <= 2 < size_max) by (rewrite size_max_val; lia).
  split; [|split; [|split]].
  - assert (Hsrc : Z.of_nat (length [7; 8]) < size_max)
      by (rewrite size_max_val; simpl; lia).
    destruct (assign_replaces _ _ _ _ [7; 8] 2 (Outside 0) 0 repr_sample Hsrc Hn)
      as (_ & Hok & _).
    destruct Hok as (v' & h' & E & R & _); [repeat constructor|].
    exists v', h'. split; [exact E | exact R].
  - assert (Hsrc : Z.of_nat (length [7; 8]) < size_max)
      by (rewrite size_max_val; simpl; lia).
    destruct (assign_replaces _ _ _ _ [7; 8] 2 (Outside 0) 0 repr_sample Hsrc Hn)
      as (Hsteps & _).
    destruct Hsteps as (h0 & h1 & Ed & Hraw & _); [discriminate|].
    exists h0. split; [exact Ed|]. apply Hraw. split; vm_compute; congruence.
  - assert (Hsrc : Z.of_nat (length [7; 8]) < size_max)
      by (rewrite size_max_val; simpl; lia).
    destruct (assign_replaces _ _ _ _ [7; 8] 2 (Outside 0) 0 repr_sample Hsrc Hn)
      as (_ & _ & _ & _ & Halias).
    apply (Halias 2); [simpl; lia | lia].
  - assert (Hsrc : Z.of_nat (length [Sound 7; Faulty 8]) < size_max)
      by (rewrite size_max_val; simpl; lia).
    destruct (assign_replaces _ _ _ _ [Sound 7; Faulty 8] 2 (Outside (Sound 0))
                (Sound 0) repr_sample_sound Hsrc Hn) as (_ & _ & Hthrow & _).
    destruct Hthrow as (h' & E & _ & Hc & _).
    { apply Exists_cons_tl, Exists_cons_hd. reflexivity. }
    exists h'. split; [exact E | exact Hc].
Defined.

Lemma construct_from_values_witness :
  (exists v h',
     vector_of [1; 2; 3] empty_heap = Ok tt v h' /\
     contents v h' = Some [1; 2; 3] /\ capacity v = 3) /\
  (exists v h',
     vector_fill 2 (Outside 7) empty_heap = Ok tt v h' /\
     contents v h' = Some [7; 7]) /\
  (exists h',
     vector_of [Sound 1; Faulty 2] empty_heap
       = Throw CopyFailure null_vector h' /\
     blocks h' 1 = None).
Proof.
  assert (Hn : 0 <= 2 < size_max) by (rewrite size_max_val; lia).
  split; [|split].
  - assert (K : 0 < brk (@empty_heap Z)) by (simpl; lia).
    assert (Hsrc : Z.of_nat (length [1; 2; 3]) < size_max)
      by (rewrite size_max_val; simpl; lia).
    destruct (construct_from_values empty_heap [1; 2; 3] 2 (Outside 0) 0
                K Hsrc Hn)
      as (Hok & _ & _).
    destruct Hok as (v & h' & E & Hc & Hsz & Hcap & _); [repeat constructor|].
    exists v, h'. split; [exact E|]. split; [exact Hc|].
    rewrite Hcap, Hsz. reflexivity.
  - assert (K : 0 < brk (@empty_heap Z)) by (simpl; lia).
    assert (Hsrc : Z.of_nat (length [1; 2; 3]) < size_max)
      by (rewrite size_max_val; simpl; lia).
    assert (Hr : reads_apart null_vector 0 (Outside 7) (@empty_heap Z) 7)
      by reflexivity.
    assert (Cx : @copy_throws Z int_element 7 = false) by reflexivity.
    destruct (construct_from_values empty_heap [1; 2; 3] 2 (Outside 7) 7
                K Hsrc Hn)
      as (_ & Hfill & _).
    destruct (Hfill Hr Cx) as (v & h' & E & Hc & _).
    exists v, h'. split; [exact E | exact Hc].
  - assert (K : 0 < brk (@empty_heap fragile)) by (simpl; lia).
    assert (Hsrc : Z.of_nat (length [Sound 1; Faulty 2]) < size_max)
      by (rewrite size_max_val; simpl; lia).
    destruct (construct_from_values empty_heap [Sound 1; Faulty 2] 2
                (Outside (Sound 0)) (Sound 0)
                K Hsrc Hn) as (_ & _ & Hthrow).
    destruct Hthrow as (h' & E & Hb & _).
    { apply Exists_cons_tl, Exists_cons_hd. reflexivity. }
    exists h'. split; [exact E|]. rewrite Hb. reflexivity.
Defined.

Lemma destructor_releases_witness :
  exists h0 h',
    clear_elements (block_vector 1 [1; 2; 3] 10) (block_heap 1 [1; 2; 3] 10)
      = Ok tt null_vector h' /\
    destruct_elements 1 4 (block_heap 1 [1; 2; 3] 10) = Some h0 /\
    cells h0 2 = Uninit /\
    deallocate 1 10 h0 = Some h' /\
    blocks h' 1 = None /\ cells h' 2 = Unalloc.
Proof.
  destruct (destructor_releases _ _ _ _ repr_sample)
    as (h' & E & Hsteps & _ & Hc & _ & Hb & _).
  destruct Hsteps as (h0 & Ed & Hraw & _ & Ea); [discriminate|].
  exists h0, h'. split; [exact E|]. split; [exact Ed|].
  split; [apply Hraw; split; vm_compute; congruence|].
  split; [exact Ea|]. split.
  - apply Hb. discriminate.
  - apply Hc. split; vm_compute; congruence.
Defined.

Lemma copy_is_independent_witness :
  exists cp h1,
    vector_copy (block_vector 1 [1; 2; 3] 10) (block_heap 1 [1; 2; 3] 10)
      = Ok tt cp h1 /\
    repr cp h1 [1; 2; 3] 3 /\
    repr (block_vector 1 [1; 2; 3] 10) h1 [1; 2; 3] 10.
Proof.
  assert (C : @copyable Z int_element [1; 2; 3]) by (repeat constructor).
  destruct (copy_is_independent _ _ _ _ (Outside 4) repr_sample C
              size_bound_sample)
    as (cp & h1 & E & _ & _ & Rc & Ro & _).
  exists cp, h1. split; [exact E|]. split; [exact Rc | exact Ro].
Defined.

Lemma move_transfers_block_witness :
  exists h',
    move_assign false (block_vector 1 [1; 2; 3] 10) null_vector
                (block_heap 1 [1; 2; 3] 10)
      = Ok null_vector (block_vector 1 [1; 2; 3] 10) h' /\
    repr (block_vector 1 [1; 2; 3] 10) h' [1; 2; 3] 10.
Proof.
  assert (Rn : repr null_vector (block_heap 1 [1; 2; 3] 10) [] 0)
    by (apply repr_null_vector; simpl; lia).
  assert (A : apart null_vector 0 (block_vector 1 [1; 2; 3] 10) 10)
    by (right; right; simpl; lia).
  destruct (move_transfers_block _ _ _ _ _ _ _ Rn repr_sample A)
    as (_ & _ & (h' & E & R & _) & _).
  exists h'. split; [exact E | exact R].
Defined.

Lemma shrink_to_fit_reallocates_witness :
  exists v' h',
    shrink_to_fit (block_vector 1 [1; 2; 3] 10) (block_heap 1 [1; 2; 3] 10)
      = Ok tt v' h' /\
    capacity v' = 3 /\ contents v' h' = Some [1; 2; 3].
Proof.
  destruct (shrink_to_fit_reallocates _ _ _ _ repr_sample) as [Hok _].
  destruct Hok as (v' & h' & E & Hc & _ & Hcap & R & _); [repeat constructor|].
  exists v', h'. split; [exact E|]. split.
  - rewrite Hcap. reflexivity.
  - exact (repr_contents _ _ _ _ R).
Defined.

Lemma front_back_of_nonempty_witness :
  front (block_vector 1 [1; 2; 3] 10) (block_heap 1 [1; 2; 3] 10)
    = Ok 1 (block_vector 1 [1; 2; 3] 10) (block_heap 1 [1; 2; 3] 10) /\
  back (block_vector 1 [1; 2; 3] 10) (block_heap 1 [1; 2; 3] 10)
    = Ok 3 (block_vector 1 [1; 2; 3] 10) (block_heap 1 [1; 2; 3] 10).
Proof.
  assert (Hne : [1; 2; 3] <> []) by discriminate.
  destruct (front_back_of_nonempty _ _ _ _ repr_sample Hne)
    as (x & y & Ex & Ey & Ef & Eb & _).
  injection Ex as <-. injection Ey as <-. split; [exact Ef | exact Eb].
Defined.

Lemma clear_then_refill_witness :
  exists v' h',
    (clear ;;; push_all [7; 8])
      (block_vector 1 [1; 2; 3] 10) (block_heap 1 [1; 2; 3] 10)
      = Ok tt v' h' /\
    contents v' h' = Some [7; 8] /\ begin_ v' = 1.
Proof.
  assert (C : @copyable Z int_element [7; 8]) by (repeat constructor).
  assert (Hc : Z.of_nat (length [7; 8]) <= 10) by (simpl; lia).
  destruct (clear_then_refill _ _ _ _ [7; 8] repr_sample C Hc)
    as (v' & h' & E & Hcont & _ & Hb & _).
  exists v', h'. split; [exact E|]. split; [exact Hcont | exact Hb].
Defined.

Lemma insert_growth_failure_witness :
  exists h',
    emplace 2 (CopyOf (Outside (Sound 9)))
      (block_vector 1 [Sound 1; Faulty 2] 2)
      (block_heap 1 [Sound 1; Faulty 2] 2)
      = Throw CopyFailure (block_vector 1 [Sound 1; Faulty 2] 2) h' /\
    repr (block_vector 1 [Sound 1; Faulty 2] 2) h' [Sound 1; Faulty 2] 2.
Proof.
  assert (Hs : 2 * Z.of_nat (length [Sound 1; Faulty 2]) < size_max)
    by (rewrite size_max_val; simpl; lia).
  assert (Hex : Exists (fun y => copy_throws y = true) [Sound 1; Faulty 2])
    by (apply Exists_cons_tl, Exists_cons_hd; reflexivity).
  assert (Hpos : begin_ (block_vector 1 [Sound 1; Faulty 2] 2) <= 2
                 <= end_ (block_vector 1 [Sound 1; Faulty 2] 2))
    by (simpl; lia).
  assert (Hmv : @nothrow_move_constructible fragile fragile_element = false)
    by reflexivity.
  assert (Hfull : Z.of_nat (length [Sound 1; Faulty 2]) = 2) by reflexivity.
  destruct (insert_growth_failure _ _ _ _ 2 (CopyOf (Outside (Sound 9)))
              (Outside (Sound 9)) (Sound 9) repr_sample_fragile
              Hfull Hs Hmv Hex Hpos) as (h' & E & _ & _ & R & _).
  exists h'. split; [exact E | exact R].
Defined.

Lemma insert_then_erase_witness :
  exists p v1 h1 v2 h2,
    insert 2 (Inside 1) (block_vector 1 [1; 2; 3] 10) (block_heap 1 [1; 2; 3] 10)
      = Ok p v1 h1 /\
    at_ (p - begin_ v1) v1 h1 = Ok 1 v1 h1 /\
    erase p v1 h1 = Ok p v2 h2 /\
    contents v2 h2 = Some [1; 2; 3].
Proof.
  assert (Hpos : begin_ (block_vector 1 [1; 2; 3] 10) <= 2
                 <= end_ (block_vector 1 [1; 2; 3] 10))
    by (simpl; lia).
  assert (Er : fetch (Inside 1) (block_heap 1 [1; 2; 3] 10) = Some 1)
    by reflexivity.
  assert (Cx : @copy_throws Z int_element 1 = false) by reflexivity.
  assert (Hfull : Z.of_nat (length [1; 2; 3]) = 10 ->
                  2 * Z.of_nat (length [1; 2; 3]) < size_max /\
                  @relocatable Z int_element [1; 2; 3])
    by (simpl; lia).
  destruct (insert_then_erase _ _ _ _ 2 (Inside 1) 1 repr_sample
              Hfull Er Cx Hpos)
    as (p & v1 & h1 & v2 & h2 & E1 & Ea & E2 & Hc & _).
  exists p, v1, h1, v2, h2. split; [exact E1|]. split; [exact Ea|].
  split; [exact E2|].
  rewrite Hc. exact (repr_contents _ _ _ _ repr_sample).
Defined.
